(** * Nebula Notes: a shallow embedding of the note store, the sidebar
      filter, the editor and the Gemini text service client.

    Sources embedded: [src/types.ts], [src/App.tsx],
    [src/components/Sidebar.tsx], [src/components/Editor.tsx] and
    [src/services/gemini.ts].

    Conventions.  A JavaScript string is a [string]; each [ascii] stands for
    one code unit (the Latin-1 range).  A timestamp ([Date.now()]) is a [Z]
    of milliseconds.  React state is passed explicitly; an asynchronous
    handler is a computation in the monad [M], which threads the console,
    the alerts shown and the requests sent to the remote model, and which
    can throw. *)

From stdpp Require Import base decidable option list strings gmap.
From Stdlib Require Import ZArith Ascii String Lia.

Local Open Scope Z_scope.

(** ** JavaScript string primitives *)

Module JsString.

Fixpoint take (n : nat) (s : string) : string :=
  match n, s with
  | S n', String c s' => String c (take n' s')
  | _, _ => EmptyString
  end.

Fixpoint drop (n : nat) (s : string) : string :=
  match n, s with
  | S n', String _ s' => drop n' s'
  | _, _ => s
  end.

(** [s.substring(a, b)]: both indices are clamped to the length and
    swapped when [a > b]. *)
Definition substring (s : string) (a b : nat) : string :=
  let lo := Nat.min a b in
  let hi := Nat.max a b in
  take (hi - lo) (drop lo s).

(** [s.substring(a)]. *)
Definition substring_from (s : string) (a : nat) : string := drop a s.

(** [WhiteSpace] and [LineTerminator] code units below 256. *)
Definition is_white (c : ascii) : bool :=
  match c with
  | "009" | "010" | "011" | "012" | "013" | " " | "160" => true
  | _ => false
  end%char.

Fixpoint trimStart (s : string) : string :=
  match s with
  | String c s' => if is_white c then trimStart s' else s
  | EmptyString => EmptyString
  end.

(** Drops the white space at the end: a character is kept when it is not
    white or when something is kept after it. *)
Fixpoint trimEnd (s : string) : string :=
  match s with
  | String c s' =>
      match trimEnd s' with
      | EmptyString => if is_white c then EmptyString else String c EmptyString
      | r => String c r
      end
  | EmptyString => EmptyString
  end.

Definition trim (s : string) : string := trimEnd (trimStart s).

(** Truthiness of a string: the empty string is the only falsy one. *)
Definition truthy (s : string) : bool :=
  match s with EmptyString => false | _ => true end.

(** [toLowerCase] on the strings of this model, whose code units are all
    below U+0100.  There the built-in works unit by unit: A-Z, and
    U+00C0-U+00DE but for U+00D7, move up by 32, and nothing else changes;
    no unit of that range has a lower case form that depends on its
    neighbours or is longer than one unit.  Texts with other code units,
    where the built-in does look at the neighbours, are the matter of
    [Utf16] below. *)
Definition lower_char (c : ascii) : ascii :=
  let n := nat_of_ascii c in
  if ((65 <=? n)%nat && (n <=? 90)%nat)
     || ((192 <=? n)%nat && (n <=? 222)%nat && negb (n =? 215)%nat)
  then ascii_of_nat (n + 32) else c.

Fixpoint toLowerCase (s : string) : string :=
  match s with
  | String c s' => String (lower_char c) (toLowerCase s')
  | EmptyString => EmptyString
  end.

Fixpoint startsWith (s p : string) {struct p} : bool :=
  match p, s with
  | EmptyString, _ => true
  | String c p', String d s' => if decide (c = d) then startsWith s' p' else false
  | String _ _, EmptyString => false
  end.

(** [s.includes(q)]: [q] occurs at some position of [s]. *)
Fixpoint includes (s q : string) : bool :=
  startsWith s q ||
  match s with
  | String _ s' => includes s' q
  | EmptyString => false
  end.

(** The line feed, [\n]. *)
Definition nl : string := String "010" "".

Lemma app_cons (c : ascii) (s t : string) :
  String c s +:+ t = String c (s +:+ t).
Proof. reflexivity. Qed.

Lemma app_nil_l (s : string) : "" +:+ s = s.
Proof. reflexivity. Qed.

Lemma app_nil_r (s : string) : s +:+ "" = s.
Proof. induction s as [|c s IH]; [done|]. by rewrite app_cons, IH. Qed.

Lemma app_assoc (s t u : string) : (s +:+ t) +:+ u = s +:+ t +:+ u.
Proof. induction s as [|c s IH]; [done|]. by rewrite !app_cons, IH. Qed.

Lemma take_drop (n : nat) (s : string) : take n s +:+ drop n s = s.
Proof.
  revert s; induction n as [|n IH]; intros [|c s]; try done.
  cbn [take drop]. by rewrite app_cons, IH.
Qed.

Lemma length_app (s t : string) :
  String.length (s +:+ t) = (String.length s + String.length t)%nat.
Proof. induction s as [|c s IH]; [done|]. rewrite app_cons. cbn. by rewrite IH. Qed.

Lemma take_app_length (s t : string) : take (String.length s) (s +:+ t) = s.
Proof.
  induction s as [|c s IH]; [by destruct t|].
  rewrite app_cons. cbn. by rewrite IH.
Qed.

Lemma drop_app_length (s t : string) : drop (String.length s) (s +:+ t) = t.
Proof. induction s as [|c s IH]; [by destruct t|]. by rewrite app_cons. Qed.

Section cutting.
Local Open Scope nat_scope.

Lemma drop_drop (n k : nat) (s : string) : drop k (drop n s) = drop (n + k) s.
Proof.
  revert s; induction n as [|n IH]; intros s; [done|].
  destruct s as [|c s]; [by destruct k|]. cbn. apply IH.
Qed.

Lemma take_length (n : nat) (s : string) :
  n ≤ String.length s → String.length (take n s) = n.
Proof.
  revert s; induction n as [|n IH]; intros s Hn; [done|].
  destruct s as [|c s]; [cbn in Hn; lia|]. cbn in *. rewrite IH; lia.
Qed.

Lemma drop_length (n : nat) (s : string) :
  String.length (drop n s) = String.length s - n.
Proof.
  revert s; induction n as [|n IH]; intros s; [cbn; lia|].
  destruct s as [|c s]; [done|]. cbn. apply IH.
Qed.

(** A selection from [a] to [b] cuts the string in three. *)
Lemma substring_split (s : string) (a b : nat) :
  a ≤ b →
  s = substring s 0 a +:+ substring s a b +:+ substring_from s b.
Proof.
  intros Hab. unfold substring, substring_from.
  rewrite Nat.min_0_l, Nat.max_0_l, Nat.sub_0_r.
  rewrite (Nat.min_l a b), (Nat.max_r a b) by done.
  replace b with (a + (b - a)) at 2 by lia.
  rewrite <-drop_drop, take_drop. cbn [drop]. by rewrite take_drop.
Qed.

Lemma substring_truthy (s : string) (a b : nat) :
  a < b → b ≤ String.length s → truthy (substring s a b) = true.
Proof.
  intros Hab Hb. unfold substring.
  rewrite (Nat.min_l a b), (Nat.max_r a b) by lia.
  pose proof (take_length (b - a) (drop a s)) as Hl.
  rewrite drop_length in Hl.
  destruct (take _ _); [cbn in Hl; lia|done].
Qed.

End cutting.

End JsString.

(** ** JSON text: [JSON.stringify] and [JSON.parse]

    The two built-ins the note store and the tag generator call.  A number
    is an integer, which is what a timestamp is, and is printed in decimal;
    a number written with a fraction or an exponent is kept as its literal
    ([Float]), so that two such numbers are equal here only when written
    alike.  Strings hold code units below 256: [parse] rejects a [\u]
    escape above [00ff]. *)

Module JSON.

#[warnings="-register-all"]
Inductive value :=
  | Null
  | Bool (b : bool)
  | Num (n : Z)
  | Float (literal : string)
  | Str (s : string)
  | Arr (l : list value)
  | Obj (l : list (string * value)).

Definition dquote : ascii := "034"%char.
Definition backslash : ascii := "\"%char.

(** *** Printing *)

Definition digit_char (d : N) : ascii := ascii_of_N (48 + d).

Fixpoint print_N_fuel (fuel : nat) (n : N) : string :=
  match fuel with
  | O => ""
  | S f =>
      (if (n <? 10)%N then "" else print_N_fuel f (n / 10))
      +:+ String (digit_char (n mod 10)) ""
  end.

Definition print_N (n : N) : string := print_N_fuel (S (N.size_nat n)) n.

Definition print_Z (z : Z) : string :=
  if z <? 0 then String "-" (print_N (Z.abs_N z)) else print_N (Z.abs_N z).

Definition hex_digit (n : N) : ascii :=
  ascii_of_N (if (n <? 10)%N then 48 + n else 87 + n).

(** [QuoteJSONString], one code unit at a time. *)
Definition quote_char (c : ascii) : string :=
  if (c =? dquote)%char then String backslash (String dquote "")
  else if (c =? backslash)%char then String backslash (String backslash "")
  else if (c =? "008")%char then String backslash "b"
  else if (c =? "012")%char then String backslash "f"
  else if (c =? "010")%char then String backslash "n"
  else if (c =? "013")%char then String backslash "r"
  else if (c =? "009")%char then String backslash "t"
  else if (N_of_ascii c <? 32)%N then
    String backslash
      (String "u" (String "0" (String "0"
         (String (hex_digit (N_of_ascii c / 16))
            (String (hex_digit (N_of_ascii c mod 16)) "")))))
  else String c "".

Fixpoint quote_chars (s : string) : string :=
  match s with
  | EmptyString => EmptyString
  | String c s' => quote_char c +:+ quote_chars s'
  end.

Definition quote (s : string) : string :=
  String dquote (quote_chars s +:+ String dquote "").

(** The elements of an array or the members of an object, separated by
    commas. *)
Fixpoint join {A : Type} (f : A → string) (l : list A) : string :=
  match l with
  | [] => ""
  | x :: l' =>
      match l' with
      | [] => f x
      | _ :: _ => f x +:+ String "," (join f l')
      end
  end.

Fixpoint stringify (v : value) : string :=
  match v with
  | Null => "null"
  | Bool true => "true"
  | Bool false => "false"
  | Num n => print_Z n
  | Float literal => literal
  | Str s => quote s
  | Arr l => String "[" (join stringify l +:+ "]")
  | Obj l =>
      String "{"
        (join (λ m, quote m.1 +:+ String ":" (stringify m.2)) l +:+ "}")
  end.

(** The values [parse] is shown to read back: property names are distinct
    in every object, as they are in a JavaScript object, and every number
    is an integer. *)
Fixpoint wf (v : value) : bool :=
  match v with
  | Null | Bool _ | Num _ | Str _ => true
  | Float _ => false
  | Arr l => forallb wf l
  | Obj l =>
      bool_decide (NoDup (map fst l)) && forallb (λ m, wf m.2) l
  end.

(** An array of strings, read at the type [string[]]. *)
Fixpoint strings_of (l : list value) : option (list string) :=
  match l with
  | [] => Some []
  | Str s :: l' =>
      match strings_of l' with
      | Some r => Some (s :: r)
      | None => None
      end
  | _ :: _ => None
  end.

(** *** Parsing *)

Definition is_ws (c : ascii) : bool :=
  (c =? " ")%char || (c =? "009")%char || (c =? "010")%char || (c =? "013")%char.

Fixpoint skip_ws (s : string) : string :=
  match s with
  | String c s' => if is_ws c then skip_ws s' else s
  | EmptyString => EmptyString
  end.

Definition is_digit (c : ascii) : bool :=
  (48 <=? N_of_ascii c)%N && (N_of_ascii c <=? 57)%N.

Definition digit_value (c : ascii) : N := N_of_ascii c - 48.

Fixpoint parse_digits (acc : N) (s : string) : N * string :=
  match s with
  | String c s' =>
      if is_digit c then parse_digits (10 * acc + digit_value c) s' else (acc, s)
  | EmptyString => (acc, s)
  end.

(** [int]: a lone zero, or a digit from 1 to 9 followed by digits. *)
Definition parse_int (s : string) : option (N * string) :=
  match s with
  | String c s' =>
      if (c =? "0")%char then Some (0%N, s')
      else if is_digit c then Some (parse_digits (digit_value c) s')
      else None
  | EmptyString => None
  end.

(** The digits a string starts with, and what follows them. *)
Fixpoint span_digits (s : string) : string * string :=
  match s with
  | String c s' =>
      if is_digit c then
        let '(ds, r) := span_digits s' in (String c ds, r)
      else (EmptyString, s)
  | EmptyString => (EmptyString, EmptyString)
  end.

Definition digits_then (s : string) : option string :=
  match span_digits s with
  | (EmptyString, _) => None
  | (String _ _, r) => Some r
  end.

(** [frac]: nothing, or a dot and at least one digit; what follows it. *)
Definition skip_frac (s : string) : option string :=
  match s with
  | String c s' => if (c =? ".")%char then digits_then s' else Some s
  | EmptyString => Some s
  end.

(** [exp]: nothing, or [e] or [E], a sign or none, and at least one digit;
    what follows it. *)
Definition skip_exp (s : string) : option string :=
  match s with
  | String c s' =>
      if (c =? "e")%char || (c =? "E")%char then
        match s' with
        | String d t =>
            if (d =? "+")%char || (d =? "-")%char then digits_then t
            else digits_then s'
        | EmptyString => None
        end
      else Some s
  | EmptyString => Some s
  end.

(** [number]: a minus sign or none, [int], [frac], [exp]. *)
Definition parse_number (s : string) : option (value * string) :=
  let '(negative, s1) :=
    match s with
    | String c t => if (c =? "-")%char then (true, t) else (false, s)
    | EmptyString => (false, s)
    end in
  match parse_int s1 with
  | Some (n, r) =>
      match skip_frac r with
      | Some r1 =>
          match skip_exp r1 with
          | Some r2 =>
              if (String.length r2 =? String.length r)%nat
              then Some (Num (if negative then - Z.of_N n else Z.of_N n), r2)
              else Some (Float (JsString.take (String.length s - String.length r2) s), r2)
          | None => None
          end
      | None => None
      end
  | None => None
  end.

Definition hex_value (c : ascii) : option N :=
  let n := N_of_ascii c in
  if (48 <=? n)%N && (n <=? 57)%N then Some (n - 48)%N
  else if (97 <=? n)%N && (n <=? 102)%N then Some (n - 87)%N
  else if (65 <=? n)%N && (n <=? 70)%N then Some (n - 55)%N
  else None.

Definition hex4 (h1 h2 h3 h4 : ascii) : option ascii :=
  match hex_value h1, hex_value h2, hex_value h3, hex_value h4 with
  | Some a, Some b, Some c, Some d =>
      let n := (((a * 16 + b) * 16 + c) * 16 + d)%N in
      if (n <? 256)%N then Some (ascii_of_N n) else None
  | _, _, _, _ => None
  end.

Definition unescape (e : ascii) : option ascii :=
  if (e =? dquote)%char then Some dquote
  else if (e =? backslash)%char then Some backslash
  else if (e =? "/")%char then Some "/"%char
  else if (e =? "b")%char then Some "008"%char
  else if (e =? "f")%char then Some "012"%char
  else if (e =? "n")%char then Some "010"%char
  else if (e =? "r")%char then Some "013"%char
  else if (e =? "t")%char then Some "009"%char
  else None.

Definition cons_char (c : ascii) (r : option (string * string)) :
  option (string * string) :=
  match r with
  | Some (str, rest) => Some (String c str, rest)
  | None => None
  end.

(** The characters of a string literal, after its opening quote, up to and
    including the closing one. *)
Fixpoint parse_chars (s : string) : option (string * string) :=
  match s with
  | EmptyString => None
  | String c s1 =>
      if (c =? dquote)%char then Some ("", s1)
      else if (c =? backslash)%char then
        match s1 with
        | String e s2 =>
            if (e =? "u")%char then
              match s2 with
              | String h1 (String h2 (String h3 (String h4 s3))) =>
                  match hex4 h1 h2 h3 h4 with
                  | Some d => cons_char d (parse_chars s3)
                  | None => None
                  end
              | _ => None
              end
            else
              match unescape e with
              | Some d => cons_char d (parse_chars s2)
              | None => None
              end
        | EmptyString => None
        end
      else if (N_of_ascii c <? 32)%N then None
      else cons_char c (parse_chars s1)
  end.

(** [expect p s]: what follows the literal [p] at the start of [s]. *)
Fixpoint expect (p s : string) {struct p} : option string :=
  match p, s with
  | EmptyString, _ => Some s
  | String c p', String d s' => if (c =? d)%char then expect p' s' else None
  | String _ _, EmptyString => None
  end.

(** A later member with the same key gives the property its value; the
    property keeps the place of its first occurrence. *)
Definition obj_cons (k : string) (v : value) (ms : list (string * value)) :
  list (string * value) :=
  match list_find (λ m, m.1 = k) ms with
  | Some (_, (_, v')) => (k, v') :: filter (λ m, m.1 ≠ k) ms
  | None => (k, v) :: ms
  end.

Definition tag_result {A B : Type} (f : A → B) (r : option (A * string)) :
  option (B * string) :=
  match r with
  | Some (a, rest) => Some (f a, rest)
  | None => None
  end.

Definition literal (p : string) (v : value) (s : string) :
  option (value * string) :=
  match expect p s with
  | Some rest => Some (v, rest)
  | None => None
  end.

Fixpoint parse_value (fuel : nat) (s : string) : option (value * string) :=
  match fuel with
  | O => None
  | S f =>
      match skip_ws s with
      | EmptyString => None
      | String c r =>
          if (c =? "n")%char then literal "ull" Null r
          else if (c =? "t")%char then literal "rue" (Bool true) r
          else if (c =? "f")%char then literal "alse" (Bool false) r
          else if (c =? dquote)%char then tag_result Str (parse_chars r)
          else if (c =? "[")%char then
            match expect "]" (skip_ws r) with
            | Some r' => Some (Arr [], r')
            | None => tag_result Arr (parse_elements f r)
            end
          else if (c =? "{")%char then
            match expect "}" (skip_ws r) with
            | Some r' => Some (Obj [], r')
            | None => tag_result Obj (parse_members f r)
            end
          else parse_number (String c r)
      end
  end
with parse_elements (fuel : nat) (s : string) : option (list value * string) :=
  match fuel with
  | O => None
  | S f =>
      match parse_value f s with
      | Some (v, r) =>
          match skip_ws r with
          | String c r' =>
              if (c =? ",")%char then tag_result (cons v) (parse_elements f r')
              else if (c =? "]")%char then Some ([v], r')
              else None
          | EmptyString => None
          end
      | None => None
      end
  end
with parse_members (fuel : nat) (s : string) :
    option (list (string * value) * string) :=
  match fuel with
  | O => None
  | S f =>
      match skip_ws s with
      | String q r =>
          if (q =? dquote)%char then
            match parse_chars r with
            | Some (k, r1) =>
                match skip_ws r1 with
                | String c r2 =>
                    if (c =? ":")%char then
                      match parse_value f r2 with
                      | Some (v, r3) =>
                          match skip_ws r3 with
                          | String d r4 =>
                              if (d =? ",")%char
                              then tag_result (obj_cons k v) (parse_members f r4)
                              else if (d =? "}")%char then Some ([(k, v)], r4)
                              else None
                          | EmptyString => None
                          end
                      | None => None
                      end
                    else None
                | EmptyString => None
                end
            | None => None
            end
          else None
      | EmptyString => None
      end
  end.

(** [JSON.parse(text)]: one value, white space around it, nothing else.
    [None] is the [SyntaxError]. *)
Definition parse (text : string) : option value :=
  match parse_value (S (String.length text)) text with
  | Some (v, rest) =>
      match skip_ws rest with
      | EmptyString => Some v
      | String _ _ => None
      end
  | None => None
  end.

(** *** Reading back what was printed *)

Import JsString.

Ltac ascii_cases c := destruct c as [[] [] [] [] [] [] [] []].

Fixpoint all_digits (s : string) : bool :=
  match s with
  | String c s' => is_digit c && all_digits s'
  | EmptyString => true
  end.

(** Where a number may end: the next character, if any, is no digit and
    starts neither a fraction nor an exponent. *)
Definition ends_number (s : string) : Prop :=
  match s with
  | String c _ =>
      is_digit c = false ∧ (c =? ".")%char = false
      ∧ (c =? "e")%char = false ∧ (c =? "E")%char = false
  | EmptyString => True
  end.

Lemma digit_char_digit (d : N) :
  (d < 10)%N → is_digit (digit_char d) = true ∧ digit_value (digit_char d) = d.
Proof.
  intros Hd. unfold is_digit, digit_value, digit_char.
  rewrite N_ascii_embedding by lia. split; [|lia].
  apply andb_true_iff; split; apply N.leb_le; lia.
Qed.

Lemma all_digits_app (s t : string) :
  all_digits (s +:+ t) = all_digits s && all_digits t.
Proof.
  induction s as [|c s IH]; [done|].
  rewrite app_cons. cbn. by rewrite IH, andb_assoc.
Qed.

Lemma print_N_fuel_digits (fuel : nat) (n : N) : all_digits (print_N_fuel fuel n) = true.
Proof.
  revert n; induction fuel as [|f IH]; intros n; [done|].
  cbn [print_N_fuel]. rewrite all_digits_app. apply andb_true_iff; split.
  - destruct (n <? 10)%N; [done|apply IH].
  - cbn. rewrite andb_true_r. apply digit_char_digit.
    apply N.mod_lt. lia.
Qed.

Lemma parse_digits_stop (a : N) (t : string) :
  ends_number t → parse_digits a t = (a, t).
Proof. destruct t as [|c t]; [done|]. cbn. by intros [-> _]. Qed.

Lemma parse_digits_app (a : N) (s t : string) :
  all_digits s = true →
  parse_digits a (s +:+ t) = parse_digits (parse_digits a s).1 t.
Proof.
  revert a; induction s as [|c s IH]; intros a Hs; [done|].
  cbn in Hs. apply andb_true_iff in Hs as [Hc Hs].
  rewrite app_cons. cbn. rewrite Hc. by apply IH.
Qed.

Lemma print_N_fuel_S (f : nat) (n : N) :
  print_N_fuel (S f) n =
    (if (n <? 10)%N then "" else print_N_fuel f (n / 10))
    +:+ String (digit_char (n mod 10)) "".
Proof. reflexivity. Qed.

Lemma div10_bound (f : nat) (n : N) :
  (n < 2 ^ N.of_nat (S f))%N → (n / 10 < 2 ^ N.of_nat f)%N.
Proof.
  rewrite Nat2N.inj_succ, N.pow_succ_r'. intros Hn.
  apply N.Div0.div_lt_upper_bound. lia.
Qed.

Lemma print_N_fuel_value (f : nat) (n : N) :
  (n < 2 ^ N.of_nat f)%N →
  (parse_digits 0 (print_N_fuel (S f) n)).1 = n.
Proof.
  revert n; induction f as [|f IH]; intros n Hn.
  - assert (n = 0%N) as -> by (cbn in Hn; lia). done.
  - rewrite print_N_fuel_S.
    destruct (digit_char_digit (n mod 10)) as [Hd Hv]; [apply N.mod_lt; lia|].
    destruct (N.ltb_spec n 10) as [Hlt|Hge].
    + rewrite app_nil_l. cbn. rewrite Hd, Hv. cbn.
      rewrite N.mod_small by done. lia.
    + rewrite parse_digits_app by apply print_N_fuel_digits.
      rewrite IH by by apply div10_bound.
      cbn. rewrite Hd, Hv. cbn. pose proof (N.div_mod n 10). lia.
Qed.

Lemma size_nat_bound (n : N) : (n < 2 ^ N.of_nat (N.size_nat n))%N.
Proof.
  destruct n as [|p]; [done|]. cbn [N.size_nat].
  induction p as [p IH|p IH|]; cbn [Pos.size_nat];
    rewrite ?Nat2N.inj_succ, ?N.pow_succ_r'; cbn in *; lia.
Qed.

Lemma print_N_value (n : N) : (parse_digits 0 (print_N n)).1 = n.
Proof. apply print_N_fuel_value, size_nat_bound. Qed.

Lemma digit_char_nonzero (d : N) :
  (0 < d < 10)%N → (digit_char d =? "0")%char = false.
Proof.
  intros Hd. apply Ascii.eqb_neq. intros Heq.
  apply (f_equal N_of_ascii) in Heq. unfold digit_char in Heq.
  rewrite N_ascii_embedding in Heq by lia. cbn in Heq. lia.
Qed.

Lemma print_N_fuel_head (f : nat) (n : N) :
  (0 < n < 2 ^ N.of_nat f)%N →
  ∃ c s, print_N_fuel (S f) n = String c s
         ∧ is_digit c = true ∧ (c =? "0")%char = false.
Proof.
  revert n; induction f as [|f IH]; intros n Hn; [cbn in Hn; lia|].
  rewrite print_N_fuel_S. destruct (N.ltb_spec n 10) as [Hlt|Hge].
  - rewrite app_nil_l. eexists _, _. split; [done|].
    rewrite N.mod_small by done. split.
    + by apply digit_char_digit.
    + apply digit_char_nonzero. lia.
  - destruct (IH (n / 10)%N) as (c & s & -> & Hc & Hz).
    { split; [|apply div10_bound; lia].
      apply N.div_str_pos. lia. }
    rewrite app_cons. by eexists _, _.
Qed.

Lemma parse_int_print_N (n : N) (t : string) :
  ends_number t → parse_int (print_N n +:+ t) = Some (n, t).
Proof.
  intros Ht. destruct (N.eq_dec n 0) as [->|Hn]; [done|].
  pose proof (print_N_value n) as Hv.
  destruct (print_N_fuel_head (N.size_nat n) n) as (c & s & Hp & Hc & Hz).
  { split; [lia|apply size_nat_bound]. }
  pose proof (print_N_fuel_digits (S (N.size_nat n)) n) as Hd.
  unfold print_N in *. rewrite Hp in *. rewrite app_cons. cbn [parse_int].
  rewrite Hz, Hc. f_equal.
  cbn [parse_digits all_digits] in Hv, Hd. rewrite Hc in Hv, Hd.
  replace (10 * 0 + digit_value c)%N with (digit_value c) in Hv by lia.
  rewrite parse_digits_app, Hv by done.
  by apply parse_digits_stop.
Qed.

(** A digit is none of the characters that start another kind of value. *)
Lemma is_digit_not_special (c : ascii) :
  is_digit c = true →
  is_ws c = false ∧ (c =? "n")%char = false ∧ (c =? "t")%char = false
  ∧ (c =? "f")%char = false ∧ (c =? dquote)%char = false
  ∧ (c =? "[")%char = false ∧ (c =? "{")%char = false
  ∧ (c =? "-")%char = false.
Proof. ascii_cases c; intros H; try discriminate H; done. Qed.

Lemma quote_chars_cons (c : ascii) (s : string) :
  quote_chars (String c s) = quote_char c +:+ quote_chars s.
Proof. reflexivity. Qed.

(** Reading back one escaped character. *)
Lemma parse_chars_quote_char (c : ascii) (r : string) :
  parse_chars (quote_char c +:+ r) = cons_char c (parse_chars r).
Proof.
  ascii_cases c;
    match goal with
    | |- context [quote_char ?a] =>
        let q := eval vm_compute in (quote_char a) in
        change (quote_char a) with q
    end;
    rewrite ?app_cons, app_nil_l; reflexivity.
Qed.

Lemma parse_chars_quote (s t : string) :
  parse_chars (quote_chars s +:+ String dquote t) = Some (s, t).
Proof.
  induction s as [|c s IH]; [done|].
  by rewrite quote_chars_cons, app_assoc, parse_chars_quote_char, IH.
Qed.

Lemma value_ind_nested (P : value → Prop) :
  P Null → (∀ b, P (Bool b)) → (∀ n, P (Num n)) → (∀ s, P (Float s)) →
  (∀ s, P (Str s)) →
  (∀ l, Forall P l → P (Arr l)) →
  (∀ l, Forall (λ m, P m.2) l → P (Obj l)) →
  ∀ v, P v.
Proof.
  intros HN HB HZ HF HS HA HO. fix IH 1.
  intros [|b|n|s|s|l|l]; [apply HN|apply HB|apply HZ|apply HF|apply HS|..].
  - apply HA. induction l as [|v l IHl]; constructor; [apply IH|apply IHl].
  - apply HO. induction l as [|[k v] l IHl]; constructor; [apply IH|apply IHl].
Qed.

Lemma print_N_head (n : N) :
  ∃ c s, print_N n = String c s ∧ is_digit c = true.
Proof.
  pose proof (print_N_fuel_digits (S (N.size_nat n)) n) as Hd.
  unfold print_N. rewrite print_N_fuel_S in *.
  destruct (if (n <? 10)%N then _ else _) as [|c s].
  - rewrite app_nil_l in *. cbn in Hd. rewrite andb_true_r in Hd. by eexists _, _.
  - rewrite app_cons in *. cbn in Hd. apply andb_true_iff in Hd as [Hc _].
    by eexists _, _.
Qed.

(** Every value printed from a well-formed one starts with a character
    that is neither white space nor a closing bracket. *)
Lemma stringify_head (v : value) :
  wf v = true →
  ∃ c r, stringify v = String c r ∧ is_ws c = false
         ∧ ("]" =? c)%char = false.
Proof.
  intros Hwf.
  destruct v as [|[]|n|s|s|l|l]; try discriminate Hwf;
    try by (cbn; eexists _, _).
  cbn. unfold print_Z. destruct (n <? 0); [by eexists _, _|].
  destruct (print_N_head (Z.abs_N n)) as (c & s & -> & Hc).
  exists c, s. split; [done|]. revert Hc. clear.
  ascii_cases c; intros H; try discriminate H; done.
Qed.

Lemma skip_ws_stringify (v : value) (rest : string) :
  wf v = true → skip_ws (stringify v +:+ rest) = stringify v +:+ rest.
Proof.
  intros Hwf. destruct (stringify_head v Hwf) as (c & r & -> & Hc & _).
  rewrite app_cons. cbn. by rewrite Hc.
Qed.

Lemma stringify_length (v : value) :
  wf v = true → (1 ≤ String.length (stringify v))%nat.
Proof. intros Hwf. destruct (stringify_head v Hwf) as (c & r & -> & _). cbn. lia. Qed.

Definition member (m : string * value) : string :=
  quote m.1 +:+ String ":" (stringify m.2).

(** What the round trip needs of one value: enough fuel reads it back and
    leaves the rest of the text. *)
Definition reads_back (v : value) : Prop :=
  wf v = true →
  ∀ fuel rest, (String.length (stringify v) ≤ fuel)%nat → ends_number rest →
    parse_value fuel (stringify v +:+ rest) = Some (v, rest).

Lemma join_cons_cons {A : Type} (f : A → string) (x y : A) (l : list A) :
  join f (x :: y :: l) = f x +:+ String "," (join f (y :: l)).
Proof. reflexivity. Qed.

Lemma parse_elements_join (l : list value) :
  l ≠ [] → Forall reads_back l → forallb wf l = true →
  ∀ fuel rest, (String.length (join stringify l) < fuel)%nat →
    parse_elements fuel (join stringify l +:+ String "]" rest) = Some (l, rest).
Proof.
  intros Hne Hall. induction Hall as [|v l Hv Hall IH]; [done|].
  intros Hwf fuel rest Hfuel. cbn in Hwf. apply andb_true_iff in Hwf as [Hwv Hwl].
  destruct fuel as [|f]; [lia|]. destruct l as [|v' l'].
  - cbn [join] in *. cbn [parse_elements].
    rewrite Hv; [|done|lia|done]. done.
  - rewrite join_cons_cons in *. rewrite app_assoc, app_cons.
    rewrite length_app in Hfuel. cbn [String.length] in Hfuel.
    pose proof (stringify_length v Hwv).
    cbn [parse_elements]. rewrite Hv; [|done|lia|done].
    cbn [skip_ws is_ws]. cbn. rewrite IH; [done..|lia].
Qed.

Lemma member_app (m : string * value) (t : string) :
  member m +:+ t =
    String dquote
      (quote_chars m.1 +:+ String dquote (String ":" (stringify m.2 +:+ t))).
Proof.
  unfold member, quote.
  by rewrite !app_cons, !app_assoc, !app_cons, app_nil_l.
Qed.

Lemma obj_cons_fresh (k : string) (v : value) (ms : list (string * value)) :
  k ∉ map fst ms → obj_cons k v ms = (k, v) :: ms.
Proof.
  intros Hk. unfold obj_cons.
  destruct (list_find _ ms) as [[i [k' v']]|] eqn:Hfind; [|done].
  apply list_find_Some in Hfind as (Hi & Hk' & _). cbn in Hk'. subst k'.
  destruct Hk. apply list_elem_of_fmap. exists (k, v'). split; [done|].
  by eapply list_elem_of_lookup_2.
Qed.

Lemma parse_members_join (l : list (string * value)) :
  l ≠ [] → Forall (λ m, reads_back m.2) l →
  NoDup (map fst l) → forallb (λ m, wf m.2) l = true →
  ∀ fuel rest, (String.length (join member l) < fuel)%nat →
    parse_members fuel (join member l +:+ String "}" rest) = Some (l, rest).
Proof.
  intros Hne Hall. induction Hall as [|[k v] l Hv Hall IH]; [done|].
  intros Hnd Hwf fuel rest Hfuel.
  cbn in Hwf. apply andb_true_iff in Hwf as [Hwv Hwl].
  apply NoDup_cons in Hnd as [Hk Hnd]. cbn [fst snd] in *.
  destruct fuel as [|f]; [lia|].
  pose proof (stringify_length v) as Hlen.
  assert (String.length (stringify v) < String.length (member (k, v)))%nat as Hm.
  { unfold member. rewrite length_app. cbn. lia. }
  destruct l as [|m' l'].
  - cbn [join] in *. rewrite member_app. cbn [parse_members fst snd].
    cbn [skip_ws is_ws]. cbn. rewrite parse_chars_quote. cbn.
    rewrite Hv; [|done|lia|done]. done.
  - rewrite join_cons_cons in *. rewrite app_assoc, member_app, app_cons.
    rewrite length_app in Hfuel. cbn [String.length] in Hfuel.
    cbn [parse_members fst snd]. cbn [skip_ws is_ws]. cbn.
    rewrite parse_chars_quote. cbn.
    rewrite Hv; [|done|lia|done]. cbn.
    rewrite IH; [|done..|lia]. cbn. by rewrite obj_cons_fresh.
Qed.

Lemma stringify_Obj (l : list (string * value)) :
  stringify (Obj l) = String "{" (join member l +:+ "}").
Proof. reflexivity. Qed.

Lemma join_head_member (m : string * value) (l : list (string * value)) (t : string) :
  ∃ r, join member (m :: l) +:+ t = String dquote r.
Proof.
  destruct l as [|m' l'].
  - cbn [join]. rewrite member_app. by eexists.
  - rewrite join_cons_cons, app_assoc, member_app. by eexists.
Qed.

Lemma join_head_value (v : value) (l : list value) (t : string) :
  wf v = true →
  ∃ c r, join stringify (v :: l) +:+ t = String c r ∧ is_ws c = false
         ∧ ("]" =? c)%char = false.
Proof.
  intros Hwf. destruct (stringify_head v Hwf) as (c & r & Hv & Hc).
  destruct l as [|v' l'].
  - cbn [join]. rewrite Hv, app_cons. by eexists _, _.
  - rewrite join_cons_cons, app_assoc, Hv, app_cons. by eexists _, _.
Qed.

Lemma skip_frac_end (t : string) : ends_number t → skip_frac t = Some t.
Proof. destruct t as [|c t]; [done|]. cbn. by intros (_ & -> & _). Qed.

Lemma skip_exp_end (t : string) : ends_number t → skip_exp t = Some t.
Proof. destruct t as [|c t]; [done|]. cbn. by intros (_ & _ & -> & ->). Qed.

Lemma parse_number_print_Z (z : Z) (rest : string) :
  ends_number rest → parse_number (print_Z z +:+ rest) = Some (Num z, rest).
Proof.
  intros Hrest. unfold parse_number, print_Z.
  destruct (Z.ltb_spec z 0) as [Hz|Hz].
  - rewrite app_cons. cbn [Ascii.eqb Bool.eqb].
    rewrite parse_int_print_N, skip_frac_end, skip_exp_end, Nat.eqb_refl by done.
    by replace (- Z.of_N (Z.abs_N z)) with z by lia.
  - destruct (print_N_head (Z.abs_N z)) as (c & r & Hp & Hc).
    pose proof (parse_int_print_N (Z.abs_N z) rest Hrest) as Hint.
    rewrite Hp in *. rewrite app_cons in *.
    destruct (is_digit_not_special c Hc) as (_ & _ & _ & _ & _ & _ & _ & ->).
    rewrite Hint, skip_frac_end, skip_exp_end, Nat.eqb_refl by done.
    by replace (Z.of_N (Z.abs_N z)) with z by lia.
Qed.

Lemma parse_value_minus (f : nat) (r : string) :
  parse_value (S f) (String "-" r) = parse_number (String "-" r).
Proof. reflexivity. Qed.

Lemma parse_value_digit (f : nat) (c : ascii) (r : string) :
  is_digit c = true →
  parse_value (S f) (String c r) = parse_number (String c r).
Proof.
  intros Hc.
  destruct (is_digit_not_special c Hc) as (Hw & Hn & Ht & Hf & Hq & Hb & Ho & Hm).
  cbn [parse_value skip_ws]. by rewrite Hw, Hn, Ht, Hf, Hq, Hb, Ho.
Qed.

Lemma parse_value_quote (f : nat) (r : string) :
  parse_value (S f) (String dquote r) = tag_result Str (parse_chars r).
Proof. reflexivity. Qed.

Lemma parse_value_bracket (f : nat) (r : string) :
  parse_value (S f) (String "[" r) =
    match expect "]" (skip_ws r) with
    | Some r' => Some (Arr [], r')
    | None => tag_result Arr (parse_elements f r)
    end.
Proof. reflexivity. Qed.

Lemma parse_value_brace (f : nat) (r : string) :
  parse_value (S f) (String "{" r) =
    match expect "}" (skip_ws r) with
    | Some r' => Some (Obj [], r')
    | None => tag_result Obj (parse_members f r)
    end.
Proof. reflexivity. Qed.

Theorem parse_value_stringify (v : value) : reads_back v.
Proof.
  induction v as [|b|n|s|s|l IH|l IH] using value_ind_nested;
    intros Hwf fuel rest Hfuel Hrest; try discriminate Hwf;
    (destruct fuel as [|f];
       [match type of Hfuel with
        | (String.length (stringify ?v) ≤ _)%nat =>
            pose proof (stringify_length v Hwf); lia
        end|]).
  - done.
  - by destruct b.
  - pose proof (parse_number_print_Z n rest Hrest) as Hnum.
    cbn [stringify]. unfold print_Z in *. destruct (n <? 0).
    + by rewrite app_cons, parse_value_minus, <-app_cons.
    + destruct (print_N_head (Z.abs_N n)) as (c & r & Hp & Hc).
      rewrite Hp in *. rewrite app_cons in *. by rewrite parse_value_digit.
  - cbn [stringify]. unfold quote.
    rewrite app_cons, app_assoc, app_cons, app_nil_l.
    by rewrite parse_value_quote, parse_chars_quote.
  - cbn [stringify] in *. rewrite app_cons, app_assoc, parse_value_bracket.
    cbn [String.length] in Hfuel.
    rewrite length_app in Hfuel. cbn [String.length] in Hfuel.
    destruct l as [|v l]; [done|].
    destruct (join_head_value v l ("]" +:+ rest)) as (c & r & Hj & Hc & Hb).
    { cbn in Hwf. by apply andb_true_iff in Hwf as [? _]. }
    rewrite Hj. cbn [skip_ws expect]. rewrite Hc, Hb. rewrite <-Hj.
    change ("]" +:+ rest) with (String "]" rest).
    rewrite parse_elements_join; [done|done|done|done|lia].
  - rewrite stringify_Obj in *. rewrite app_cons, app_assoc, parse_value_brace.
    cbn [String.length] in Hfuel.
    rewrite length_app in Hfuel. cbn [String.length] in Hfuel.
    destruct l as [|m l]; [done|].
    destruct (join_head_member m l ("}" +:+ rest)) as (r & Hj).
    rewrite Hj. cbn [skip_ws expect]. cbn. rewrite <-Hj.
    change ("}" +:+ rest) with (String "}" rest).
    cbn in Hwf. apply andb_true_iff in Hwf as [Hnd Hwf].
    apply bool_decide_eq_true in Hnd.
    rewrite parse_members_join; [done|done|done|done|done|lia].
Qed.

Lemma strings_of_Str (l : list string) : strings_of (Str <$> l) = Some l.
Proof. induction l as [|s l IH]; [done|]. cbn. by rewrite IH. Qed.

Lemma ends_number_nil : ends_number "".
Proof. done. Qed.

(** [JSON.parse(JSON.stringify(v))] gives [v] back. *)
Theorem parse_stringify (v : value) : wf v = true → parse (stringify v) = Some v.
Proof.
  intros Hwf. unfold parse.
  rewrite <-(app_nil_r (stringify v)) at 2.
  rewrite parse_value_stringify; [done|done|lia|done].
Qed.

(** *** The fuel of [parse] is enough *)

Section fuel.
Local Open Scope nat_scope.

Lemma skip_ws_length (s : string) : String.length (skip_ws s) ≤ String.length s.
Proof.
  induction s as [|c s IH]; [done|]. cbn. destruct (is_ws c); cbn; lia.
Qed.

Lemma parse_digits_length (a : N) (s : string) :
  String.length (parse_digits a s).2 ≤ String.length s.
Proof.
  revert a; induction s as [|c s IH]; intros a; [done|]. cbn.
  destruct (is_digit c); [|done]. specialize (IH (10 * a + digit_value c)%N). lia.
Qed.

Lemma parse_int_length (s r : string) (n : N) :
  parse_int s = Some (n, r) → String.length r < String.length s.
Proof.
  destruct s as [|c s]; [done|]. cbn.
  destruct (c =? "0")%char; [intros [= _ <-]; lia|].
  destruct (is_digit c); [|done].
  pose proof (parse_digits_length (digit_value c) s).
  destruct (parse_digits _ _) as [n' r']. intros [= _ <-]. cbn in *. lia.
Qed.

Lemma cons_char_Some (c : ascii) (o : option (string * string)) (str r : string) :
  cons_char c o = Some (str, r) → ∃ str', o = Some (str', r).
Proof. destruct o as [[str' r']|]; [|done]. intros [= _ <-]. by eexists. Qed.

Lemma parse_chars_length_bounded (n : nat) (s str r : string) :
  String.length s ≤ n →
  parse_chars s = Some (str, r) → String.length r < String.length s.
Proof.
  revert s str. induction n as [|n IH]; intros s str Hn.
  { destruct s; [done|cbn in Hn; lia]. }
  destruct s as [|c s1]; [done|]. cbn [parse_chars]. cbn [String.length] in Hn.
  destruct (c =? dquote)%char; [intros [= _ <-]; cbn; lia|].
  destruct (c =? backslash)%char.
  - destruct s1 as [|e s2]; [done|]. destruct (e =? "u")%char.
    + destruct s2 as [|h1 [|h2 [|h3 [|h4 s3]]]]; try done.
      destruct (hex4 _ _ _ _); [|done].
      intros [str' H]%cons_char_Some. apply IH in H; cbn in *; lia.
    + destruct (unescape e); [|done].
      intros [str' H]%cons_char_Some. apply IH in H; cbn in *; lia.
  - destruct (N_of_ascii c <? 32)%N; [done|].
    intros [str' H]%cons_char_Some. apply IH in H; cbn in *; lia.
Qed.

Lemma parse_chars_length (s str r : string) :
  parse_chars s = Some (str, r) → String.length r < String.length s.
Proof. by apply (parse_chars_length_bounded (String.length s)). Qed.

Lemma expect_length (p s r : string) :
  expect p s = Some r → String.length r ≤ String.length s.
Proof.
  revert s; induction p as [|c p IH]; intros s; [by intros [= ->]|].
  destruct s as [|d s]; [done|]. cbn. destruct (c =? d)%char; [|done].
  intros H%IH. lia.
Qed.

Lemma tag_result_Some {A B : Type} (f : A → B) (o : option (A * string))
    (b : B) (r : string) :
  tag_result f o = Some (b, r) → ∃ a, o = Some (a, r) ∧ b = f a.
Proof. destruct o as [[a r']|]; [|done]. intros [= <- <-]. by eexists. Qed.

(** What a successful call consumed bounds the fuel it needs. *)
Definition enough {A : Type} (parser : nat → string → option (A * string))
    (fuel : nat) : Prop :=
  ∀ s a r, parser fuel s = Some (a, r) →
    String.length r < String.length s
    ∧ ∀ fuel', String.length s - String.length r ≤ fuel' →
        parser fuel' s = Some (a, r).

Lemma parse_value_S (f : nat) (s : string) (c : ascii) (t : string) :
  skip_ws s = String c t →
  parse_value (S f) s =
    if (c =? "n")%char then literal "ull" Null t
    else if (c =? "t")%char then literal "rue" (Bool true) t
    else if (c =? "f")%char then literal "alse" (Bool false) t
    else if (c =? dquote)%char then tag_result Str (parse_chars t)
    else if (c =? "[")%char then
      match expect "]" (skip_ws t) with
      | Some r' => Some (Arr [], r')
      | None => tag_result Arr (parse_elements f t)
      end
    else if (c =? "{")%char then
      match expect "}" (skip_ws t) with
      | Some r' => Some (Obj [], r')
      | None => tag_result Obj (parse_members f t)
      end
    else parse_number (String c t).
Proof. intros Hs. cbn [parse_value]. by rewrite Hs. Qed.

Lemma span_digits_length (s : string) :
  String.length (span_digits s).2 ≤ String.length s.
Proof.
  induction s as [|c s IH]; [done|]. cbn. destruct (is_digit c); [|done].
  destruct (span_digits s) as [ds r]. cbn in *. lia.
Qed.

Lemma digits_then_length (s r : string) :
  digits_then s = Some r → String.length r ≤ String.length s.
Proof.
  unfold digits_then. pose proof (span_digits_length s) as Hl.
  destruct (span_digits s) as [[|d ds] r']; [done|]. by intros [= <-].
Qed.

Lemma skip_frac_length (s r : string) :
  skip_frac s = Some r → String.length r ≤ String.length s.
Proof.
  destruct s as [|c s]; [by intros [= <-]|]. cbn.
  destruct (c =? ".")%char; [|by intros [= <-]].
  intros H%digits_then_length. lia.
Qed.

Lemma skip_exp_length (s r : string) :
  skip_exp s = Some r → String.length r ≤ String.length s.
Proof.
  destruct s as [|c s]; [by intros [= <-]|]. cbn.
  destruct (_ || _); [|by intros [= <-]].
  destruct s as [|d t]; [done|].
  destruct (_ || _); intros H%digits_then_length; cbn in *; lia.
Qed.

Lemma parse_number_length (s r : string) (v : value) :
  parse_number s = Some (v, r) → String.length r < String.length s.
Proof.
  unfold parse_number.
  assert (∀ s1 : string, String.length s1 ≤ String.length s →
            match parse_int s1 with
            | Some (n, r0) =>
                match skip_frac r0 with
                | Some r1 =>
                    match skip_exp r1 with
                    | Some r2 => String.length r2 < String.length s
                    | None => True
                    end
                | None => True
                end
            | None => True
            end) as Hgen.
  { intros s1 Hs1. destruct (parse_int s1) as [[n r0]|] eqn:Hi; [|done].
    apply parse_int_length in Hi.
    destruct (skip_frac r0) as [r1|] eqn:Hf; [|done].
    apply skip_frac_length in Hf.
    destruct (skip_exp r1) as [r2|] eqn:He; [|done].
    apply skip_exp_length in He. lia. }
  destruct s as [|c t]; [done|].
  destruct (c =? "-")%char.
  - specialize (Hgen t). cbn [String.length] in Hgen.
    destruct (parse_int t) as [[n r0]|]; [|done].
    destruct (skip_frac r0) as [r1|]; [|done].
    destruct (skip_exp r1) as [r2|]; [|done].
    destruct (_ =? _); intros [= _ <-]; apply Hgen; lia.
  - specialize (Hgen (String c t)).
    destruct (parse_int (String c t)) as [[n r0]|]; [|done].
    destruct (skip_frac r0) as [r1|]; [|done].
    destruct (skip_exp r1) as [r2|]; [|done].
    destruct (_ =? _); intros [= _ <-]; apply Hgen; lia.
Qed.

Lemma literal_length (p : string) (v v' : value) (s r : string) :
  literal p v s = Some (v', r) → String.length r ≤ String.length s.
Proof.
  unfold literal. destruct (expect p s) as [r'|] eqn:He; [|done].
  intros [= _ <-]. by eapply expect_length.
Qed.

Lemma parse_value_enough (f : nat) :
  enough parse_elements f → enough parse_members f → enough parse_value (S f).
Proof.
  intros IHe IHm s v r H. cbn [parse_value] in H.
  pose proof (skip_ws_length s) as Hws.
  destruct (skip_ws s) as [|c t] eqn:Hs; [done|]. cbn [String.length] in Hws.
  assert (String.length r < String.length s ∧
          ∀ f', String.length s - String.length r ≤ S f' →
            parse_value (S f') s = Some (v, r)) as [Hlt Hf];
    [|split; [done|]; intros [|f'] Hf'; [lia|by apply Hf]].
  pose proof (λ f', parse_value_S f' _ _ _ Hs) as Hunf.
  destruct (c =? "n")%char.
  { split; [apply literal_length in H; lia|]. intros f' _. by rewrite Hunf. }
  destruct (c =? "t")%char.
  { split; [apply literal_length in H; lia|]. intros f' _. by rewrite Hunf. }
  destruct (c =? "f")%char.
  { split; [apply literal_length in H; lia|]. intros f' _. by rewrite Hunf. }
  destruct (c =? dquote)%char.
  { split; [|intros f' _; by rewrite Hunf].
    apply tag_result_Some in H as (a & H & _). apply parse_chars_length in H. lia. }
  destruct (c =? "[")%char.
  { pose proof (skip_ws_length t) as Hwt.
    destruct (expect "]" (skip_ws t)) as [r'|] eqn:He.
    - injection H as <- <-. apply expect_length in He.
      split; [lia|]. intros f' _. by rewrite Hunf.
    - apply tag_result_Some in H as (l & H & ->).
      destruct (IHe _ _ _ H) as [Hl Hfe].
      split; [lia|]. intros f' Hf'. rewrite Hunf, Hfe; [done|lia]. }
  destruct (c =? "{")%char.
  { pose proof (skip_ws_length t) as Hwt.
    destruct (expect "}" (skip_ws t)) as [r'|] eqn:He.
    - injection H as <- <-. apply expect_length in He.
      split; [lia|]. intros f' _. by rewrite Hunf.
    - apply tag_result_Some in H as (l & H & ->).
      destruct (IHm _ _ _ H) as [Hl Hfe].
      split; [lia|]. intros f' Hf'. rewrite Hunf, Hfe; [done|lia]. }
  split; [|intros f' _; by rewrite Hunf].
  apply parse_number_length in H. cbn [String.length] in H. lia.
Qed.

Lemma parse_elements_enough (f : nat) :
  enough parse_value f → enough parse_elements f → enough parse_elements (S f).
Proof.
  intros IHv IHe s l r. cbn [parse_elements].
  destruct (parse_value f s) as [[v r1]|] eqn:Hv; [|done].
  destruct (IHv _ _ _ Hv) as [Hl1 Hf1].
  pose proof (skip_ws_length r1) as Hws.
  destruct (skip_ws r1) as [|c r'] eqn:Hs; [done|]. cbn [String.length] in Hws.
  assert (∀ f', String.length s - String.length r1 ≤ f' →
            parse_elements (S f') s =
              if (c =? ",")%char then tag_result (cons v) (parse_elements f' r')
              else if (c =? "]")%char then Some ([v], r') else None) as Hunf.
  { intros f' Hf'. cbn [parse_elements]. by rewrite Hf1, Hs. }
  destruct (c =? ",")%char.
  - intros (vs & H & ->)%tag_result_Some.
    destruct (IHe _ _ _ H) as [Hl Hfe].
    split; [lia|]. intros [|f'] Hf'; [lia|].
    rewrite Hunf, Hfe; [done|lia|lia].
  - destruct (c =? "]")%char; [|done]. intros [= <- <-].
    split; [lia|]. intros [|f'] Hf'; [lia|]. rewrite Hunf; [done|lia].
Qed.

Lemma parse_members_enough (f : nat) :
  enough parse_value f → enough parse_members f → enough parse_members (S f).
Proof.
  intros IHv IHm s l r. cbn [parse_members].
  pose proof (skip_ws_length s) as Hws.
  destruct (skip_ws s) as [|q t] eqn:Hs; [done|]. cbn [String.length] in Hws.
  destruct (q =? dquote)%char eqn:Hq; [|done].
  destruct (parse_chars t) as [[k r1]|] eqn:Hk; [|done].
  pose proof (parse_chars_length _ _ _ Hk) as Hlk.
  pose proof (skip_ws_length r1) as Hws1.
  destruct (skip_ws r1) as [|c r2] eqn:Hs1; [done|]. cbn [String.length] in Hws1.
  destruct (c =? ":")%char eqn:Hc; [|done].
  destruct (parse_value f r2) as [[v r3]|] eqn:Hv; [|done].
  destruct (IHv _ _ _ Hv) as [Hl3 Hf3].
  pose proof (skip_ws_length r3) as Hws3.
  destruct (skip_ws r3) as [|d r4] eqn:Hs3; [done|]. cbn [String.length] in Hws3.
  assert (∀ f', String.length r2 - String.length r3 ≤ f' →
            parse_members (S f') s =
              if (d =? ",")%char then tag_result (obj_cons k v) (parse_members f' r4)
              else if (d =? "}")%char then Some ([(k, v)], r4) else None) as Hunf.
  { intros f' Hf'. cbn [parse_members]. by rewrite Hs, Hq, Hk, Hs1, Hc, Hf3, Hs3. }
  destruct (d =? ",")%char.
  - intros (ms & H & ->)%tag_result_Some.
    destruct (IHm _ _ _ H) as [Hl Hfm].
    split; [lia|]. intros [|f'] Hf'; [lia|].
    rewrite Hunf, Hfm; [done|lia|lia].
  - destruct (d =? "}")%char; [|done]. intros [= <- <-].
    split; [lia|]. intros [|f'] Hf'; [lia|]. rewrite Hunf; [done|lia].
Qed.

Lemma parse_enough (fuel : nat) :
  enough parse_value fuel ∧ enough parse_elements fuel ∧ enough parse_members fuel.
Proof.
  induction fuel as [|f (IHv & IHe & IHm)]; [by repeat split|].
  split; [by apply parse_value_enough|].
  split; [by apply parse_elements_enough|by apply parse_members_enough].
Qed.

(** More fuel than [parse] takes never turns a failure into a value. *)
Theorem parse_fuel_enough (fuel : nat) (text : string) (v : value) (rest : string) :
  parse_value fuel text = Some (v, rest) →
  parse_value (S (String.length text)) text = Some (v, rest).
Proof.
  intros H. destruct (parse_enough fuel) as [Hv _].
  destruct (Hv _ _ _ H) as [_ Hf]. apply Hf. lia.
Qed.

(** [parse] fails only where no amount of fuel finds a value followed by
    nothing but white space. *)
Theorem parse_complete (fuel : nat) (text : string) (v : value) (rest : string) :
  parse_value fuel text = Some (v, rest) → skip_ws rest = "" →
  parse text = Some v.
Proof.
  intros H Hr. unfold parse. by rewrite (parse_fuel_enough _ _ _ _ H), Hr.
Qed.

End fuel.

End JSON.

(** ** The data model, [src/types.ts] *)

Module Note.

Record t := mk {
  id : string;
  title : string;
  content : string;
  tags : list string;
  createdAt : Z;
  updatedAt : Z;
}.

Global Instance eq_dec : EqDecision t.
Proof. solve_decision. Defined.

End Note.

Inductive AIActionType :=
  | summarize | fix_grammar | generate_tags | elaborate | generate_title.

Global Instance AIActionType_eq_dec : EqDecision AIActionType.
Proof. solve_decision. Defined.

(** ** Effects: console, alerts, remote requests, exceptions

    A handler runs in [M S], a state-and-exception monad over a [World]:
    what was written to the console, the alerts shown, the requests sent to
    the remote model, and the state [S] of the mounted component. *)

Module Js.

Inductive Exn :=
  | Error (message : string)
  | SyntaxError (message : string)
  | TypeError (message : string)
  | Rejected (reason : string).

Inductive Result (A : Type) :=
  | Ok (a : A)
  | Throw (e : Exn).
Global Arguments Ok {A} a.
Global Arguments Throw {A} e.

(** One [console.error] call: its label and the error passed along. *)
Record LogEntry := mkLog { label : string; detail : option Exn }.

(** The argument of [ai.models.generateContent]. *)
Record Request := mkRequest {
  model : string;
  contents : string;
  responseJson : bool;
}.

Record World (S : Type) := mkWorld {
  console : list LogEntry;
  alerts : list string;
  requests : list Request;
  component : S;
}.
Global Arguments mkWorld {S} _ _ _ _.
Global Arguments console {S} _.
Global Arguments alerts {S} _.
Global Arguments requests {S} _.
Global Arguments component {S} _.

Definition M (S A : Type) : Type := World S → Result A * World S.

Definition ret {S A : Type} (a : A) : M S A := λ w, (Ok a, w).

Definition bind {S A B : Type} (m : M S A) (k : A → M S B) : M S B :=
  λ w, match m w with
       | (Ok a, w') => k a w'
       | (Throw e, w') => (Throw e, w')
       end.

Definition throw {S A : Type} (e : Exn) : M S A := λ w, (Throw e, w).

(** [try { m } catch (error) { handler error }]. *)
Definition try_catch {S A : Type} (m : M S A) (handler : Exn → M S A) : M S A :=
  λ w, match m w with
       | (Ok a, w') => (Ok a, w')
       | (Throw e, w') => handler e w'
       end.

(** [try { m } finally { cleanup }]: the cleanup always runs, and what it
    throws replaces the outcome of [m]. *)
Definition try_finally {S A : Type} (m : M S A) (cleanup : M S unit) : M S A :=
  λ w, let '(r, w') := m w in
       match cleanup w' with
       | (Ok _, w'') => (r, w'')
       | (Throw e, w'') => (Throw e, w'')
       end.

Definition console_error {S : Type} (l : string) (e : option Exn) : M S unit :=
  λ w, (Ok tt, mkWorld (console w ++ [mkLog l e]) (alerts w) (requests w)
                 (component w)).

Definition alert {S : Type} (message : string) : M S unit :=
  λ w, (Ok tt, mkWorld (console w) (alerts w ++ [message]) (requests w)
                 (component w)).

Definition get {S : Type} : M S S := λ w, (Ok (component w), w).

Definition modify {S : Type} (f : S → S) : M S unit :=
  λ w, (Ok tt, mkWorld (console w) (alerts w) (requests w) (f (component w))).

(** [await m]: while the promise is pending the user and the browser go
    on; [interference] is what they do to the component meanwhile. *)
Definition await {S A : Type} (interference : S → S) (m : M S A) : M S A :=
  λ w, let '(r, w') := m w in
       (r, mkWorld (console w') (alerts w') (requests w')
             (interference (component w'))).

End Js.

Declare Scope js_scope.
Delimit Scope js_scope with js.
Notation "'let*' x := m 'in' k" := (Js.bind m (λ x, k))
  (at level 10, x name, m at level 200, k at level 200) : js_scope.

(** ** The text service client, [src/services/gemini.ts] *)

Module Gemini.
Import JsString Js.

Section client.
Context {S : Type}.

(** [process.env.API_KEY], as the build defines it. *)
Variable API_KEY : option string.

(** The remote model: what a request sent with a given key comes back
    with, the [text] of a response ([None] when it has none) or a
    rejection. *)
Variable generateContent : string → Request → Result (option string).

Local Open Scope js_scope.

Definition MODEL_NAME : string := "gemini-2.5-flash".

Definition missing_key : Exn :=
  Error "API Key is missing. Please ensure process.env.API_KEY is available.".

(** The client is its key. [!apiKey] holds for [undefined] and for the
    empty string. *)
Definition getAIClient : M S string :=
  match API_KEY with
  | Some apiKey =>
      if truthy apiKey then ret apiKey
      else (let* _ := console_error "API Key not found in environment variables" None in
            throw missing_key)
  | None =>
      let* _ := console_error "API Key not found in environment variables" None in
      throw missing_key
  end.

(** [await ai.models.generateContent(request)]: the request goes out. *)
Definition models_generateContent (ai : string) (request : Request) :
  M S (option string) :=
  λ w, (generateContent ai request,
        mkWorld (console w) (alerts w) (requests w ++ [request]) (component w)).

Definition title_prompt (content : string) : string :=
  "Generate a short, concise, and descriptive title (max 6 words) for the following note content. Do not include quotes or labels. Content: "
  +:+ substring content 0 1000.

Definition generateNoteTitle (content : string) : M S string :=
  if negb (truthy (trim content)) then ret "Untitled Note"
  else
    try_catch
      (let* ai := getAIClient in
       let* response := models_generateContent ai (mkRequest MODEL_NAME (title_prompt content) false) in
       ret (match response with
            | Some text =>
                if truthy (trim text) then trim text else "Untitled Note"
            | None => "Untitled Note"
            end))
      (λ error,
         let* _ := console_error "Error generating title:" (Some error) in
         ret "Untitled Note").

Definition tags_prompt (content : string) : string :=
  "Analyze the following note content and generate up to 5 relevant tags. Return the result as a JSON array of strings. Content: "
  +:+ substring content 0 2000.

(** [JSON.parse(text)]: the value, whatever it is, or the exception. *)
Definition JSON_parse (text : string) : M S JSON.value :=
  match JSON.parse text with
  | Some v => ret v
  | None => throw (SyntaxError "JSON.parse")
  end.

(** The declared result type is [string[]]; what comes back is what
    [JSON.parse] made of the text, an array of strings or not. *)
Definition generateNoteTags (content : string) : M S JSON.value :=
  if negb (truthy (trim content)) then ret (JSON.Arr [])
  else
    try_catch
      (let* ai := getAIClient in
       let* response := models_generateContent ai (mkRequest MODEL_NAME (tags_prompt content) true) in
       match response with
       | Some text => if truthy text then JSON_parse text else ret (JSON.Arr [])
       | None => ret (JSON.Arr [])
       end)
      (λ error,
         let* _ := console_error "Error generating tags:" (Some error) in
         ret (JSON.Arr [])).

Definition action_prompt (action : AIActionType) (textToProcess : string) :
  option string :=
  match action with
  | summarize =>
      Some ("Summarize the following text concisely in a few bullet points:"
            +:+ nl +:+ nl +:+ textToProcess)
  | fix_grammar =>
      Some ("Correct the grammar and spelling of the following text. Preserve the original meaning and tone. Return only the corrected text:"
            +:+ nl +:+ nl +:+ textToProcess)
  | elaborate =>
      Some ("Expand upon the following text, adding more detail and depth. Maintain a professional but creative tone:"
            +:+ nl +:+ nl +:+ textToProcess)
  | _ => None
  end.

Definition action_label (action : AIActionType) : string :=
  match action with
  | summarize => "summarize"
  | fix_grammar => "fix_grammar"
  | generate_tags => "generate_tags"
  | elaborate => "elaborate"
  | generate_title => "generate_title"
  end.

(** The text a transform works on: [selectedText || content]. *)
Definition textToProcess (content selectedText : string) : string :=
  if truthy selectedText then selectedText else content.

Definition processAIAction (action : AIActionType) (content selectedText : string) :
  M S string :=
  let* ai := getAIClient in
  let text := textToProcess content selectedText in
  if negb (truthy (trim text)) then throw (Error "No text to process")
  else
    match action_prompt action text with
    | None => throw (Error "Unknown action")
    | Some prompt =>
        try_catch
          (let* response := models_generateContent ai (mkRequest MODEL_NAME prompt false) in
           ret (match response with
                | Some text => text
                | None => ""
                end))
          (λ error,
             let* _ := console_error ("Error processing " +:+ action_label action +:+ ":")
               (Some error) in
             throw error)
    end.

(** *** What the client does with and without a credential *)

(** The credential is missing: [!apiKey] holds. *)
Definition no_key (k : option string) : bool :=
  match k with
  | Some apiKey => negb (truthy apiKey)
  | None => true
  end.

Definition log_no_key (w : World S) : World S :=
  mkWorld (console w ++ [mkLog "API Key not found in environment variables" None])
    (alerts w) (requests w) (component w).

Lemma getAIClient_missing (w : World S) :
  no_key API_KEY = true →
  getAIClient w = (Throw missing_key, log_no_key w).
Proof.
  unfold getAIClient, no_key. destruct API_KEY as [k|]; [|done].
  by destruct (truthy k).
Qed.

Lemma getAIClient_present (w : World S) :
  no_key API_KEY = false →
  ∃ apiKey, API_KEY = Some apiKey ∧ getAIClient w = (Ok apiKey, w).
Proof.
  unfold getAIClient, no_key. destruct API_KEY as [k|]; [|done].
  destruct (truthy k); [|done]. intros _. by exists k.
Qed.

(** No function of the client touches the component or the alerts. *)
Lemma processAIAction_frame (action : AIActionType) (content sel : string)
    (w w' : World S) (r : Result string) :
  processAIAction action content sel w = (r, w') →
  component w' = component w ∧ alerts w' = alerts w.
Proof.
  unfold processAIAction, bind. 
  destruct (no_key API_KEY) eqn:Hk.
  - rewrite getAIClient_missing by done. by intros [= <- <-].
  - destruct (getAIClient_present w Hk) as (k & _ & ->).
    destruct (negb _); [by intros [= <- <-]|].
    destruct (action_prompt _ _); [|by intros [= <- <-]].
    unfold try_catch, bind, models_generateContent, console_error, throw, ret.
    destruct (generateContent _ _); by intros [= <- <-].
Qed.

Lemma processAIAction_blank (action : AIActionType) (content sel : string)
    (w : World S) :
  truthy (trim (textToProcess content sel)) = false →
  processAIAction action content sel w =
    if no_key API_KEY then (Throw missing_key, log_no_key w)
    else (Throw (Error "No text to process"), w).
Proof.
  intros Hb. unfold processAIAction, bind. destruct (no_key API_KEY) eqn:Hk.
  - by rewrite getAIClient_missing.
  - destruct (getAIClient_present w Hk) as (k & _ & ->).
    by rewrite Hb.
Qed.

(** A rejected request reaches the caller, after it was logged. *)
Lemma processAIAction_rejected (action : AIActionType) (content sel apiKey : string)
    (prompt : string) (e : Exn) (w : World S) :
  API_KEY = Some apiKey → truthy apiKey = true →
  truthy (trim (textToProcess content sel)) = true →
  action_prompt action (textToProcess content sel) = Some prompt →
  generateContent apiKey (mkRequest MODEL_NAME prompt false) = Throw e →
  processAIAction action content sel w =
    (Throw e,
     mkWorld
       (console w
        ++ [mkLog ("Error processing " +:+ action_label action +:+ ":") (Some e)])
       (alerts w) (requests w ++ [mkRequest MODEL_NAME prompt false])
       (component w)).
Proof.
  intros Hk Ht Hb Hp He. unfold processAIAction, getAIClient, bind.
  rewrite Hk, Ht. cbn [ret]. rewrite Hb, Hp. cbn [negb].
  unfold try_catch, bind, models_generateContent. by rewrite He.
Qed.

Lemma generateNoteTitle_frame (content : string) (w w' : World S) (r : Result string) :
  generateNoteTitle content w = (r, w') →
  component w' = component w ∧ alerts w' = alerts w.
Proof.
  unfold generateNoteTitle. destruct (negb _); [by intros [= <- <-]|].
  unfold try_catch, bind. destruct (no_key API_KEY) eqn:Hk.
  - rewrite getAIClient_missing by done. by intros [= <- <-].
  - destruct (getAIClient_present w Hk) as (k & _ & ->).
    unfold models_generateContent, console_error, ret.
    destruct (generateContent _ _); by intros [= <- <-].
Qed.

Lemma generateNoteTags_frame (content : string) (w w' : World S)
    (r : Result JSON.value) :
  generateNoteTags content w = (r, w') →
  component w' = component w ∧ alerts w' = alerts w.
Proof.
  unfold generateNoteTags. destruct (negb _); [by intros [= <- <-]|].
  unfold try_catch, bind. destruct (no_key API_KEY) eqn:Hk.
  - rewrite getAIClient_missing by done. by intros [= <- <-].
  - destruct (getAIClient_present w Hk) as (k & _ & ->).
    unfold models_generateContent, console_error, ret, JSON_parse, throw.
    destruct (generateContent _ _) as [[text|]|e]; try by intros [= <- <-].
    destruct (truthy text); [|by intros [= <- <-]].
    destruct (JSON.parse text); by intros [= <- <-].
Qed.

End client.
End Gemini.

(** ** The note store, [src/App.tsx] *)

Module App.
Import JsString Js JSON.

(** The state held by the [App] component: the collection and the
    selection ([null] is [None]). *)
Record State := mkState {
  notes : list Note.t;
  activeNoteId : option string;
}.

(** [notes.filter(n => n.id !== id)] followed by the conditional
    [setActiveNoteId]. *)
Definition deleteNote (st : State) (i : string) : State :=
  let newNotes := filter (λ n, Note.id n ≠ i) (notes st) in
  {| notes := newNotes;
     activeNoteId :=
       if decide (activeNoteId st = Some i)
       then match newNotes with
            | n :: _ => Some (Note.id n)
            | [] => None
            end
       else activeNoteId st |}.

(** [notes.map(n => n.id === updatedNote.id ? updatedNote : n)]. *)
Definition updateNote (st : State) (updatedNote : Note.t) : State :=
  {| notes := (λ n, if decide (Note.id n = Note.id updatedNote) then updatedNote else n)
                <$> notes st;
     activeNoteId := activeNoteId st |}.

(** [createNote], given the identifier drawn by [uuidv4()] and the two
    readings of the clock. *)
Definition createNote (st : State) (uuid : string) (now now' : Z) : State :=
  let newNote := Note.mk uuid "" "" [] now now' in
  {| notes := newNote :: notes st; activeNoteId := Some (Note.id newNote) |}.

(** [notes.find(n => n.id === activeNoteId)]. *)
Definition activeNote (st : State) : option Note.t :=
  match activeNoteId st with
  | Some i => list_find (λ n, Note.id n = i) (notes st) ≫= λ p, Some p.2
  | None => None
  end.

(** *** Notes as JavaScript values *)

(** A note object, its properties in the order the code creates them. *)
Definition json_of_note (n : Note.t) : value :=
  Obj [("id", Str (Note.id n)); ("title", Str (Note.title n));
       ("content", Str (Note.content n)); ("tags", Arr (Str <$> Note.tags n));
       ("createdAt", Num (Note.createdAt n)); ("updatedAt", Num (Note.updatedAt n))].

Definition json_of_notes (notes : list Note.t) : value :=
  Arr (json_of_note <$> notes).

(** Reading a value at the type [Note]. *)
Definition note_of_json (v : value) : option Note.t :=
  match v with
  | Obj [("id", Str i); ("title", Str t); ("content", Str c); ("tags", Arr ts);
         ("createdAt", Num ca); ("updatedAt", Num ua)] =>
      (λ tags, Note.mk i t c tags ca ua) <$> strings_of ts
  | _ => None
  end.

Definition notes_of_json (v : value) : option (list Note.t) :=
  match v with
  | Arr l => mapM note_of_json l
  | _ => None
  end.

(** *** [localStorage] *)

Definition STORAGE_KEY : string := "nebula-notes".

Definition getItem (key : string) (storage : gmap string string) : option string :=
  storage !! key.

Definition setItem (key value : string) (storage : gmap string string) :
  gmap string string :=
  <[key := value]> storage.

Definition welcome_content : string :=
  "This is a smart note-taking app powered by Gemini. " +:+ nl +:+ nl
  +:+ "Try selecting this text and using the " +:+ String dquote "AI Tools"
  +:+ String dquote " button to summarize or expand it." +:+ nl +:+ nl
  +:+ "You can also automatically generate tags based on your content.".

(** [INITIAL_NOTES]; [now] and [now'] are the two readings of the clock
    when the module is loaded. *)
Definition INITIAL_NOTES (now now' : Z) : list Note.t :=
  [Note.mk "1" "Welcome to Nebula Notes" welcome_content ["welcome"; "tutorial"]
     now now'].

(** The initializer of the [notes] state: the value it yields, or the
    exception it lets through. *)
Definition load (storage : gmap string string) (now now' : Z) : Result value :=
  match getItem STORAGE_KEY storage with
  | Some saved =>
      if truthy saved then
        match parse saved with
        | Some v => Ok v
        | None => Throw (SyntaxError "JSON.parse")
        end
      else Ok (json_of_notes (INITIAL_NOTES now now'))
  | None => Ok (json_of_notes (INITIAL_NOTES now now'))
  end.

(** The effect on [notes]. *)
Definition persist (notes : list Note.t) (storage : gmap string string) :
  gmap string string :=
  setItem STORAGE_KEY (stringify (json_of_notes notes)) storage.

Lemma note_of_json_of_note (n : Note.t) : note_of_json (json_of_note n) = Some n.
Proof. destruct n. cbn. by rewrite strings_of_Str. Qed.

Lemma notes_of_json_of_notes (notes : list Note.t) :
  notes_of_json (json_of_notes notes) = Some notes.
Proof.
  cbn. induction notes as [|n notes IH]; [done|].
  rewrite fmap_cons. cbn [mapM]. rewrite note_of_json_of_note, IH. done.
Qed.

Lemma wf_json_of_notes (notes : list Note.t) : wf (json_of_notes notes) = true.
Proof.
  cbn. induction notes as [|n notes IH]; [done|].
  cbn [fmap list_fmap forallb]. rewrite IH, andb_true_r.
  cbn. rewrite !andb_true_r. apply andb_true_iff. split; [done|].
  by induction (Note.tags n).
Qed.

Lemma stringify_truthy (v : value) : wf v = true → truthy (stringify v) = true.
Proof. intros Hwf. by destruct (stringify_head v Hwf) as (c & r & -> & _). Qed.

Lemma load_persist (notes : list Note.t) (storage : gmap string string)
    (now now' : Z) :
  load (persist notes storage) now now' = Ok (json_of_notes notes).
Proof.
  unfold load, persist, getItem, setItem. rewrite lookup_insert_eq.
  by rewrite stringify_truthy, parse_stringify by apply wf_json_of_notes.
Qed.

End App.

(** ** The list view's filter, [src/components/Sidebar.tsx] *)

Module Sidebar.
Import JsString.

(** The predicate handed to [notes.filter], for an already lowered query. *)
Definition matches (lowerQuery : string) (note : Note.t) : bool :=
  includes (toLowerCase (Note.title note)) lowerQuery
  || includes (toLowerCase (Note.content note)) lowerQuery
  || existsb (λ tag, includes (toLowerCase tag) lowerQuery) (Note.tags note).

Definition filteredNotes (notes : list Note.t) (searchQuery : string) : list Note.t :=
  if negb (truthy searchQuery) then notes
  else
    let lowerQuery := toLowerCase searchQuery in
    filter (λ note, matches lowerQuery note) notes.







Lemma startsWith_spec (s p : string) :
  startsWith s p = true ↔ ∃ t, s = p +:+ t.
Proof.
  revert s; induction p as [|c p IH]; intros s; cbn.
  - split; [intros _; exists s; reflexivity|done].
  - destruct s as [|d s]; [split; [done|intros [t Ht]; discriminate]|].
    case_decide as Hcd.
    + subst d. rewrite IH. split; intros [t Ht]; exists t.
      * by rewrite app_cons, Ht.
      * rewrite app_cons in Ht. by simplify_eq.
    + split; [done|]. intros [t Ht]. rewrite app_cons in Ht. by simplify_eq.
Qed.

Lemma includes_spec (s q : string) :
  includes s q = true ↔ ∃ pre post, s = pre +:+ q +:+ post.
Proof.
  induction s as [|c s IH].
  - cbn. rewrite orb_false_r, startsWith_spec. split.
    + intros [t Ht]. by exists "", t.
    + intros (pre & post & H). destruct pre; [by exists post|discriminate].
  - cbn [includes]. rewrite orb_true_iff, startsWith_spec, IH. split.
    + intros [[t Ht]|(pre & post & Ht)].
      * by exists "", t.
      * exists (String c pre), post. by rewrite app_cons, Ht.
    + intros (pre & post & Ht). destruct pre as [|d pre].
      * left. by exists post.
      * right. rewrite app_cons in Ht. simplify_eq. by exists pre, post.
Qed.

Lemma toLowerCase_app (s t : string) :
  toLowerCase (s +:+ t) = toLowerCase s +:+ toLowerCase t.
Proof.
  induction s as [|c s IH]; [done|].
  rewrite app_cons. cbn. by rewrite IH, app_cons.
Qed.


(** Every code unit of the model. *)
Definition all_ascii : list ascii := ascii_of_nat <$> seq 0 256.

Lemma elem_of_all_ascii (c : ascii) : c ∈ all_ascii.
Proof.
  unfold all_ascii. apply list_elem_of_fmap. exists (nat_of_ascii c).
  split; [by rewrite ascii_nat_embedding|].
  apply elem_of_seq. pose proof (nat_ascii_bounded c). lia.
Qed.








End Sidebar.

(** ** Texts beyond U+00FF, [src/components/Sidebar.tsx]

    The filter once more, on strings as JavaScript has them: sequences of
    UTF-16 code units. *)

Module Utf16.

Definition ustring := list N.

(** A string of the model above, unit by unit. *)
Definition of_string (s : string) : ustring :=
  N_of_ascii <$> list_ascii_of_string s.

Definition truthy (s : ustring) : bool :=
  match s with [] => false | _ => true end.

Fixpoint startsWith (s p : ustring) {struct p} : bool :=
  match p, s with
  | [], _ => true
  | c :: p', d :: s' => (c =? d)%N && startsWith s' p'
  | _ :: _, [] => false
  end.

(** [s.includes(q)]: [q] occurs at some position of [s]. *)
Fixpoint includes (s q : ustring) : bool :=
  startsWith s q ||
  match s with
  | _ :: s' => includes s' q
  | [] => false
  end.


(** A note, as [src/types.ts] has it. *)
Record WNote := mkWNote {
  id : ustring;
  title : ustring;
  content : ustring;
  tags : list ustring;
  createdAt : Z;
  updatedAt : Z;
}.

Definition of_note (n : Note.t) : WNote :=
  mkWNote (of_string (Note.id n)) (of_string (Note.title n))
    (of_string (Note.content n)) (of_string <$> Note.tags n)
    (Note.createdAt n) (Note.updatedAt n).

Section filter.

(** [String.prototype.toLowerCase], whatever it does. *)
Variable toLowerCase : ustring → ustring.

Definition matches (lowerQuery : ustring) (note : WNote) : bool :=
  includes (toLowerCase (title note)) lowerQuery
  || includes (toLowerCase (content note)) lowerQuery
  || existsb (λ tag, includes (toLowerCase tag) lowerQuery) (tags note).

Definition filteredNotes (notes : list WNote) (searchQuery : ustring) : list WNote :=
  if negb (truthy searchQuery) then notes
  else
    let lowerQuery := toLowerCase searchQuery in
    filter (λ note, matches lowerQuery note) notes.


End filter.

(** *** Lower case

    [String.prototype.toLowerCase] on the code units below U+0100 and on
    the Greek letters U+0391 to U+03A9 and U+03B1 to U+03C9.  A capital
    letter becomes its small letter, 32 places further on; the capital
    sigma U+03A3 becomes the final sigma U+03C2 when a cased letter stands
    before it and none after it, units that case ignores being skipped on
    both sides, and the sigma U+03C3 otherwise.  Other code units are left
    as they are, which is what the built-in does with those that have no
    lower case form, and not with the rest. *)

Definition between (lo hi c : N) : bool := (lo <=? c)%N && (c <=? hi)%N.

(** The units with the property Cased. *)
Definition cased (c : N) : bool :=
  between 65 90 c || between 97 122 c
  || (c =? 170)%N || (c =? 181)%N || (c =? 186)%N
  || between 192 214 c || between 216 246 c || between 248 255 c
  || between 913 929 c || between 931 937 c || between 945 969 c.

(** The units with the property Case_Ignorable. *)
Definition case_ignorable (c : N) : bool :=
  (c =? 39)%N || (c =? 46)%N || (c =? 58)%N || (c =? 94)%N || (c =? 96)%N
  || (c =? 168)%N || (c =? 173)%N || (c =? 175)%N || (c =? 180)%N
  || (c =? 183)%N || (c =? 184)%N.

Definition SIGMA : N := 931.
Definition final_sigma : N := 962.
Definition sigma : N := 963.

Definition lower_unit (c : N) : N :=
  if between 65 90 c || between 192 214 c || between 216 222 c
     || between 913 929 c || between 931 937 c
  then (c + 32)%N else c.

Fixpoint followed_by_cased (s : ustring) : bool :=
  match s with
  | [] => false
  | c :: s' => if case_ignorable c then followed_by_cased s' else cased c
  end.

(** [after_cased]: a cased letter stands before, with nothing but units
    that case ignores in between. *)
Fixpoint lower_from (after_cased : bool) (s : ustring) : ustring :=
  match s with
  | [] => []
  | c :: s' =>
      (if (c =? SIGMA)%N then
         if after_cased && negb (followed_by_cased s') then final_sigma
         else sigma
       else lower_unit c)
      :: lower_from (if case_ignorable c then after_cased else cased c) s'
  end.

Definition toLowerCase (s : ustring) : ustring := lower_from false s.

(** *** The test for a substring *)



(** *** The filter, whatever lower case is *)

Section filter_facts.
Variable lower : ustring → ustring.




Lemma filteredNotes_idemp (notes : list WNote) (q : ustring) :
  filteredNotes lower (filteredNotes lower notes q) q = filteredNotes lower notes q.
Proof.
  unfold filteredNotes. destruct (negb _); [done|].
  apply list_filter_filter_l. tauto.
Qed.

End filter_facts.

(** *** The strings of the model above among these *)

Lemma of_string_cons (c : ascii) (s : string) :
  of_string (String c s) = N_of_ascii c :: of_string s.
Proof. reflexivity. Qed.

Lemma of_string_app (s t : string) :
  of_string (s +:+ t) = of_string s ++ of_string t.
Proof.
  induction s as [|c s IH]; [done|].
  by rewrite JsString.app_cons, !of_string_cons, IH.
Qed.

Lemma N_of_ascii_inj (c d : ascii) : N_of_ascii c = N_of_ascii d → c = d.
Proof.
  intros H. by rewrite <-(ascii_N_embedding c), H, ascii_N_embedding.
Qed.

Lemma truthy_of_string (s : string) : truthy (of_string s) = JsString.truthy s.
Proof. by destruct s. Qed.

Lemma startsWith_of_string (s p : string) :
  startsWith (of_string s) (of_string p) = JsString.startsWith s p.
Proof.
  revert s. induction p as [|c p IH]; intros [|d s]; try done.
  rewrite !of_string_cons. cbn [startsWith JsString.startsWith].
  rewrite IH. destruct (decide (c = d)) as [->|Hne].
  - by rewrite N.eqb_refl.
  - destruct (N.eqb_spec (N_of_ascii c) (N_of_ascii d)) as [Heq|]; [|done].
    by apply N_of_ascii_inj in Heq.
Qed.

Lemma includes_of_string (s q : string) :
  includes (of_string s) (of_string q) = JsString.includes s q.
Proof.
  induction s as [|c s IH].
  - cbn [JsString.includes]. rewrite <-startsWith_of_string.
    cbn. by rewrite !orb_false_r.
  - cbn [JsString.includes]. by rewrite <-IH, <-startsWith_of_string.
Qed.

(** Below U+0100 lower case is the map of the model above, unit by unit. *)
Lemma lower_unit_of_ascii (c : ascii) :
  (N_of_ascii c =? SIGMA)%N = false
  ∧ lower_unit (N_of_ascii c) = N_of_ascii (JsString.lower_char c).
Proof.
  assert (forallb (λ c,
            negb (N_of_ascii c =? SIGMA)%N
            && (lower_unit (N_of_ascii c) =? N_of_ascii (JsString.lower_char c))%N)
            Sidebar.all_ascii = true) as Hall by (vm_compute; reflexivity).
  rewrite forallb_forall in Hall.
  specialize (Hall c (proj1 (list_elem_of_In _ _) (Sidebar.elem_of_all_ascii c))).
  apply andb_true_iff in Hall as [H1 H2].
  split; [by apply negb_true_iff|by apply N.eqb_eq].
Qed.

Lemma lower_from_of_string (b : bool) (s : string) :
  lower_from b (of_string s) = of_string (JsString.toLowerCase s).
Proof.
  revert b. induction s as [|c s IH]; intros b; [done|].
  cbn [JsString.toLowerCase]. rewrite !of_string_cons. cbn [lower_from].
  destruct (lower_unit_of_ascii c) as [-> ->]. by rewrite IH.
Qed.

Lemma toLowerCase_of_string (s : string) :
  toLowerCase (of_string s) = of_string (JsString.toLowerCase s).
Proof. apply lower_from_of_string. Qed.

Lemma matches_of_note (q : string) (n : Note.t) :
  matches toLowerCase (of_string q) (of_note n) = Sidebar.matches q n.
Proof.
  unfold matches, Sidebar.matches. cbn [title content tags of_note].
  rewrite !toLowerCase_of_string, !includes_of_string. f_equal.
  induction (Note.tags n) as [|tag l IH]; [done|].
  cbn. by rewrite IH, toLowerCase_of_string, includes_of_string.
Qed.

(** On the strings of the model above, the filter here is the filter
    there. *)
Lemma filteredNotes_of_note (notes : list Note.t) (q : string) :
  filteredNotes toLowerCase (of_note <$> notes) (of_string q)
  = of_note <$> Sidebar.filteredNotes notes q.
Proof.
  unfold filteredNotes, Sidebar.filteredNotes.
  rewrite truthy_of_string. destruct (negb _); [done|].
  rewrite toLowerCase_of_string.
  induction notes as [|n notes IH]; [done|].
  rewrite fmap_cons, !filter_cons, matches_of_note.
  destruct (Sidebar.matches _ n); cbn; by rewrite IH.
Qed.

(** *** Greek *)


(** ασα, and ΑΣ, ΑΣΑ. *)
Definition asa : ustring := [945; 963; 945]%N.
Definition AS : ustring := [913; 931]%N.
Definition ASA : ustring := [913; 931; 913]%N.

End Utf16.

(** ** The detail view, [src/components/Editor.tsx] *)

Module Editor.
Import JsString Js Gemini.

(** The props and the [useState] cells of the component.  [tagsRef] stands
    for the identity of the array held by the [tags] cell: the effects
    compare that cell by identity, and every [setTags] call of this
    component stores an array the cell did not hold before. *)
Record State := mkState {
  note : Note.t;
  title : string;
  content : string;
  tags : list string;
  tagsRef : nat;
  isProcessingAI : bool;
  showAITools : bool;
  lastSaved : Z;
}.

(** The selection of the text area behind [contentRef]. *)
Record Textarea := mkTextarea {
  selectionStart : nat;
  selectionEnd : nat;
}.

(** The mounted component: its state and its text area.  The handlers
    below are reachable only from elements rendered next to the text
    area, so [contentRef.current] is that text area whenever they run. *)
Record Component := mkComponent {
  state : State;
  textarea : Textarea;
}.

(** [useState(note.title)] and the other initial values. *)
Definition mount (n : Note.t) : State :=
  mkState n (Note.title n) (Note.content n) (Note.tags n) 0 false false
    (Note.updatedAt n).

Definition set_title (v : string) (st : State) : State :=
  mkState (note st) v (content st) (tags st) (tagsRef st) (isProcessingAI st)
    (showAITools st) (lastSaved st).

Definition set_content (v : string) (st : State) : State :=
  mkState (note st) (title st) v (tags st) (tagsRef st) (isProcessingAI st)
    (showAITools st) (lastSaved st).

Definition set_tags (v : list string) (st : State) : State :=
  mkState (note st) (title st) (content st) v (S (tagsRef st))
    (isProcessingAI st) (showAITools st) (lastSaved st).

Definition set_isProcessingAI (v : bool) (st : State) : State :=
  mkState (note st) (title st) (content st) (tags st) (tagsRef st) v
    (showAITools st) (lastSaved st).

Definition set_showAITools (v : bool) (st : State) : State :=
  mkState (note st) (title st) (content st) (tags st) (tagsRef st)
    (isProcessingAI st) v (lastSaved st).

Definition set_lastSaved (v : Z) (st : State) : State :=
  mkState (note st) (title st) (content st) (tags st) (tagsRef st)
    (isProcessingAI st) (showAITools st) v.

(** The parent renders the component again with another [note] prop. *)
Definition set_note (n : Note.t) (st : State) : State :=
  mkState n (title st) (content st) (tags st) (tagsRef st)
    (isProcessingAI st) (showAITools st) (lastSaved st).

(** The effect on [note.id]: the buffer is replaced by the fields of the
    newly selected note. *)
Definition sync (n : Note.t) (st : State) : State :=
  set_lastSaved (Note.updatedAt n)
    (set_tags (Note.tags n)
       (set_content (Note.content n) (set_title (Note.title n) (set_note n st)))).

(** Whether the dependencies [title, content, tags] of the debounce effect
    differ between two renders. *)
Definition deps_changed (st st' : State) : bool :=
  negb (bool_decide (title st = title st'))
  || negb (bool_decide (content st = content st'))
  || negb (bool_decide (tagsRef st = tagsRef st')).

Definition on_state (f : State → State) (c : Component) : Component :=
  mkComponent (f (state c)) (textarea c).

(** *** Tags *)

(** [Array.from(new Set(l))]: the first occurrence of each string, in
    order. *)
Fixpoint Array_from_Set (l : list string) : list string :=
  match l with
  | [] => []
  | x :: l' => x :: filter (λ y, y ≠ x) (Array_from_Set l')
  end.

(** [handleTagInput]: the key pressed and the value of the input field go
    in, the new tags and the new value of the field come out. *)
Definition handleTagInput (key value : string) (st : State) : State * string :=
  if decide (key = "Enter") then
    let val := trim value in
    if truthy val && negb (bool_decide (val ∈ tags st))
    then (set_tags (tags st ++ [val]) st, "")
    else (st, value)
  else (st, value).

Definition removeTag (tagToRemove : string) (st : State) : State :=
  set_tags (filter (λ tag, tag ≠ tagToRemove) (tags st)) st.

(** Facts about the tag operations. *)

Lemma Array_from_Set_elem (x : string) (l : list string) :
  x ∈ Array_from_Set l ↔ x ∈ l.
Proof.
  induction l as [|y l IH]; [done|]. cbn.
  rewrite !elem_of_cons, list_elem_of_filter, IH.
  destruct (decide (x = y)); intuition congruence.
Qed.

Lemma Array_from_Set_NoDup (l : list string) : NoDup (Array_from_Set l).
Proof.
  induction l as [|y l IH]; [constructor|]. cbn.
  apply NoDup_cons. split; [|by apply NoDup_filter].
  rewrite list_elem_of_filter. by intros [? _].
Qed.

Lemma filter_ne_fresh (x : string) (l : list string) :
  x ∉ l → filter (λ y, y ≠ x) l = l.
Proof.
  induction l as [|y l IH]; [done|].
  rewrite not_elem_of_cons. intros [Hxy Hx].
  rewrite filter_cons_True by done. by rewrite IH.
Qed.

Lemma Array_from_Set_id (l : list string) : NoDup l → Array_from_Set l = l.
Proof.
  induction 1 as [|x l Hx _ IH]; [done|].
  cbn. by rewrite IH, filter_ne_fresh.
Qed.

(** Merging keeps the tags in place and appends the generated ones that
    are new, once each. *)
Lemma Array_from_Set_merge (tags generated : list string) :
  NoDup tags →
  Array_from_Set (tags ++ generated)
  = tags ++ filter (λ y, y ∉ tags) (Array_from_Set generated).
Proof.
  induction 1 as [|x l Hx Hnd IH]; cbn.
  - symmetry. induction (Array_from_Set generated) as [|y g IHg]; [done|].
    rewrite filter_cons_True by apply not_elem_of_nil. by rewrite IHg.
  - f_equal. rewrite IH, filter_app, filter_ne_fresh by done. f_equal.
    rewrite list_filter_filter. apply list_filter_iff.
    intros y. rewrite not_elem_of_cons. tauto.
Qed.

Lemma handleTagInput_spec (key value : string) (st : State) :
  handleTagInput key value st =
    if decide (key = "Enter" ∧ trim value ≠ "" ∧ trim value ∉ tags st)
    then (set_tags (tags st ++ [trim value]) st, "")
    else (st, value).
Proof.
  unfold handleTagInput. destruct (decide (key = "Enter")) as [->|Hk].
  - destruct (trim value) as [|c v] eqn:Hv; cbn [truthy andb].
    + rewrite decide_False; [done|]. by intros (_ & ? & _).
    + case_bool_decide as Hin; cbn [negb].
      * rewrite decide_False; [done|]. by intros (_ & _ & ?).
      * by rewrite decide_True.
  - rewrite decide_False; [done|]. by intros (? & _).
Qed.

Lemma handleTagInput_NoDup (key value : string) (st : State) :
  NoDup (tags st) → NoDup (tags (handleTagInput key value st).1).
Proof.
  intros Hnd. rewrite handleTagInput_spec. case_decide as H; [|done].
  destruct H as (_ & _ & Hin). cbn. apply NoDup_app. split; [done|].
  split; [|apply NoDup_singleton].
  intros x Hx ->%list_elem_of_singleton. done.
Qed.

Lemma removeTag_NoDup (tag : string) (st : State) :
  NoDup (tags st) → NoDup (tags (removeTag tag st)).
Proof. intros Hnd. cbn. by apply NoDup_filter. Qed.

Lemma removeTag_absent (tag : string) (st : State) :
  tag ∉ tags st → tags (removeTag tag st) = tags st.
Proof. intros Hin. cbn. by apply filter_ne_fresh. Qed.

Lemma removeTag_elem (tag x : string) (st : State) :
  x ∈ tags (removeTag tag st) ↔ x ∈ tags st ∧ x ≠ tag.
Proof. cbn. rewrite list_elem_of_filter. tauto. Qed.

(** *** Saving *)

(** [JSON.stringify(tags)]. *)
Definition stringify_tags (l : list string) : string :=
  JSON.stringify (JSON.Arr (JSON.Str <$> l)).

(** The test guarding [handleSave] in the debounced effect. *)
Definition dirty (st : State) : bool :=
  negb (bool_decide (title st = Note.title (note st)))
  || negb (bool_decide (content st = Note.content (note st)))
  || negb (bool_decide (stringify_tags (tags st)
                        = stringify_tags (Note.tags (note st)))).

(** [handleSave]: the note handed to [onUpdate] and the new state; [now]
    is what [Date.now()] reads and [now'] what [new Date()] reads next. *)
Definition handleSave (now now' : Z) (st : State) : Note.t * State :=
  let updatedNote :=
    Note.mk (Note.id (note st)) (title st) (content st) (tags st)
      (Note.createdAt (note st)) now in
  (updatedNote, set_lastSaved now' st).

(** *** The AI handler *)

(** [[...s]] for a string: its characters, each a string of its own (the
    code units of this model are all below U+0100, so none is half of a
    pair). *)
Fixpoint chars (s : string) : list string :=
  match s with
  | String c s' => String c EmptyString :: chars s'
  | EmptyString => []
  end.

(** What [generatedTags.length > 0] and [[...generatedTags]] make of the
    value [generateNoteTags] came back with: the strings to merge, none
    when the test fails, or the exception.  Reading [length] of [null]
    throws; a number or a boolean has no [length], and [undefined > 0] is
    false; a string has a length and spreads into its characters; an array
    has a length and spreads into its elements; an object has the [length]
    it was given, if any.  [None]: an array with an element that is no
    string, which would leave that element among the tags, and an object
    with a [length] member, whose comparison with 0 needs a conversion to a
    number.  The buffer of this model holds strings, and has nothing to
    show for these two. *)
Definition spread (generatedTags : JSON.value) : option (Result (list string)) :=
  match generatedTags with
  | JSON.Null =>
      Some (Throw (TypeError "Cannot read properties of null (reading 'length')"))
  | JSON.Bool _ | JSON.Num _ | JSON.Float _ => Some (Ok [])
  | JSON.Str s => Some (Ok (chars s))
  | JSON.Arr l => Ok <$> JSON.strings_of l
  | JSON.Obj members =>
      if existsb (λ m, bool_decide (m.1 = "length")) members then None
      else Some (Ok [])
  end.

Section handlers.

Variable API_KEY : option string.
Variable generateContent : string → Request → Result (option string).

(** What happens to the component while a call to the text service is
    pending. *)
Variable interference : Component → Component.

Local Open Scope js_scope.

Definition setTitle (v : string) : M Component unit := modify (on_state (set_title v)).

Definition setContent (f : string → string) : M Component unit :=
  modify (on_state (λ st, set_content (f (content st)) st)).

Definition setTags (v : list string) : M Component unit := modify (on_state (set_tags v)).

Definition setIsProcessingAI (v : bool) : M Component unit :=
  modify (on_state (set_isProcessingAI v)).

Definition setShowAITools (v : bool) : M Component unit :=
  modify (on_state (set_showAITools v)).

Definition failure_alert : string := "Something went wrong with the AI request.".

Definition summary_heading : string :=
  nl +:+ nl +:+ "### Summary" +:+ nl.

(** [selectedText], as read from the text area before the call. *)
Definition selection_text (content : string) (textarea : Textarea) : string :=
  let start := selectionStart textarea in
  let end_ := selectionEnd textarea in
  if decide (start ≠ end_) then substring content start end_ else "".

(** The branch of [handleAIAction] for the text manipulation actions;
    [content] is the value the handler closed over. *)
Definition transform (action : AIActionType) (content : string) : M Component unit :=
  let* c := get in
  let selectedText := selection_text content (textarea c) in
  let* result :=
    await interference
      (Gemini.processAIAction API_KEY generateContent action content selectedText) in
  if truthy selectedText then
    let* c' := get in
    let newContent :=
      substring content 0 (selectionStart (textarea c')) +:+ result
      +:+ substring_from content (selectionEnd (textarea c')) in
    setContent (λ _, newContent)
  else if decide (action = summarize) then
    setContent (λ prev, prev +:+ summary_heading +:+ result)
  else setContent (λ _, result).

Definition handleAIAction (action : AIActionType) : M Component unit :=
  let* c := get in
  let content := content (state c) in
  let tags := tags (state c) in
  let* _ := setIsProcessingAI true in
  let* _ := setShowAITools false in
  try_finally
    (try_catch
       match action with
       | generate_tags =>
           let* generatedTags :=
             await interference (Gemini.generateNoteTags API_KEY generateContent content) in
           match spread generatedTags with
           | Some (Ok generated) =>
               if (0 <? List.length generated)%nat
               then setTags (Array_from_Set (tags ++ generated))
               else ret tt
           | Some (Throw error) => throw error
           | None => ret tt
           end
       | generate_title =>
           let* newTitle :=
             await interference (Gemini.generateNoteTitle API_KEY generateContent content) in
           setTitle newTitle
       | _ => transform action content
       end
       (λ error,
          let* _ := console_error "AI Action Failed" (Some error) in
          alert failure_alert))
    (setIsProcessingAI false).

(** *** The handler on the text manipulation actions *)

(** What the handler does before it calls the text service. *)
Definition begin (c : Component) : Component :=
  on_state (set_showAITools false) (on_state (set_isProcessingAI true) c).

Definition with_component {S : Type} (w : World S) (c : S) : World S :=
  mkWorld (console w) (alerts w) (requests w) c.

(** What the [catch] block adds to the world. *)
Definition report_failure {S : Type} (e : Exn) (w : World S) : World S :=
  mkWorld (console w ++ [mkLog "AI Action Failed" (Some e)])
    (alerts w ++ [failure_alert])
    (requests w) (component w).

Definition is_transform (action : AIActionType) : bool :=
  match action with
  | summarize | fix_grammar | elaborate => true
  | _ => false
  end.

(** The content a successful transform leaves, given the text area and the
    content [c'] found when the call settles. *)
Definition spliced (action : AIActionType) (content sel result : string)
    (c' : Component) : string :=
  if truthy sel then
    substring content 0 (selectionStart (textarea c')) +:+ result
    +:+ substring_from content (selectionEnd (textarea c'))
  else if decide (action = summarize) then
    Editor.content (state c') +:+ summary_heading +:+ result
  else result.

Lemma handleAIAction_transform (action : AIActionType) (w : World Component) :
  is_transform action = true →
  handleAIAction action w =
    let c := component w in
    let content := content (state c) in
    let sel := selection_text content (textarea c) in
    match processAIAction API_KEY generateContent action content sel
            (with_component w (begin c)) with
    | (Ok result, w2) =>
        let c' := interference (component w2) in
        (Ok tt,
         with_component w2
           (on_state (set_isProcessingAI false)
              (on_state (set_content (spliced action content sel result c')) c')))
    | (Throw e, w2) =>
        (Ok tt,
         report_failure e
           (with_component w2
              (on_state (set_isProcessingAI false) (interference (component w2)))))
    end.
Proof.
  intros Ha. destruct w as [co al rq c].
  unfold handleAIAction, bind, get, setIsProcessingAI, setShowAITools, modify,
    try_finally, try_catch. cbn [component console alerts requests].
  replace (match action with
           | generate_tags => _ | generate_title => _ | _ => transform action _
           end) with
    (transform action (content (state c)))
    by by destruct action.
  unfold transform, bind, get, await. cbn [component console alerts requests].
  unfold with_component, begin. cbn [component console alerts requests on_state textarea state].
  destruct (processAIAction _ _ _ _ _ _) as [[result|e] [co2 al2 rq2 c2]].
  - cbn [component console alerts requests]. unfold spliced.
    destruct (truthy _); [done|]. by destruct (decide _).
  - done.
Qed.

Lemma handleAIAction_failed (action : AIActionType) (w w2 : World Component)
    (e : Exn) :
  is_transform action = true →
  processAIAction API_KEY generateContent action
    (content (state (component w)))
    (selection_text (content (state (component w))) (textarea (component w)))
    (with_component w (begin (component w))) = (Throw e, w2) →
  handleAIAction action w =
    (Ok tt,
     mkWorld (console w2 ++ [mkLog "AI Action Failed" (Some e)])
       (alerts w ++ [failure_alert]) (requests w2)
       (on_state (set_isProcessingAI false) (interference (begin (component w))))).
Proof.
  intros Ha Hp. rewrite handleAIAction_transform by done. cbn zeta. rewrite Hp.
  apply processAIAction_frame in Hp as [Hc Hal]. cbn in Hc, Hal.
  unfold report_failure, with_component. cbn. by rewrite Hc, Hal.
Qed.

Lemma handleAIAction_succeeded (action : AIActionType) (w w2 : World Component)
    (result : string) :
  is_transform action = true →
  processAIAction API_KEY generateContent action
    (content (state (component w)))
    (selection_text (content (state (component w))) (textarea (component w)))
    (with_component w (begin (component w))) = (Ok result, w2) →
  handleAIAction action w =
    (Ok tt,
     mkWorld (console w2) (alerts w) (requests w2)
       (on_state (set_isProcessingAI false)
          (on_state
             (set_content
                (spliced action (content (state (component w)))
                   (selection_text (content (state (component w)))
                      (textarea (component w)))
                   result (interference (begin (component w)))))
             (interference (begin (component w)))))).
Proof.
  intros Ha Hp. rewrite handleAIAction_transform by done. cbn zeta. rewrite Hp.
  apply processAIAction_frame in Hp as [Hc Hal]. cbn in Hc, Hal.
  unfold with_component. by rewrite Hc, Hal.
Qed.

Section splice.
Local Open Scope nat_scope.

(** With a span selected and the selection left alone while the call is
    pending, the result takes the place of that span. *)
Lemma spliced_selection_kept (action : AIActionType) (content result : string)
    (c' : Component) (ta : Textarea) :
  textarea c' = ta →
  selectionStart ta < selectionEnd ta ≤ String.length content →
  spliced action content (selection_text content ta) result c'
  = substring content 0 (selectionStart ta) +:+ result
    +:+ substring_from content (selectionEnd ta)
  ∧ content
    = substring content 0 (selectionStart ta)
      +:+ selection_text content ta
      +:+ substring_from content (selectionEnd ta).
Proof.
  intros Hta [Hlt Hle]. unfold spliced, selection_text. rewrite Hta.
  rewrite decide_True by lia. rewrite substring_truthy by done.
  split; [done|]. apply substring_split. lia.
Qed.

(** With nothing selected, summarize appends a headed section to the
    content found when the call settles, and the other actions replace the
    content. *)
Lemma spliced_no_selection (action : AIActionType) (content result : string)
    (c' : Component) (ta : Textarea) :
  selectionStart ta = selectionEnd ta →
  spliced action content (selection_text content ta) result c'
  = if decide (action = summarize)
    then Editor.content (state c') +:+ summary_heading +:+ result
    else result.
Proof.
  intros Heq. unfold spliced, selection_text. by rewrite decide_False by lia.
Qed.

End splice.

(** Whatever the action and the outcome of the call, the tags the handler
    leaves are those found when the call settles, or the merge of the tags
    it closed over with the generated ones. *)
Lemma handleAIAction_tags (action : AIActionType) (w w' : World Component)
    (r : Result unit) :
  handleAIAction action w = (r, w') →
  tags (state (component w')) = tags (state (interference (begin (component w))))
  ∨ ∃ generated,
      tags (state (component w'))
      = Array_from_Set (tags (state (component w)) ++ generated).
Proof.
  destruct (is_transform action) eqn:Ha.
  - rewrite handleAIAction_transform by done. cbn zeta.
    destruct (processAIAction _ _ _ _ _ _) as [[result|e] w2] eqn:Hp;
      apply processAIAction_frame in Hp as [Hc _]; cbn in Hc;
      intros [= _ <-]; left; cbn; by rewrite Hc.
  - destruct w as [co al rq c].
    unfold handleAIAction, bind, get, setIsProcessingAI, setShowAITools, modify,
      try_finally, try_catch. cbn [component console alerts requests].
    fold (begin c).
    destruct action; try discriminate Ha; unfold bind, await.
    + destruct (generateNoteTags _ _ _ _) as [[v|e] w2] eqn:Hg;
        apply generateNoteTags_frame in Hg as [Hc _]; cbn in Hc.
      * destruct (spread v) as [[g|e]|];
          [destruct (0 <? List.length g)%nat|..]; intros [= _ <-]; cbn;
          [right; by exists g|left; by rewrite Hc..].
      * intros [= _ <-]. left. cbn. by rewrite Hc.
    + destruct (generateNoteTitle _ _ _ _) as [[t|e] w2] eqn:Hg;
        apply generateNoteTitle_frame in Hg as [Hc _]; cbn in Hc;
        intros [= _ <-]; left; cbn; by rewrite Hc.
Qed.

(** The handler never touches the [note] prop. *)
Lemma handleAIAction_note (action : AIActionType) (w w' : World Component)
    (r : Result unit) :
  handleAIAction action w = (r, w') →
  note (state (component w')) = note (state (interference (begin (component w)))).
Proof.
  destruct (is_transform action) eqn:Ha.
  - rewrite handleAIAction_transform by done. cbn zeta.
    destruct (processAIAction _ _ _ _ _ _) as [[result|e] w2] eqn:Hp;
      apply processAIAction_frame in Hp as [Hc _]; cbn in Hc;
      intros [= _ <-]; cbn; by rewrite Hc.
  - destruct w as [co al rq c].
    unfold handleAIAction, bind, get, setIsProcessingAI, setShowAITools, modify,
      try_finally, try_catch. cbn [component console alerts requests].
    fold (begin c).
    destruct action; try discriminate Ha; unfold bind, await.
    + destruct (generateNoteTags _ _ _ _) as [[v|e] w2] eqn:Hg;
        apply generateNoteTags_frame in Hg as [Hc _]; cbn in Hc.
      * destruct (spread v) as [[g|e]|];
          [destruct (0 <? List.length g)%nat|..]; intros [= _ <-]; cbn;
          by rewrite Hc.
      * intros [= _ <-]. cbn. by rewrite Hc.
    + destruct (generateNoteTitle _ _ _ _) as [[t|e] w2] eqn:Hg;
        apply generateNoteTitle_frame in Hg as [Hc _]; cbn in Hc;
        intros [= _ <-]; cbn; by rewrite Hc.
Qed.

End handlers.

End Editor.


(** ** The debounced save, [src/components/Editor.tsx] *)

Module Debounce.
Import JsString Editor.

(** One call of a state setter of the buffer. *)
Inductive Update :=
  | SetTitle (v : string)
  | SetContent (v : string)
  | SetTags (v : list string).

Definition apply_update (u : Update) (st : State) : State :=
  match u with
  | SetTitle v => set_title v st
  | SetContent v => set_content v st
  | SetTags v => set_tags v st
  end.

(** What the editing session is made of: the component state, the time at
    which the pending timeout is due, and the notes handed to [onUpdate]
    so far. *)
Record Session := mkSession {
  st : State;
  timer : option Z;
  commits : list Note.t;
}.

Inductive Event :=
  | Edit (t : Z) (u : Update)
  | Fire (t : Z).

Definition DELAY : Z := 1000.

(** [Edit t u]: the setter runs at time [t]; when a dependency changed the
    effect runs again, clearing the timeout and setting a new one.
    [Fire t]: the browser tries to run the callback at time [t], which it
    does only once the timeout is due; the callback saves when the buffer
    differs from the note, and the parent hands the saved note back as the
    [note] prop. *)
Definition step (s : Session) (ev : Event) : Session :=
  match ev with
  | Edit t u =>
      let st' := apply_update u (st s) in
      if deps_changed (st s) st'
      then mkSession st' (Some (t + DELAY)) (commits s)
      else mkSession st' (timer s) (commits s)
  | Fire t =>
      match timer s with
      | Some due =>
          if due <=? t then
            if dirty (st s) then
              let '(updatedNote, st') := handleSave t t (st s) in
              mkSession (set_note updatedNote st') None (commits s ++ [updatedNote])
            else mkSession (st s) None (commits s)
          else s
      | None => s
      end
  end.

Definition run (s : Session) (evs : list Event) : Session := foldl step s evs.

(** A burst after an edit at time [last]: every further edit comes less
    than [DELAY] after the edit before it and changes a dependency, and
    the browser tries the callback only at times less than [DELAY] after
    the latest edit. *)
Fixpoint burst (st : State) (last : Z) (evs : list Event) : bool :=
  match evs with
  | [] => true
  | Edit t u :: evs' =>
      (last <=? t) && (t <? last + DELAY)
      && deps_changed st (apply_update u st)
      && burst (apply_update u st) t evs'
  | Fire t :: evs' => (t <? last + DELAY) && burst st last evs'
  end.

Fixpoint last_edit (last : Z) (evs : list Event) : Z :=
  match evs with
  | [] => last
  | Edit t _ :: evs' => last_edit t evs'
  | Fire _ :: evs' => last_edit last evs'
  end.

Fixpoint edited (st : State) (evs : list Event) : State :=
  match evs with
  | [] => st
  | Edit _ u :: evs' => edited (apply_update u st) evs'
  | Fire _ :: evs' => edited st evs'
  end.

Definition is_fire (ev : Event) : bool :=
  match ev with Fire _ => true | Edit _ _ => false end.

(** The note a save at time [t] hands to [onUpdate]. *)
Definition saved (t : Z) (st : State) : Note.t :=
  Note.mk (Note.id (note st)) (title st) (content st) (tags st)
    (Note.createdAt (note st)) t.

Lemma run_burst (st0 : State) (last : Z) (cs : list Note.t) (evs : list Event) :
  burst st0 last evs = true →
  run (mkSession st0 (Some (last + DELAY)) cs) evs
  = mkSession (edited st0 evs) (Some (last_edit last evs + DELAY)) cs.
Proof.
  revert st0 last. induction evs as [|[t u|t] evs IH]; intros st0 last Hb; [done|..].
  - cbn in Hb. apply andb_true_iff in Hb as [Hb Hrest].
    apply andb_true_iff in Hb as [_ Hdeps].
    cbn [run foldl step st timer commits]. rewrite Hdeps.
    by apply IH.
  - cbn in Hb. apply andb_true_iff in Hb as [Ht Hb].
    apply Z.ltb_lt in Ht.
    cbn [run foldl step st timer commits].
    destruct (Z.leb_spec (last + DELAY) t); [lia|]. by apply IH.
Qed.

Lemma run_fires_idle (st0 : State) (cs : list Note.t) (evs : list Event) :
  forallb is_fire evs = true →
  run (mkSession st0 None cs) evs = mkSession st0 None cs.
Proof.
  induction evs as [|[t u|t] evs IH]; [done|done|]. cbn. apply IH.
Qed.


Lemma fmap_Str_inj (l1 l2 : list string) :
  JSON.Str <$> l1 = JSON.Str <$> l2 → l1 = l2.
Proof.
  revert l2. induction l1 as [|x l1 IH]; intros [|y l2] H; try done.
  injection H as -> H. f_equal. by apply IH.
Qed.

Lemma stringify_tags_inj (l1 l2 : list string) :
  stringify_tags l1 = stringify_tags l2 → l1 = l2.
Proof.
  intros Heq.
  assert (∀ l : list string, JSON.wf (JSON.Arr (JSON.Str <$> l)) = true) as Hwf.
  { intros l. cbn. by induction l. }
  pose proof (JSON.parse_stringify _ (Hwf l1)) as H1.
  pose proof (JSON.parse_stringify _ (Hwf l2)) as H2.
  unfold stringify_tags in Heq. rewrite Heq, H2 in H1.
  injection H1 as H1. symmetry. by apply fmap_Str_inj.
Qed.

(** The buffer is in step with the note it was taken from. *)
Definition clean (st : State) : Prop :=
  title st = Note.title (note st) ∧ content st = Note.content (note st)
  ∧ tags st = Note.tags (note st).

Global Instance clean_dec (st : State) : Decision (clean st).
Proof. unfold clean. apply _. Defined.

Lemma dirty_spec (st : State) : dirty st = false ↔ clean st.
Proof.
  unfold dirty, clean.
  rewrite !orb_false_iff, !negb_false_iff, !bool_decide_eq_true.
  split.
  - intros [[? ?] Ht]. by apply stringify_tags_inj in Ht.
  - intros (? & ? & Ht). by rewrite Ht.
Qed.

End Debounce.


(** ** The application as a transition system *)

Module System.
Import JsString Js Gemini Editor.

(** What the pending save closed over: the [note] prop and, through
    [onUpdate], the collection of the render in which the debounce effect
    last ran. *)
Record Closure := mkClosure {
  seen_note : Note.t;
  seen_notes : list Note.t;
}.

(** The collection and the selection held by [App], and the mounted
    editor with the closure of its pending save; there is no editor while
    no note is selected. *)
Record t := mk {
  app : App.State;
  editor : option (Editor.State * Closure);
}.

(** [App] renders: the editor is unmounted, mounted, handed another
    version of the same note, or handed another note, in which case the
    effect on [note.id] replaces the buffer. *)
Definition render (app' : App.State) (ed : option (Editor.State * Closure)) :
  option (Editor.State * Closure) :=
  match App.activeNote app' with
  | None => None
  | Some n =>
      match ed with
      | None => Some (mount n, mkClosure n (App.notes app'))
      | Some (st, cl) =>
          if decide (Note.id (note st) = Note.id n)
          then Some (set_note n st, cl)
          else Some (sync n st, mkClosure n (App.notes app'))
      end
  end.

(** A handler of the editor changes its state; the debounce effect runs
    again when a dependency changed. *)
Definition edit (f : Editor.State → Editor.State) (s : t) : t :=
  match editor s with
  | Some (st, cl) =>
      let st' := f st in
      mk (app s)
        (Some (st', if deps_changed st st'
                    then mkClosure (note st') (App.notes (app s))
                    else cl))
  | None => s
  end.

Inductive Event :=
  | CreateNote (uuid : string) (now now' : Z)
  | DeleteNote (i : string)
  | SelectNote (i : string)
  | TypeTitle (v : string)
  | TypeContent (v : string)
  | TagKey (key value : string)
  | RemoveTag (tag : string)
  | AISettles (action : AIActionType) (API_KEY : option string)
      (generateContent : string → Request → Result (option string))
      (captured : Component) (selection : Textarea)
  | Save (now now' : Z)
  | Reload (now now' : Z).

(** A session starts: the collection is loaded and its first note
    selected.  [None] when the initializer throws or the stored value is
    no collection of notes. *)
Definition boot (storage : gmap string string) (now now' : Z) : option t :=
  match App.load storage now now' with
  | Ok v =>
      match App.notes_of_json v with
      | Some notes =>
          let app := App.mkState notes (Note.id <$> head notes) in
          Some (mk app (render app None))
      | None => None
      end
  | Throw _ => None
  end.

(** One event.  [AISettles]: a call of [handleAIAction] settles; the
    handler closed over [captured] when it was started, whatever that
    was, and finds the current state and the given selection.  [Save]:
    the callback of the debounce effect runs; the system does not keep
    track of whether a timeout is pending and lets it run whenever an
    editor is mounted, which covers every save the timer can cause.
    [Reload]: the page is loaded again from what was persisted. *)
Definition step (s : t) (ev : Event) : t :=
  match ev with
  | CreateNote uuid now now' =>
      let app' := App.createNote (app s) uuid now now' in
      mk app' (render app' (editor s))
  | DeleteNote i =>
      let app' := App.deleteNote (app s) i in
      mk app' (render app' (editor s))
  | SelectNote i =>
      let app' := App.mkState (App.notes (app s)) (Some i) in
      mk app' (render app' (editor s))
  | TypeTitle v => edit (set_title v) s
  | TypeContent v => edit (set_content v) s
  | TagKey key value => edit (λ st, (handleTagInput key value st).1) s
  | RemoveTag tag => edit (removeTag tag) s
  | AISettles action API_KEY generateContent captured selection =>
      edit (λ st,
              state (component
                (handleAIAction API_KEY generateContent
                   (λ _, mkComponent st selection) action
                   (mkWorld [] [] [] captured)).2)) s
  | Save now now' =>
      match editor s with
      | Some (st, cl) =>
          if dirty (set_note (seen_note cl) st) then
            let '(updatedNote, st') :=
              handleSave now now' (set_note (seen_note cl) st) in
            let app' :=
              App.updateNote
                (App.mkState (seen_notes cl) (App.activeNoteId (app s)))
                updatedNote in
            mk app' (render app' (Some (set_note (note st) st', cl)))
          else s
      | None => s
      end
  | Reload now now' =>
      match boot (App.persist (App.notes (app s)) ∅) now now' with
      | Some s' => s'
      | None => s
      end
  end.

Inductive reachable : t → Prop :=
  | reachable_boot (now now' : Z) (s : t) :
      boot ∅ now now' = Some s → reachable s
  | reachable_step (s : t) (ev : Event) :
      reachable s → reachable (step s ev).

(** *** No tag twice, anywhere *)

Definition tags_ok (n : Note.t) : Prop := NoDup (Note.tags n).

Definition editor_ok (ed : Editor.State * Closure) : Prop :=
  NoDup (tags ed.1) ∧ tags_ok (note ed.1)
  ∧ tags_ok (seen_note ed.2) ∧ Forall tags_ok (seen_notes ed.2).

Definition invariant (s : t) : Prop :=
  Forall tags_ok (App.notes (app s))
  ∧ ∀ ed, editor s = Some ed → editor_ok ed.

Lemma activeNote_elem (a : App.State) (n : Note.t) :
  App.activeNote a = Some n → n ∈ App.notes a.
Proof.
  unfold App.activeNote. destruct (App.activeNoteId a) as [i|]; [|done].
  destruct (list_find _ _) as [[k n']|] eqn:Hf; [|done].
  intros [= <-]. apply list_find_Some in Hf as (Hk & _).
  by eapply list_elem_of_lookup_2.
Qed.

Lemma render_ok (a : App.State) (ed : option (Editor.State * Closure)) :
  Forall tags_ok (App.notes a) →
  (∀ e, ed = Some e → editor_ok e) →
  ∀ e, render a ed = Some e → editor_ok e.
Proof.
  intros Ha Hed e. unfold render.
  destruct (App.activeNote a) as [n|] eqn:Hn; [|done].
  assert (tags_ok n) as Hok.
  { apply activeNote_elem in Hn. by eapply Forall_forall in Ha. }
  destruct ed as [[st cl]|].
  - destruct (Hed _ eq_refl) as (H1 & H2 & H3 & H4). cbn in *.
    case_decide; intros [= <-]; unfold editor_ok; cbn; auto.
  - intros [= <-]. unfold editor_ok. cbn. auto.
Qed.

Lemma edit_ok (f : Editor.State → Editor.State) (s : t) :
  (∀ st, NoDup (tags st) → NoDup (tags (f st))) →
  (∀ st, note (f st) = note st) →
  invariant s → invariant (edit f s).
Proof.
  intros Hf Hn [Ha Hed]. unfold edit.
  destruct (editor s) as [[st cl]|] eqn:He; [|by split; [|rewrite He]].
  destruct (Hed _ eq_refl) as (H1 & H2 & H3 & H4). cbn in *.
  split; [done|]. intros e [= <-]. unfold editor_ok. cbn. rewrite Hn.
  destruct (deps_changed _ _); cbn; auto.
Qed.

Lemma boot_ok (storage : gmap string string) (now now' : Z) (notes : list Note.t)
    (s : t) :
  App.load storage now now' = Ok (App.json_of_notes notes) →
  Forall tags_ok notes →
  boot storage now now' = Some s → invariant s.
Proof.
  intros Hl Hok. unfold boot. rewrite Hl, App.notes_of_json_of_notes.
  intros [= <-]. split; [done|]. cbn. by apply render_ok.
Qed.

Lemma updateNote_ok (a : App.State) (n : Note.t) :
  Forall tags_ok (App.notes a) → tags_ok n →
  Forall tags_ok (App.notes (App.updateNote a n)).
Proof.
  intros Ha Hn. cbn. apply Forall_forall.
  intros m (m' & -> & Hm)%list_elem_of_fmap.
  case_decide; [done|]. by eapply Forall_forall in Ha.
Qed.

Theorem reachable_invariant (s : t) : reachable s → invariant s.
Proof.
  induction 1 as [now now' s Hb|s ev _ IH].
  - apply (boot_ok ∅ now now' (App.INITIAL_NOTES now now')); [done| |done].
    constructor; [|constructor]. unfold tags_ok. cbn. compute_done.
  - destruct IH as [Ha Hed]. destruct ev; cbn [step].
    + assert (Forall tags_ok (App.notes (App.createNote (app s) uuid now now'))).
      { cbn. constructor; [constructor|done]. }
      split; [done|]. by apply render_ok.
    + assert (Forall tags_ok (App.notes (App.deleteNote (app s) i))).
      { cbn. apply Forall_forall. intros n [_ Hn]%list_elem_of_filter.
        by eapply Forall_forall in Ha. }
      split; [done|]. by apply render_ok.
    + split; [done|]. by apply render_ok.
    + by apply edit_ok.
    + by apply edit_ok.
    + apply edit_ok; [apply handleTagInput_NoDup| |done].
      intros st. rewrite handleTagInput_spec. by case_decide.
    + apply edit_ok; [apply removeTag_NoDup|done|done].
    + apply edit_ok; [| |done].
      * intros st Hst.
        destruct (handleAIAction _ _ _ _ _) as [r w'] eqn:Hh. cbn [snd].
        apply handleAIAction_tags in Hh as [->|[g ->]]; [done|].
        apply Array_from_Set_NoDup.
      * intros st.
        destruct (handleAIAction _ _ _ _ _) as [r w'] eqn:Hh. cbn [snd].
        by apply handleAIAction_note in Hh as ->.
    + destruct (editor s) as [[st cl]|] eqn:He; [|by split; [|rewrite He]].
      destruct (Hed _ eq_refl) as (H1 & H2 & H3 & H4). cbn in H1, H2, H3, H4.
      destruct (dirty _); [|by split; [|rewrite He]].
      cbn [handleSave].
      match goal with
      | |- invariant (mk ?a _) => assert (Forall tags_ok (App.notes a)) as Hn
      end.
      { by apply updateNote_ok. }
      split; [done|]. apply render_ok; [done|].
      intros e [= <-]. unfold editor_ok. cbn. auto.
    + destruct (boot _ _ _) as [s'|] eqn:Hb; [|done].
      eapply boot_ok; [apply App.load_persist|exact Ha|exact Hb].
Qed.

End System.

(** * Further facts about the code *)

(** ** The note store *)

Module StoreFacts.
Import JsString Js Gemini Editor Debounce.

(** The identifiers of a collection, in order. *)
Definition ids (notes : list Note.t) : list string := Note.id <$> notes.

Lemma activeNote_find (st : App.State) (i : string) (n : Note.t)
    (before after : list Note.t) :
  App.activeNoteId st = Some i → App.notes st = before ++ n :: after →
  Note.id n = i → i ∉ ids before →
  App.activeNote st = Some n.
Proof.
  intros Hi Hn Hid Hb. unfold App.activeNote. rewrite Hi, Hn.
  assert (list_find (λ m, Note.id m = i) (before ++ n :: after)
          = Some (List.length before, n)) as ->; [|done].
  apply list_find_Some. split; [|split; [done|]].
  - by rewrite lookup_app_r, Nat.sub_diag by lia.
  - intros j m Hj Hlt Hm. apply Hb. apply list_elem_of_fmap. exists m.
    split; [done|]. rewrite lookup_app_l in Hj by done.
    by eapply list_elem_of_lookup_2.
Qed.

Lemma activeNote_head (n : Note.t) (notes : list Note.t) :
  App.activeNote (App.mkState (n :: notes) (Some (Note.id n))) = Some n.
Proof.
  by apply (activeNote_find _ (Note.id n) n [] notes); [..|apply not_elem_of_nil].
Qed.

Lemma ids_updateNote (st : App.State) (n : Note.t) :
  ids (App.notes (App.updateNote st n)) = ids (App.notes st).
Proof.
  cbn. unfold ids. rewrite <-list_fmap_compose. apply list_fmap_ext.
  intros _ m _. cbn. by case_decide.
Qed.

Lemma updateNote_absent (st : App.State) (n : Note.t) :
  Note.id n ∉ ids (App.notes st) → App.updateNote st n = st.
Proof.
  intros Hn. destruct st as [notes active]. unfold App.updateNote. cbn in *.
  f_equal. induction notes as [|m notes IH]; [done|].
  cbn in Hn. apply not_elem_of_cons in Hn as [Hm Hn].
  cbn. rewrite decide_False by done. f_equal. by apply IH.
Qed.

Lemma filter_id_fresh (i : string) (notes : list Note.t) :
  i ∉ ids notes → filter (λ n, Note.id n ≠ i) notes = notes.
Proof.
  induction notes as [|m notes IH]; [done|].
  unfold ids. rewrite fmap_cons. intros [Hm Hn]%not_elem_of_cons.
  rewrite filter_cons_True by done. by rewrite IH.
Qed.

Lemma deleteNote_not_selected (st : App.State) (i : string) :
  App.activeNoteId (App.deleteNote st i) ≠ Some i.
Proof.
  cbn. case_decide as Ha; [|done].
  destruct (filter _ _) as [|n l] eqn:Hf; [done|].
  assert (n ∈ filter (λ n, Note.id n ≠ i) (App.notes st)) as Hn
    by (rewrite Hf; apply list_elem_of_here).
  apply list_elem_of_filter in Hn as [Hn _]. congruence.
Qed.

Lemma filter_id_idemp (i : string) (notes : list Note.t) :
  filter (λ n, Note.id n ≠ i) (filter (λ n, Note.id n ≠ i) notes)
  = filter (λ n, Note.id n ≠ i) notes.
Proof.
  rewrite list_filter_filter. apply list_filter_iff. intros n. tauto.
Qed.

Lemma ids_filter_NoDup (i : string) (notes : list Note.t) :
  NoDup (ids notes) → NoDup (ids (filter (λ n, Note.id n ≠ i) notes)).
Proof.
  intros Hnd. eapply sublist_NoDup; [exact Hnd|].
  unfold ids. apply fmap_sublist, sublist_filter.
Qed.

End StoreFacts.

(** ** The application as a whole *)

Module SystemFacts.
Import Js Gemini Editor Debounce StoreFacts System.

(** The list offers the notes some query shows: a row selects one of
    those. *)
Definition listed (s : t) (ev : Event) : Prop :=
  match ev with
  | SelectNote i =>
      ∃ query, i ∈ ids (Sidebar.filteredNotes (App.notes (app s)) query)
  | _ => True
  end.

(** [uuidv4()] draws an identifier no note of the collection has. *)
Definition fresh (s : t) (ev : Event) : Prop :=
  match ev with
  | CreateNote uuid _ _ => uuid ∉ ids (App.notes (app s))
  | _ => True
  end.

(** The states of a session whose events are all [offered]. *)
Inductive reachable_by (offered : t → Event → Prop) : t → Prop :=
  | reachable_by_boot (now now' : Z) (s : t) :
      boot ∅ now now' = Some s → reachable_by offered s
  | reachable_by_step (s : t) (ev : Event) :
      reachable_by offered s → offered s ev → reachable_by offered (step s ev).

(** The editor is there exactly when the collection is not empty, and
    shows the selected note; the pending save closed over a version of
    that note and a collection holding one. *)
Definition shows_selection (s : t) : Prop :=
  match editor s with
  | None => App.activeNoteId (app s) = None ∧ App.notes (app s) = []
  | Some (st, cl) =>
      App.activeNoteId (app s) = Some (Note.id (note st))
      ∧ App.activeNote (app s) = Some (note st)
      ∧ Note.id (seen_note cl) = Note.id (note st)
      ∧ Note.id (note st) ∈ ids (seen_notes cl)
  end.

Lemma activeNote_id (a : App.State) (n : Note.t) :
  App.activeNote a = Some n → App.activeNoteId a = Some (Note.id n).
Proof.
  unfold App.activeNote. destruct (App.activeNoteId a) as [i|]; [|done].
  destruct (list_find _ _) as [[k n']|] eqn:Hf; [|done].
  intros [= <-]. apply list_find_Some in Hf as (_ & Hid & _). by rewrite Hid.
Qed.

Lemma activeNote_split (a : App.State) (n : Note.t) :
  App.activeNote a = Some n →
  ∃ before after,
    App.notes a = before ++ n :: after ∧ Note.id n ∉ ids before.
Proof.
  intros Ha. pose proof (activeNote_id _ _ Ha) as Hi.
  unfold App.activeNote in Ha. rewrite Hi in Ha.
  destruct (list_find _ _) as [[k n']|] eqn:Hf; [|done].
  injection Ha as ->. apply list_find_Some in Hf as (Hk & _ & Hb).
  exists (take k (App.notes a)), (drop (S k) (App.notes a)).
  split; [symmetry; by apply take_drop_middle|].
  intros (m & Hm & [j Hj]%list_elem_of_lookup)%list_elem_of_fmap.
  pose proof (lookup_lt_Some _ _ _ Hj) as Hlt.
  rewrite length_take in Hlt. rewrite lookup_take_lt in Hj by lia.
  apply (Hb j m); [done|lia|done].
Qed.

Lemma activeNote_in (a : App.State) (i : string) :
  App.activeNoteId a = Some i → i ∈ ids (App.notes a) →
  ∃ n, App.activeNote a = Some n.
Proof.
  intros Hi (m & Hid & Hm)%list_elem_of_fmap. unfold App.activeNote. rewrite Hi.
  destruct (list_find _ _) as [[k n]|] eqn:Hf; [by eexists|].
  apply list_find_None in Hf. rewrite Forall_forall in Hf.
  by destruct (Hf m Hm).
Qed.

Lemma activeNote_updateNote (a : App.State) (n : Note.t) :
  App.activeNoteId a = Some (Note.id n) → Note.id n ∈ ids (App.notes a) →
  App.activeNote (App.updateNote a n) = Some n.
Proof.
  intros Ha (m & Hid & Hm)%list_elem_of_fmap.
  unfold App.activeNote. cbn [App.updateNote App.activeNoteId App.notes].
  rewrite Ha.
  destruct (list_find _ _) as [[k m']|] eqn:Hf.
  - apply list_find_Some in Hf as (Hk & Hid' & _). cbn.
    apply list_lookup_fmap_Some in Hk as (m0 & -> & _).
    destruct (decide (Note.id m0 = Note.id n)) as [Hd|Hd]; [done|].
    by destruct Hd.
  - apply list_find_None in Hf. rewrite Forall_forall in Hf.
    destruct (Hf n); [|done]. apply list_elem_of_fmap. exists m.
    by rewrite decide_True.
Qed.

(** Deleting another note leaves the selected one where it is found. *)
Lemma activeNote_deleteNote_other (a : App.State) (n : Note.t) (i : string) :
  App.activeNote a = Some n → Note.id n ≠ i →
  App.activeNote (App.deleteNote a i) = Some n.
Proof.
  intros Ha Hi. pose proof (activeNote_id _ _ Ha) as Hid.
  destruct (activeNote_split _ _ Ha) as (before & after & Hn & Hb).
  apply (activeNote_find _ (Note.id n) n
           (filter (λ m, Note.id m ≠ i) before)
           (filter (λ m, Note.id m ≠ i) after)); [| |done|].
  - cbn. rewrite Hid. rewrite decide_False; [done|]. by intros [= ?].
  - cbn. rewrite Hn, filter_app. by rewrite filter_cons_True.
  - intros (m & Hm & [_ Hin]%list_elem_of_filter)%list_elem_of_fmap.
    apply Hb. apply list_elem_of_fmap. by exists m.
Qed.

Lemma filteredNotes_ids (notes : list Note.t) (query i : string) :
  i ∈ ids (Sidebar.filteredNotes notes query) → i ∈ ids notes.
Proof.
  unfold Sidebar.filteredNotes. destruct (negb _); [done|].
  intros (m & Hm & [_ Hin]%list_elem_of_filter)%list_elem_of_fmap.
  apply list_elem_of_fmap. by exists m.
Qed.

(** What [render] needs of the editor it is given. *)
Definition closure_ok (ed : option (Editor.State * Closure)) : Prop :=
  ∀ st cl, ed = Some (st, cl) →
    Note.id (seen_note cl) = Note.id (note st)
    ∧ Note.id (note st) ∈ ids (seen_notes cl).

Lemma render_shows (a : App.State) (ed : option (Editor.State * Closure)) :
  (App.activeNote a = None → App.activeNoteId a = None ∧ App.notes a = []) →
  closure_ok ed →
  shows_selection (mk a (render a ed)).
Proof.
  intros Hnone Hcl. unfold shows_selection, render. cbn [editor app].
  destruct (App.activeNote a) as [n|] eqn:Hn; [|by apply Hnone].
  pose proof (activeNote_id _ _ Hn) as Hid.
  assert (Note.id n ∈ ids (App.notes a)) as Hin.
  { apply list_elem_of_fmap. exists n. split; [done|].
    by apply System.activeNote_elem. }
  destruct ed as [[st cl]|]; [|done].
  destruct (Hcl st cl eq_refl) as [Hs Hsn].
  case_decide as Hd; cbn; [|done].
  rewrite Hs, <-Hd. by rewrite Hd at 1 2.
Qed.

Lemma shows_closure_ok (s : t) : shows_selection s → closure_ok (editor s).
Proof.
  unfold shows_selection, closure_ok. intros H st cl He. rewrite He in H.
  by destruct H as (_ & _ & ? & ?).
Qed.

Lemma edit_shows (f : Editor.State → Editor.State) (s : t) :
  (∀ st, note (f st) = note st) →
  shows_selection s → shows_selection (edit f s).
Proof.
  intros Hf. unfold shows_selection, edit.
  destruct (editor s) as [[st cl]|] eqn:He; [|by rewrite He].
  intros (Ha & Hn & Hs & Hin). cbn [editor app]. rewrite Hf.
  split; [done|]. split; [done|].
  destruct (deps_changed _ _); cbn; [|done].
  split; [done|].
  apply list_elem_of_fmap. exists (note st). split; [done|].
  by apply System.activeNote_elem.
Qed.

Lemma boot_shows (storage : gmap string string) (now now' : Z) (s : t) :
  boot storage now now' = Some s → shows_selection s.
Proof.
  unfold boot. destruct (App.load _ _ _) as [v|]; [|done].
  destruct (App.notes_of_json v) as [notes|]; [|done]. intros [= <-].
  apply render_shows; [|by intros ??].
  destruct notes as [|n notes]; [done|]. cbn [head fmap option_fmap option_map].
  by rewrite activeNote_head.
Qed.

Lemma reachable_shows_selection (s : t) :
  reachable_by listed s → shows_selection s.
Proof.
  induction 1 as [now now' s Hb|s ev _ IH Hev]; [by eapply boot_shows|].
  pose proof (shows_closure_ok s IH) as Hcl.
  destruct ev; cbn [step].
  - apply render_shows; [|done]. unfold App.createNote.
    by rewrite activeNote_head.
  - apply render_shows; [|done].
    unfold shows_selection in IH.
    destruct (editor s) as [[st cl]|].
    + destruct IH as (Ha & Hn & _).
      destruct (decide (Note.id (note st) = i)) as [<-|Hne].
      * unfold App.deleteNote. rewrite Ha, decide_True by done.
        destruct (filter _ _) as [|n l] eqn:Hf; [done|].
        by rewrite activeNote_head.
      * by rewrite (activeNote_deleteNote_other _ _ _ Hn Hne).
    + destruct IH as [Ha Hn]. intros _. cbn. rewrite Ha, Hn.
      by rewrite decide_False.
  - apply render_shows; [|done]. destruct Hev as [query Hq].
    apply filteredNotes_ids in Hq.
    destruct (activeNote_in (App.mkState (App.notes (app s)) (Some i)) i)
      as [n ->]; done.
  - by apply edit_shows.
  - by apply edit_shows.
  - apply edit_shows; [|done].
    intros st. rewrite handleTagInput_spec. by case_decide.
  - by apply edit_shows.
  - apply edit_shows; [|done]. intros st.
    destruct (handleAIAction _ _ _ _ _) as [r w'] eqn:Hh. cbn [snd].
    by apply handleAIAction_note in Hh as ->.
  - unfold shows_selection in IH.
    destruct (editor s) as [[st cl]|] eqn:He;
      [|by unfold shows_selection; rewrite He].
    destruct IH as (Ha & Hn & Hs & Hin).
    destruct (dirty _); [|by unfold shows_selection; rewrite He].
    cbn [handleSave]. apply render_shows.
    + rewrite activeNote_updateNote; [done|by cbn; rewrite Hs|by cbn; rewrite Hs].
    + intros st' cl' [= <- <-]. cbn. by rewrite Hs.
  - destruct (boot _ _ _) as [s'|] eqn:Hb; [by eapply boot_shows|done].
Qed.

(** Identifiers are distinct, in the collection and in the collection the
    pending save closed over. *)
Definition ids_distinct (s : t) : Prop :=
  NoDup (ids (App.notes (app s)))
  ∧ ∀ st cl, editor s = Some (st, cl) → NoDup (ids (seen_notes cl)).

Lemma render_distinct (a : App.State) (ed : option (Editor.State * Closure)) :
  NoDup (ids (App.notes a)) →
  (∀ st cl, ed = Some (st, cl) → NoDup (ids (seen_notes cl))) →
  ids_distinct (mk a (render a ed)).
Proof.
  intros Ha Hed. split; [done|]. cbn [editor]. unfold render.
  destruct (App.activeNote a) as [n|]; [|done].
  destruct ed as [[st cl]|]; [|by intros ?? [= <- <-]].
  specialize (Hed st cl eq_refl). by case_decide; intros ?? [= <- <-].
Qed.

Lemma edit_distinct (f : Editor.State → Editor.State) (s : t) :
  ids_distinct s → ids_distinct (edit f s).
Proof.
  intros [Ha Hed]. unfold edit.
  destruct (editor s) as [[st cl]|] eqn:He; [|by split; [|rewrite He]].
  split; [done|]. cbn [editor]. intros st' cl' [= <- <-].
  destruct (deps_changed _ _); [done|]. by eapply Hed.
Qed.

Lemma boot_distinct (storage : gmap string string) (now now' : Z)
    (notes : list Note.t) (s : t) :
  App.load storage now now' = Ok (App.json_of_notes notes) →
  NoDup (ids notes) → boot storage now now' = Some s → ids_distinct s.
Proof.
  intros Hl Hnd. unfold boot. rewrite Hl, App.notes_of_json_of_notes.
  intros [= <-]. by apply render_distinct.
Qed.

Lemma reachable_ids_distinct (s : t) :
  reachable_by fresh s → ids_distinct s.
Proof.
  induction 1 as [now now' s Hb|s ev _ [Ha Hed] Hev].
  - apply (boot_distinct ∅ now now' (App.INITIAL_NOTES now now')); [done| |done].
    cbn. apply NoDup_singleton.
  - destruct ev; cbn [step]; try by apply edit_distinct.
    + apply render_distinct; [|done]. cbn. by apply NoDup_cons.
    + apply render_distinct; [|done]. by apply ids_filter_NoDup.
    + by apply render_distinct.
    + destruct (editor s) as [[st cl]|] eqn:He; [|by split; [|rewrite He]].
      destruct (dirty _); [|by split; [|rewrite He]].
      cbn [handleSave]. apply render_distinct.
      * rewrite ids_updateNote. cbn. by eapply Hed.
      * intros st' cl' [= <- <-]. by eapply Hed.
    + destruct (boot _ _ _) as [s'|] eqn:Hb; [|by split].
      eapply boot_distinct; [apply App.load_persist|exact Ha|exact Hb].
Qed.


Lemma set_note_set_note (n m : Note.t) (st : Editor.State) :
  set_note n (set_note m st) = set_note n st.
Proof. done. Qed.

Lemma dirty_sync (n : Note.t) (st : Editor.State) : dirty (sync n st) = false.
Proof. unfold dirty. cbn. by rewrite !bool_decide_eq_true_2. Qed.

(** Deleting a note that is not the open one leaves the editor, and the
    closure of its pending save, as they are. *)
Lemma step_DeleteNote_other (s : t) (st : Editor.State) (cl : Closure)
    (i : string) :
  editor s = Some (st, cl) →
  App.activeNote (app s) = Some (note st) →
  Note.id (note st) ≠ i →
  step s (DeleteNote i) = mk (App.deleteNote (app s) i) (Some (st, cl)).
Proof.
  intros He Hn Hne. cbn [step]. unfold render.
  rewrite He, (activeNote_deleteNote_other _ _ _ Hn Hne), decide_True by done.
  by destruct st.
Qed.

(** The session after the first load at time 0, and the same after a
    second note was created and the title of the first typed over. *)
Definition s_boot : t :=
  let a := App.mkState (App.INITIAL_NOTES 0 0) (Some "1") in
  mk a (render a None).

Definition s_two : t := step s_boot (CreateNote "b" 1 1).

Definition s_typing : t :=
  step (step s_two (SelectNote "1")) (TypeTitle "Welcome").

Lemma boot_s_boot : boot ∅ 0 0 = Some s_boot.
Proof. reflexivity. Qed.

End SystemFacts.

(** ** The list of notes as rendered, [src/components/Sidebar.tsx] *)

Module SidebarView.
Import JsString Sidebar.

(** One row of the list: its key, whether it is drawn as the active one,
    the heading, the preview line, the tag chips and the counter after
    them.  The relative time of the last update is drawn by a library and
    is left out. *)
Record Row := mkRow {
  key : string;
  active : bool;
  heading : string;
  preview : string;
  chips : list string;
  more : option nat;
}.

Definition row (activeNoteId : option string) (note : Note.t) : Row :=
  mkRow (Note.id note)
    (bool_decide (activeNoteId = Some (Note.id note)))
    (if truthy (Note.title note) then Note.title note else "Untitled Note")
    (if truthy (Note.content note) then Note.content note
     else "No additional text")
    ((λ tag, "#" +:+ tag) <$> firstn 2 (Note.tags note))
    (if (2 <? List.length (Note.tags note))%nat
     then Some (List.length (Note.tags note) - 2)%nat else None).

(** What stands below the search field: a message, or the rows. *)
Inductive Listing :=
  | Message (text : string)
  | Rows (rows : list Row).

Definition listing (notes : list Note.t) (activeNoteId : option string)
    (searchQuery : string) : Listing :=
  let shown := filteredNotes notes searchQuery in
  if (List.length shown =? 0)%nat then
    Message (if truthy searchQuery then "No matching notes found"
             else "Create your first note")
  else Rows (row activeNoteId <$> shown).

(** A longer query asks for more. *)
Lemma includes_app (s q r : string) :
  includes s (q +:+ r) = true → includes s q = true.
Proof.
  rewrite !includes_spec. intros (pre & post & ->).
  exists pre, (r +:+ post). by rewrite app_assoc.
Qed.

Lemma matches_app (q r : string) (note : Note.t) :
  matches (toLowerCase (q +:+ r)) note = true →
  matches (toLowerCase q) note = true.
Proof.
  unfold matches. rewrite toLowerCase_app, !orb_true_iff, !existsb_exists.
  intros [[H|H]|(tag & Hin & H)]; apply includes_app in H; eauto.
Qed.

Lemma filter_sublist_impl {A : Type} (P Q : A → Prop)
    `{∀ x, Decision (P x)} `{∀ x, Decision (Q x)} (l : list A) :
  (∀ x, P x → Q x) → filter P l `sublist_of` filter Q l.
Proof.
  intros HPQ. induction l as [|x l IH]; [done|].
  destruct (decide (P x)) as [HP|HP].
  - rewrite (filter_cons_True P) by done.
    rewrite (filter_cons_True Q) by auto. by constructor.
  - rewrite (filter_cons_False P) by done.
    destruct (decide (Q x)).
    + rewrite (filter_cons_True Q) by done. by constructor.
    + by rewrite (filter_cons_False Q).
Qed.

Section rows.
Local Open Scope nat_scope.

Lemma row_keys (activeNoteId : option string) (notes : list Note.t) :
  key <$> (row activeNoteId <$> notes) = Note.id <$> notes.
Proof. by rewrite <-list_fmap_compose. Qed.

(** With distinct keys at most one row is drawn as the active one. *)
Lemma active_rows_NoDup (activeNoteId : option string) (notes : list Note.t) :
  NoDup (Note.id <$> notes) →
  List.length (filter (λ r, active r = true) (row activeNoteId <$> notes)) ≤ 1.
Proof.
  induction notes as [|n notes IH]; [cbn; lia|].
  rewrite !fmap_cons, NoDup_cons. intros [Hn Hnd].
  destruct (active (row activeNoteId n)) eqn:Ha.
  - rewrite filter_cons_True by done. cbn in Ha.
    apply bool_decide_eq_true in Ha as ->.
    replace (filter _ _) with (@nil Row); [cbn; lia|]. symmetry.
    clear IH Hnd. induction notes as [|m notes IH]; [done|].
    apply not_elem_of_cons in Hn as [Hne Hn]. rewrite fmap_cons.
    rewrite filter_cons_False; [by apply IH|].
    cbn. rewrite bool_decide_eq_true. by intros [= ?].
  - rewrite filter_cons_False by by rewrite Ha. by apply IH.
Qed.

End rows.

End SidebarView.

(** ** What the text service client returns *)

Module GeminiFacts.
Import JsString Js Gemini.

(** A string with no white space first. *)
Definition starts_black (s : string) : Prop :=
  match s with
  | String c _ => is_white c = false
  | EmptyString => True
  end.

Lemma trimStart_starts_black (s : string) : starts_black (trimStart s).
Proof.
  induction s as [|c s IH]; [done|]. cbn.
  by destruct (is_white c) eqn:Hc.
Qed.

Lemma trimStart_black (s : string) : starts_black s → trimStart s = s.
Proof. destruct s as [|c s]; [done|]. cbn. by intros ->. Qed.

Lemma trimEnd_starts_black (s : string) :
  starts_black s → starts_black (trimEnd s).
Proof.
  destruct s as [|c s]; [done|]. cbn. intros Hc.
  destruct (trimEnd s); [by rewrite Hc|done].
Qed.

Lemma trimEnd_idemp (s : string) : trimEnd (trimEnd s) = trimEnd s.
Proof.
  induction s as [|c s IH]; [done|]. cbn [trimEnd].
  destruct (trimEnd s) as [|d r] eqn:Hr.
  - destruct (is_white c) eqn:Hc; [done|]. cbn. by rewrite Hc.
  - change (trimEnd (String c (String d r)))
      with (match trimEnd (String d r) with
            | EmptyString =>
                if is_white c then EmptyString else String c EmptyString
            | String d' r' => String c (String d' r')
            end).
    by rewrite IH.
Qed.

(** Trimming what was trimmed changes nothing. *)
Lemma trim_idemp (s : string) : trim (trim s) = trim s.
Proof.
  unfold trim. rewrite (trimStart_black (trimEnd _)).
  - apply trimEnd_idemp.
  - apply trimEnd_starts_black, trimStart_starts_black.
Qed.

Lemma truthy_true (s : string) : truthy s = true ↔ s ≠ "".
Proof. by destruct s. Qed.

Lemma truthy_false (s : string) : truthy s = false ↔ s = "".
Proof. by destruct s. Qed.

Lemma substring_0 (s : string) (n : nat) : substring s 0 n = take n s.
Proof. unfold substring. cbn. by rewrite Nat.sub_0_r. Qed.

(** A text of [n] code units. *)
Fixpoint filler (n : nat) : string :=
  match n with
  | O => EmptyString
  | S n' => String "a" (filler n')
  end.

(** The world grew by at most one request. *)
Definition sent_at_most_one {S : Type} (w w' : World S) : Prop :=
  ∃ rs, requests w' = requests w ++ rs ∧ (List.length rs ≤ 1)%nat.

Lemma sent_none {S : Type} (w w' : World S) :
  requests w' = requests w → sent_at_most_one w w'.
Proof.
  intros H. exists []. split; [by rewrite List.app_nil_r|cbn; lia].
Qed.

Section sent.
Context {S : Type}.
Variable API_KEY : option string.
Variable generateContent : string → Request → Result (option string).

Lemma processAIAction_sent (action : AIActionType) (content sel : string)
    (w : World S) :
  sent_at_most_one w (processAIAction API_KEY generateContent action content sel w).2.
Proof.
  unfold processAIAction, bind. destruct (no_key API_KEY) eqn:Hk.
  - rewrite getAIClient_missing by done. by apply sent_none.
  - destruct (getAIClient_present (S := S) API_KEY w Hk) as (k & HK & ->).
    destruct (negb _); [by apply sent_none|].
    destruct (action_prompt _ _) as [prompt|]; [|by apply sent_none].
    unfold try_catch, bind, models_generateContent, console_error, throw, ret.
    destruct (generateContent _ _) as [[text|]|e]; cbn; by (eexists [_]; split; [|cbn; lia]).
Qed.

Lemma generateNoteTitle_ok (content : string) (w : World S) :
  ∃ t w',
    generateNoteTitle API_KEY generateContent content w = (Ok t, w')
    ∧ t ≠ "" ∧ sent_at_most_one w w'
    ∧ (no_key API_KEY = true ∨ trim content = "" → t = "Untitled Note").
Proof.
  unfold generateNoteTitle. destruct (trim content) as [|c s] eqn:Hc.
  - cbn. exists "Untitled Note", w. split; [done|]. split; [done|].
    split; [by apply sent_none|done].
  - cbn [truthy negb]. unfold try_catch, bind.
    destruct (no_key API_KEY) eqn:Hk.
    + rewrite getAIClient_missing by done. cbn.
      eexists _, _. split; [done|]. split; [done|].
      split; [by apply sent_none|done].
    + destruct (getAIClient_present (S := S) API_KEY w Hk) as (k & HK & ->).
      unfold models_generateContent, console_error, ret.
      destruct (generateContent _ _) as [[text|]|e]; cbn;
        [destruct (trim text) eqn:Ht; cbn [truthy]|..];
        (eexists _, _; split; [done|]; split; [done|];
         split; [by (eexists [_]; split; [|cbn; lia])|by intros [?|?]]).
Qed.

Lemma generateNoteTags_ok (content : string) (w : World S) :
  ∃ v w',
    generateNoteTags API_KEY generateContent content w = (Ok v, w')
    ∧ sent_at_most_one w w'.
Proof.
  unfold generateNoteTags. destruct (trim content) as [|c s] eqn:Hc.
  - cbn. exists (JSON.Arr []), w. split; [done|]. by apply sent_none.
  - cbn [truthy negb]. unfold try_catch, bind.
    destruct (no_key API_KEY) eqn:Hk.
    + rewrite getAIClient_missing by done. cbn.
      eexists _, _. split; [done|]. by apply sent_none.
    + destruct (getAIClient_present (S := S) API_KEY w Hk) as (k & HK & ->).
      unfold models_generateContent, console_error, ret, JSON_parse, throw.
      destruct (generateContent _ _) as [[text|]|e]; cbn;
        try (eexists _, _; split; [done|]; by (eexists [_]; split; [|cbn; lia])).
      destruct (truthy text);
        [|eexists _, _; split; [done|]; by (eexists [_]; split; [|cbn; lia])].
      destruct (JSON.parse text);
        eexists _, _; (split; [done|]); by (eexists [_]; split; [|cbn; lia]).
Qed.

End sent.

End GeminiFacts.

(** ** What the AI handler leaves behind *)

Module HandlerFacts.
Import JsString Js Gemini GeminiFacts Editor.

Section handler.
Variable API_KEY : option string.
Variable generateContent : string → Request → Result (option string).
Variable interference : Component → Component.

(** The handler on generate_title and on generate_tags, in one step. *)
Lemma handleAIAction_generate_title (w : World Component) :
  handleAIAction API_KEY generateContent interference generate_title w =
    let c := component w in
    match generateNoteTitle API_KEY generateContent (content (state c))
            (with_component w (begin c)) with
    | (Ok newTitle, w2) =>
        (Ok tt,
         with_component w2
           (on_state (set_isProcessingAI false)
              (on_state (set_title newTitle) (interference (component w2)))))
    | (Throw e, w2) =>
        (Ok tt,
         report_failure e
           (with_component w2
              (on_state (set_isProcessingAI false) (interference (component w2)))))
    end.
Proof.
  destruct w as [co al rq c].
  unfold handleAIAction, bind, get, setIsProcessingAI, setShowAITools, modify,
    try_finally, try_catch, await. cbn [component console alerts requests].
  unfold with_component, begin. cbn [component console alerts requests].
  by destruct (generateNoteTitle _ _ _ _) as [[t|e] [co2 al2 rq2 c2]].
Qed.

Lemma handleAIAction_generate_tags (w : World Component) :
  handleAIAction API_KEY generateContent interference generate_tags w =
    let c := component w in
    match generateNoteTags API_KEY generateContent (content (state c))
            (with_component w (begin c)) with
    | (Ok generatedTags, w2) =>
        let settled :=
          with_component w2
            (on_state (set_isProcessingAI false) (interference (component w2))) in
        match spread generatedTags with
        | Some (Ok generated) =>
            (Ok tt,
             with_component w2
               (on_state (set_isProcessingAI false)
                  (if (0 <? List.length generated)%nat
                   then on_state
                          (set_tags (Array_from_Set (tags (state c) ++ generated)))
                          (interference (component w2))
                   else interference (component w2))))
        | Some (Throw e) => (Ok tt, report_failure e settled)
        | None => (Ok tt, settled)
        end
    | (Throw e, w2) =>
        (Ok tt,
         report_failure e
           (with_component w2
              (on_state (set_isProcessingAI false) (interference (component w2)))))
    end.
Proof.
  destruct w as [co al rq c].
  unfold handleAIAction, bind, get, setIsProcessingAI, setShowAITools, modify,
    try_finally, try_catch, await. cbn [component console alerts requests].
  unfold with_component, begin. cbn [component console alerts requests].
  destruct (generateNoteTags _ _ _ _) as [[v|e] [co2 al2 rq2 c2]]; [|done].
  cbn [component console alerts requests state tags on_state].
  destruct (spread v) as [[g|e]|]; [|done..].
  by destruct (0 <? List.length g)%nat.
Qed.

End handler.

End HandlerFacts.

(** ** Any sequence of edits and timeouts *)

Module DebounceFacts.
Import Editor Debounce.

(** The number of state setter calls among the events. *)
Definition edits (evs : list Event) : nat :=
  List.length (filter (λ ev, is_fire ev = false) evs).

(** One if a timeout is pending. *)
Definition pending (s : Session) : nat :=
  match timer s with Some _ => 1 | None => 0 end.

(** A note is a version of another: same identifier, same creation
    time. *)
Definition version_of (n m : Note.t) : Prop :=
  Note.id m = Note.id n ∧ Note.createdAt m = Note.createdAt n.

Lemma apply_update_note (u : Update) (st : State) :
  note (apply_update u st) = note st.
Proof. by destruct u. Qed.

Section counting.
Local Open Scope nat_scope.

Lemma edits_Edit (t : Z) (u : Update) : edits [Edit t u] = 1.
Proof. reflexivity. Qed.

Lemma edits_Fire (t : Z) : edits [Fire t] = 0.
Proof. reflexivity. Qed.

(** One event: the commits grow by versions of the note, and by no more
    than the pending timeout and the edit allow. *)
Lemma step_commits (s : Session) (ev : Event) :
  ∃ new,
    commits (step s ev) = commits s ++ new
    ∧ Forall (version_of (note (st s))) new
    ∧ version_of (note (st s)) (note (st (step s ev)))
    ∧ List.length new + pending (step s ev) ≤ edits [ev] + pending s.
Proof.
  destruct ev as [t u|t]; cbn [step]; [rewrite edits_Edit|rewrite edits_Fire].
  - exists []. rewrite List.app_nil_r.
    destruct (deps_changed _ _); cbn [commits st];
      rewrite apply_update_note; (split; [done|]); (split; [done|]);
      (split; [done|]); unfold pending; cbn [timer List.length]; [lia|].
    destruct (timer s); lia.
  - unfold pending. destruct (timer s) as [due|] eqn:Htm.
    + destruct (due <=? t)%Z.
      * destruct (dirty (st s)); cbn [handleSave commits st timer].
        -- eexists [_]. split; [done|]. split; [by constructor|].
           split; [done|]. cbn [List.length]. lia.
        -- exists []. rewrite List.app_nil_r. split; [done|]. split; [done|].
           split; [done|]. cbn [List.length]. lia.
      * exists []. rewrite List.app_nil_r, Htm. split; [done|]. split; [done|].
        split; [done|]. cbn [List.length]. lia.
    + exists []. rewrite List.app_nil_r, Htm. split; [done|]. split; [done|].
      split; [done|]. cbn [List.length]. lia.
Qed.

Lemma version_of_trans (n m k : Note.t) :
  version_of n m → version_of m k → version_of n k.
Proof. unfold version_of. intros [-> ->] [-> ->]. done. Qed.

Lemma edits_cons (ev : Event) (evs : list Event) :
  edits (ev :: evs) = edits [ev] + edits evs.
Proof. unfold edits. destruct ev; by cbn. Qed.

Lemma run_commits (s : Session) (evs : list Event) :
  ∃ new,
    commits (run s evs) = commits s ++ new
    ∧ Forall (version_of (note (st s))) new
    ∧ List.length new + pending (run s evs) ≤ edits evs + pending s.
Proof.
  revert s. induction evs as [|ev evs IH]; intros s.
  - exists []. rewrite List.app_nil_r. cbn. by auto using le_n.
  - destruct (step_commits s ev) as (new1 & Hc1 & Hv1 & Hn & Hl1).
    destruct (IH (step s ev)) as (new2 & Hc2 & Hv2 & Hl2).
    exists (new1 ++ new2).
    change (run s (ev :: evs)) with (run (step s ev) evs).
    split; [by rewrite Hc2, Hc1, List.app_assoc|]. split.
    + apply Forall_app. split; [done|].
      eapply Forall_impl; [exact Hv2|]. intros m Hm.
      by eapply version_of_trans.
    + rewrite length_app, edits_cons. lia.
Qed.

End counting.

(** A state setter that leaves the dependencies as they are leaves the
    buffer as it is. *)
Lemma apply_update_same (u : Update) (st : State) :
  deps_changed st (apply_update u st) = false →
  title (apply_update u st) = title st
  ∧ content (apply_update u st) = content st
  ∧ tags (apply_update u st) = tags st.
Proof.
  unfold deps_changed. rewrite !orb_false_iff, !negb_false_iff.
  rewrite !bool_decide_eq_true. intros [[Ht Hc] Hr].
  destruct u; cbn in *; [done|done|lia].
Qed.

Lemma step_pending (s : Session) (ev : Event) :
  (timer s = None → clean (st s)) →
  timer (step s ev) = None → clean (st (step s ev)).
Proof.
  intros Hs. destruct ev as [t u|t]; cbn [step].
  - destruct (deps_changed _ _) eqn:Hd; cbn [timer st]; [done|].
    intros Hc%Hs. apply apply_update_same in Hd as (Ht & Hco & Hta).
    unfold clean in *. by rewrite apply_update_note, Ht, Hco, Hta.
  - destruct (timer s) as [due|] eqn:Htm; [|by auto].
    destruct (due <=? t); [|by rewrite Htm].
    destruct (dirty (st s)) eqn:Hd; cbn [handleSave timer st]; intros _.
    + done.
    + by apply dirty_spec.
Qed.

End DebounceFacts.

(** ** Claims *)

Import JsString Js Gemini Editor Debounce.

(** A component showing a note with the given content, the text area's
    selection running from [a] to [b], in a world where nothing has
    happened yet. *)
Definition w_demo (content : string) (a b : nat) : World Component :=
  mkWorld [] [] []
    (mkComponent (mount (Note.mk "1" "T" content [] 0 0)) (mkTextarea a b)).

(** A lone opening brace is no JSON text, whatever the fuel. *)
Lemma parse_value_brace_only (fuel : nat) : JSON.parse_value fuel "{" = None.
Proof. destruct fuel as [|[|f]]; reflexivity. Qed.

(** The stored value is not JSON: the initializer throws. *)
Lemma C1_counterexample :
  App.load (App.setItem App.STORAGE_KEY "{" ∅) 0 0
  = Throw (SyntaxError "JSON.parse").
Proof. reflexivity. Qed.

(** C1, amended. [load] yields the seeded welcome note when nothing is
    stored under the key or the stored string is empty, and the parsed
    value when the stored string is not empty and is JSON text.  A stored
    string that is neither empty nor JSON text is not guarded against:
    the [SyntaxError] of [JSON.parse] goes to the caller. *)
Theorem C1_load_cases (storage : gmap string string) (now now' : Z) :
  (App.getItem App.STORAGE_KEY storage = None
   ∨ App.getItem App.STORAGE_KEY storage = Some "" →
   App.load storage now now' = Ok (App.json_of_notes (App.INITIAL_NOTES now now')))
  ∧ (∀ saved v,
       App.getItem App.STORAGE_KEY storage = Some saved → saved ≠ "" →
       JSON.parse saved = Some v →
       App.load storage now now' = Ok v)
  ∧ (∀ saved,
       App.getItem App.STORAGE_KEY storage = Some saved → saved ≠ "" →
       JSON.parse saved = None →
       ∃ e, App.load storage now now' = Throw e).
Proof.
  unfold App.load. split; [|split].
  - by intros [-> | ->].
  - intros saved v -> Hne ->. by destruct saved.
  - intros saved -> Hne ->. destruct saved; [done|]. by eexists.
Qed.

Lemma C1_witness :
  (App.getItem App.STORAGE_KEY (App.setItem App.STORAGE_KEY "" ∅) = Some ""
   ∧ App.load (App.setItem App.STORAGE_KEY "" ∅) 5 5
     = Ok (App.json_of_notes (App.INITIAL_NOTES 5 5)))
  ∧ (App.getItem App.STORAGE_KEY (App.setItem App.STORAGE_KEY "[]" ∅) = Some "[]"
     ∧ JSON.parse "[]" = Some (JSON.Arr [])
     ∧ App.load (App.setItem App.STORAGE_KEY "[]" ∅) 5 5 = Ok (JSON.Arr []))
  ∧ (App.getItem App.STORAGE_KEY (App.setItem App.STORAGE_KEY "[1," ∅) = Some "[1,"
     ∧ JSON.parse "[1," = None
     ∧ ∃ e, App.load (App.setItem App.STORAGE_KEY "[1," ∅) 5 5 = Throw e).
Proof.
  split; [|split].
  - split; [reflexivity|].
    apply (C1_load_cases (App.setItem App.STORAGE_KEY "" ∅) 5 5).
    right. reflexivity.
  - split; [reflexivity|]. split; [reflexivity|].
    apply (proj1 (proj2 (C1_load_cases (App.setItem App.STORAGE_KEY "[]" ∅) 5 5))
             "[]" (JSON.Arr [])); [reflexivity|discriminate|reflexivity].
  - split; [reflexivity|]. split; [reflexivity|].
    apply (proj2 (proj2 (C1_load_cases (App.setItem App.STORAGE_KEY "[1," ∅) 5 5))
             "[1,"); [reflexivity|discriminate|reflexivity].
Defined.

(** The user moves the caret while the call is pending. *)
Definition move_selection (a b : nat) (c : Component) : Component :=
  mkComponent (state c) (mkTextarea a b).

Definition echo (answer : string) : string → Request → Result (option string) :=
  λ _ _, Ok (Some answer).

(** C2. The span [0, 5) of [hello world] is selected when fix_grammar is
    asked for; while the call is pending the selection moves to [6, 11).
    The result replaces the span found when the call settles, not the span
    that was sent: the content becomes [hello HI], where replacing the
    original span gives [HI world]. *)
Theorem C2_splice_reads_selection_after_call :
  handleAIAction (Some "k") (echo "HI") (move_selection 6 11) fix_grammar
    (w_demo "hello world" 0 5)
  = (Ok tt,
     mkWorld [] []
       [mkRequest MODEL_NAME
          ("Correct the grammar and spelling of the following text. Preserve the original meaning and tone. Return only the corrected text:"
           +:+ nl +:+ nl +:+ "hello") false]
       (mkComponent
          (set_content "hello HI" (mount (Note.mk "1" "T" "hello world" [] 0 0)))
          (mkTextarea 6 11)))
  ∧ substring "hello world" 0 0 +:+ "HI" +:+ substring_from "hello world" 5
    = "HI world".
Proof. split; reflexivity. Qed.

(** With no credential, generating a title gives the default title back
    instead of failing. *)
Lemma C3_counterexample :
  generateNoteTitle (S := unit) None (λ _ _, Ok (Some "A title")) "some text"
    (mkWorld [] [] [] tt)
  = (Ok "Untitled Note",
     mkWorld [mkLog "API Key not found in environment variables" None;
              mkLog "Error generating title:" (Some missing_key)] [] [] tt).
Proof. reflexivity. Qed.

(** C3, amended. With the credential missing and a content that is not
    blank: summarize, fix_grammar and elaborate fail at first use with the
    missing-credential error, before any request; generate_title and
    generate_tags catch that error, log it, and return the default title
    and the empty list. *)
Theorem C3_missing_credential {S : Type} (API_KEY : option string)
    (generateContent : string → Request → Result (option string))
    (content : string) (w : World S) :
  no_key API_KEY = true →
  truthy (trim content) = true →
  (∀ action selectedText,
     processAIAction API_KEY generateContent action content selectedText w
     = (Throw missing_key, log_no_key w))
  ∧ generateNoteTitle API_KEY generateContent content w
    = (Ok "Untitled Note",
       mkWorld (console (log_no_key w)
                ++ [mkLog "Error generating title:" (Some missing_key)])
         (alerts w) (requests w) (component w))
  ∧ generateNoteTags API_KEY generateContent content w
    = (Ok (JSON.Arr []),
       mkWorld (console (log_no_key w)
                ++ [mkLog "Error generating tags:" (Some missing_key)])
         (alerts w) (requests w) (component w)).
Proof.
  intros Hk Hc. split; [|split].
  - intros action sel. unfold processAIAction, bind.
    by rewrite getAIClient_missing.
  - unfold generateNoteTitle, try_catch, bind. rewrite Hc. cbn [negb].
    by rewrite getAIClient_missing.
  - unfold generateNoteTags, try_catch, bind. rewrite Hc. cbn [negb].
    by rewrite getAIClient_missing.
Qed.

Lemma C3_witness :
  no_key (Some "") = true
  ∧ truthy (trim " some text ") = true
  ∧ (∀ action selectedText,
       processAIAction (Some "") (λ _ _, Ok (Some "x")) action " some text "
         selectedText (mkWorld [] [] [] tt)
       = (Throw missing_key, log_no_key (mkWorld [] [] [] tt)))
  ∧ generateNoteTitle (Some "") (λ _ _, Ok (Some "x")) " some text "
      (mkWorld [] [] [] tt)
    = (Ok "Untitled Note",
       mkWorld (console (log_no_key (mkWorld [] [] [] tt))
                ++ [mkLog "Error generating title:" (Some missing_key)])
         [] [] tt)
  ∧ generateNoteTags (Some "") (λ _ _, Ok (Some "x")) " some text "
      (mkWorld [] [] [] tt)
    = (Ok (JSON.Arr []),
       mkWorld (console (log_no_key (mkWorld [] [] [] tt))
                ++ [mkLog "Error generating tags:" (Some missing_key)])
         [] [] tt).
Proof.
  split; [reflexivity|]. split; [reflexivity|].
  apply (C3_missing_credential (Some "") (λ _ _, Ok (Some "x")) " some text "
           (mkWorld [] [] [] tt)); reflexivity.
Defined.

(** C4. Deleting the selected note selects the first note of the resulting
    collection, or nothing when that collection is empty; deleting another
    note (or deleting while nothing is selected) leaves the selection as it
    was.  In both cases the resulting collection is the old one without the
    entries carrying that identifier, in the old order. *)
Theorem C4_deleteNote_selection (st : App.State) (i : string) :
  (∀ n, n ∈ App.notes (App.deleteNote st i) ↔ n ∈ App.notes st ∧ Note.id n ≠ i) ∧
  App.notes (App.deleteNote st i) `sublist_of` App.notes st ∧
  App.activeNoteId (App.deleteNote st i) =
    if decide (App.activeNoteId st = Some i)
    then Note.id <$> head (App.notes (App.deleteNote st i))
    else App.activeNoteId st.
Proof.
  split; [|split].
  - intros n. cbn. rewrite list_elem_of_filter. tauto.
  - cbn. apply sublist_filter.
  - cbn. case_decide; [|done]. by destruct (filter _ _).
Qed.

(** An editing session on a note titled [T], with no timeout pending. *)
Definition s_demo : Session :=
  mkSession (mount (Note.mk "1" "T" "" [] 0 0)) None [].

(** C5 as stated: every burst of edits is followed by exactly one commit. *)
Definition C5_as_stated : Prop :=
  ∀ (s : Session) (t1 : Z) (u1 : Update) (evs : list Event) (tf : Z),
    deps_changed (st s) (apply_update u1 (st s)) = true →
    burst (apply_update u1 (st s)) t1 evs = true →
    last_edit t1 evs + DELAY ≤ tf →
    ∃ n, commits (step (run s (Edit t1 u1 :: evs)) (Fire tf)) = commits s ++ [n].

(** Typing a character into the title and deleting it again within the
    window brings the buffer back to the note: the timeout fires and
    nothing is committed. *)
Lemma C5_counterexample : ¬ C5_as_stated.
Proof.
  intros H.
  destruct (H s_demo 0 (SetTitle "Tx") [Edit 500 (SetTitle "T")] 1500)
    as [n Hn]; [reflexivity|reflexivity|unfold DELAY; cbn; lia|].
  vm_compute in Hn. discriminate Hn.
Qed.

(** C5, amended. After a burst of edits, each less than 1000ms after the
    one before and each changing the buffer, nothing has been committed
    and the timeout is due 1000ms after the last edit. When it then fires,
    at a time [tf] at least 1000ms after the last edit, exactly one note is
    committed if the buffer differs from the note in title, content or
    tags, carrying the buffer and [updatedAt = tf], and none is committed
    if it does not; further attempts to fire commit nothing more. *)
Theorem C5_debounce_one_commit (s : Session) (t1 : Z) (u1 : Update)
    (evs : list Event) (tf : Z) :
  deps_changed (st s) (apply_update u1 (st s)) = true →
  burst (apply_update u1 (st s)) t1 evs = true →
  last_edit t1 evs + DELAY ≤ tf →
  let buffer := edited (apply_update u1 (st s)) evs in
  let s' := run s (Edit t1 u1 :: evs) in
  commits s' = commits s
  ∧ timer s' = Some (last_edit t1 evs + DELAY)
  ∧ st s' = buffer
  ∧ commits (step s' (Fire tf))
    = commits s ++ (if decide (clean buffer) then [] else [saved tf buffer])
  ∧ ∀ fires, forallb is_fire fires = true →
      commits (run (step s' (Fire tf)) fires) = commits (step s' (Fire tf)).
Proof.
  intros Hd Hb Htf buffer s'.
  assert (s' = mkSession buffer (Some (last_edit t1 evs + DELAY)) (commits s)) as Hs'.
  { unfold s'. cbn [run foldl step]. rewrite Hd. by apply run_burst. }
  rewrite Hs'. cbn [commits timer st step].
  destruct (Z.leb_spec (last_edit t1 evs + DELAY) tf) as [_|]; [|lia].
  split; [done|]. split; [done|]. split; [done|].
  destruct (dirty buffer) eqn:Hdirty.
  - cbn [handleSave commits]. rewrite decide_False.
    + split; [done|]. intros fires Hf. by rewrite run_fires_idle.
    + intros Hc%dirty_spec. congruence.
  - rewrite decide_True by by apply dirty_spec.
    rewrite List.app_nil_r. split; [done|]. intros fires Hf. by rewrite run_fires_idle.
Qed.

Lemma C5_witness :
  deps_changed (st s_demo) (apply_update (SetTitle "A") (st s_demo)) = true
  ∧ burst (apply_update (SetTitle "A") (st s_demo)) 0
      [Edit 400 (SetTitle "Ab"); Fire 900; Edit 1300 (SetTags ["x"])] = true
  ∧ last_edit 0 [Edit 400 (SetTitle "Ab"); Fire 900; Edit 1300 (SetTags ["x"])]
    + DELAY ≤ 2300
  ∧ commits
      (step (run s_demo
               (Edit 0 (SetTitle "A")
                :: [Edit 400 (SetTitle "Ab"); Fire 900; Edit 1300 (SetTags ["x"])]))
         (Fire 2300))
    = [Note.mk "1" "Ab" "" ["x"] 0 2300].
Proof.
  split; [reflexivity|]. split; [reflexivity|]. split; [by vm_compute|].
  pose proof (C5_debounce_one_commit s_demo 0 (SetTitle "A")
                [Edit 400 (SetTitle "Ab"); Fire 900; Edit 1300 (SetTags ["x"])]
                2300 eq_refl eq_refl) as H.
  cbn zeta in H. destruct H as (_ & _ & _ & H & _); [by vm_compute|].
  rewrite H. reflexivity.
Defined.

(** A reachable state: the application starts on the seeded note and
    [todo] is entered as a tag. *)
Definition s_tagged : System.t :=
  System.step
    (System.mk (App.mkState (App.INITIAL_NOTES 0 0) (Some "1"))
       (System.render (App.mkState (App.INITIAL_NOTES 0 0) (Some "1")) None))
    (System.TagKey "Enter" " todo ").

(** C6. In every reachable state of the application the buffer holds no
    tag twice, and each tag operation keeps it so.  Pressing Enter on a
    value appends its trimmed form when that is neither empty nor among
    the tags, and changes nothing otherwise, so that adding an existing
    tag is a no-op; removing keeps exactly the tags that differ from the
    removed one, so that removing an absent tag is a no-op; merging
    generated tags keeps the tags in place, appends the generated ones
    that are new, once each, and is the only way the AI handler changes
    the tags. *)
Theorem C6_tag_set_invariant (s : System.t) (st : Editor.State)
    (cl : System.Closure) :
  System.reachable s → System.editor s = Some (st, cl) →
  NoDup (tags st)
  ∧ (∀ key value,
       NoDup (tags (handleTagInput key value st).1)
       ∧ tags (handleTagInput key value st).1
         = if decide (key = "Enter" ∧ trim value ≠ "" ∧ trim value ∉ tags st)
           then tags st ++ [trim value] else tags st)
  ∧ (∀ tag,
       NoDup (tags (removeTag tag st))
       ∧ (∀ x, x ∈ tags (removeTag tag st) ↔ x ∈ tags st ∧ x ≠ tag)
       ∧ tags (removeTag tag st) `sublist_of` tags st
       ∧ (tag ∉ tags st → tags (removeTag tag st) = tags st))
  ∧ (∀ generated,
       NoDup (Array_from_Set (tags st ++ generated))
       ∧ Array_from_Set (tags st ++ generated)
         = tags st ++ filter (λ y, y ∉ tags st) (Array_from_Set generated))
  ∧ (∀ API_KEY generateContent interference action textarea w r w',
       component w = mkComponent st textarea →
       handleAIAction API_KEY generateContent interference action w = (r, w') →
       tags (state (component w'))
       = tags (state (interference (begin (component w))))
       ∨ ∃ generated,
           tags (state (component w')) = Array_from_Set (tags st ++ generated)).
Proof.
  intros Hr He.
  destruct (System.reachable_invariant s Hr) as [_ Hed].
  destruct (Hed _ He) as (Hnd & _). cbn in Hnd.
  split; [done|]. split; [|split; [|split]].
  - intros key value. split; [by apply handleTagInput_NoDup|].
    rewrite handleTagInput_spec. by case_decide.
  - intros tag. split; [by apply removeTag_NoDup|].
    split; [intros x; apply removeTag_elem|]. split; [apply sublist_filter|].
    apply removeTag_absent.
  - intros generated. split; [apply Array_from_Set_NoDup|].
    by apply Array_from_Set_merge.
  - intros API_KEY generateContent interference action textarea w r w' Hw Hh.
    apply handleAIAction_tags in Hh as [Hh|[g Hh]]; [by left|].
    right. exists g. by rewrite Hh, Hw.
Qed.

Lemma C6_witness :
  System.reachable s_tagged
  ∧ System.editor s_tagged
    = Some (set_tags ["welcome"; "tutorial"; "todo"]
              (mount (Note.mk "1" "Welcome to Nebula Notes" App.welcome_content
                        ["welcome"; "tutorial"] 0 0)),
            System.mkClosure
              (Note.mk "1" "Welcome to Nebula Notes" App.welcome_content
                 ["welcome"; "tutorial"] 0 0)
              (App.INITIAL_NOTES 0 0))
  ∧ NoDup ["welcome"; "tutorial"; "todo"].
Proof.
  assert (System.reachable s_tagged) as Hr.
  { apply System.reachable_step. by apply (System.reachable_boot 0 0). }
  split; [exact Hr|]. split; [reflexivity|].
  exact (proj1 (C6_tag_set_invariant s_tagged _ _ Hr eq_refl)).
Defined.



(** The specification's own example: the query [alpha], in any case, shows
    both notes, and [zzz] shows none. *)
Example filteredNotes_alpha :
  let n1 := Note.mk "a" "Alpha" "" ["x"] 0 0 in
  let n2 := Note.mk "b" "Beta" "alpha inside" [] 0 0 in
  Sidebar.filteredNotes [n1; n2] "aLPha" = [n1; n2] ∧
  Sidebar.filteredNotes [n1; n2] "zzz" = [].
Proof. by vm_compute. Qed.

(** C8. Persisting a collection and loading it again yields the value of
    that collection: the same notes, with the same identifiers and field
    values, in the same order, whatever else the storage holds. *)
Theorem C8_persist_load_roundtrip (notes : list Note.t)
    (storage : gmap string string) (now now' : Z) :
  App.load (App.persist notes storage) now now' = Ok (App.json_of_notes notes)
  ∧ App.notes_of_json (App.json_of_notes notes) = Some notes.
Proof.
  split; [apply App.load_persist|apply App.notes_of_json_of_notes].
Qed.

(** The seeded collection, as stored and as read back. *)
Example persist_INITIAL_NOTES :
  App.getItem App.STORAGE_KEY (App.persist (App.INITIAL_NOTES 7 7) ∅)
  = Some (JSON.stringify (App.json_of_notes (App.INITIAL_NOTES 7 7)))
  ∧ App.load (App.persist (App.INITIAL_NOTES 7 7) ∅) 9 9
    = Ok (App.json_of_notes (App.INITIAL_NOTES 7 7)).
Proof. split; [reflexivity|by vm_compute]. Qed.

(** C9. When the call made for summarize, fix_grammar or elaborate fails,
    the handler catches the error, shows one alert, and leaves the state
    as the pending period left it, with the busy flag cleared: the handler
    itself writes nothing to the content, and with nothing happening while
    the call is pending the content is what it was before. *)
Theorem C9_failed_transform_keeps_content (API_KEY : option string)
    (generateContent : string → Request → Result (option string))
    (interference : Component → Component)
    (action : AIActionType) (w w2 : World Component) (e : Exn) :
  is_transform action = true →
  processAIAction API_KEY generateContent action
    (content (state (component w)))
    (selection_text (content (state (component w))) (textarea (component w)))
    (with_component w (begin (component w))) = (Throw e, w2) →
  ∃ w3,
    handleAIAction API_KEY generateContent interference action w = (Ok tt, w3)
    ∧ alerts w3 = alerts w ++ [failure_alert]
    ∧ component w3
      = on_state (set_isProcessingAI false) (interference (begin (component w)))
    ∧ (interference (begin (component w)) = begin (component w) →
       content (state (component w3)) = content (state (component w))
       ∧ title (state (component w3)) = title (state (component w))
       ∧ tags (state (component w3)) = tags (state (component w))).
Proof.
  intros Ha Hp. eexists. split; [by eapply handleAIAction_failed|].
  cbn. split; [done|]. split; [done|]. by intros ->.
Qed.

Definition w_demo_rejected : World Component :=
  mkWorld [mkLog "Error processing summarize:" (Some (Rejected "503"))] []
    [mkRequest MODEL_NAME
       ("Summarize the following text concisely in a few bullet points:"
        +:+ nl +:+ nl +:+ "some text") false]
    (begin (component (w_demo "some text" 0 0))).

Lemma C9_witness :
  is_transform summarize = true
  ∧ processAIAction (Some "k") (λ _ _, Throw (Rejected "503")) summarize
      "some text" "" (with_component (w_demo "some text" 0 0)
                        (begin (component (w_demo "some text" 0 0))))
    = (Throw (Rejected "503"), w_demo_rejected)
  ∧ ∃ w3,
      handleAIAction (Some "k") (λ _ _, Throw (Rejected "503")) (λ c, c)
        summarize (w_demo "some text" 0 0) = (Ok tt, w3)
      ∧ alerts w3 = [failure_alert]
      ∧ component w3
        = on_state (set_isProcessingAI false)
            (begin (component (w_demo "some text" 0 0)))
      ∧ (begin (component (w_demo "some text" 0 0))
         = begin (component (w_demo "some text" 0 0)) →
         content (state (component w3)) = "some text"
         ∧ title (state (component w3)) = "T"
         ∧ tags (state (component w3)) = []).
Proof.
  split; [reflexivity|]. split; [reflexivity|].
  apply (C9_failed_transform_keeps_content (Some "k")
           (λ _ _, Throw (Rejected "503")) (λ c, c) summarize
           (w_demo "some text" 0 0) w_demo_rejected (Rejected "503"));
    reflexivity.
Defined.

(** The claim C10 names one error; with no credential another one is
    thrown first. *)
Lemma C10_counterexample :
  processAIAction (S := unit) None (λ _ _, Ok (Some "x")) summarize "   " ""
    (mkWorld [] [] [] tt)
  = (Throw missing_key,
     mkWorld [mkLog "API Key not found in environment variables" None] [] [] tt)
  ∧ missing_key ≠ Error "No text to process".
Proof. split; [reflexivity|discriminate]. Qed.

(** C10, amended. For summarize, fix_grammar and elaborate on a text that
    is empty or white space only, [processAIAction] throws before any
    request is made: the error [No text to process] when the credential is
    there, and the missing-credential error otherwise. The handler then
    writes nothing to the content. *)
Theorem C10_blank_text_throws_before_request (API_KEY : option string)
    (generateContent : string → Request → Result (option string))
    (interference : Component → Component)
    (action : AIActionType) (w : World Component) :
  is_transform action = true →
  truthy (trim (textToProcess (content (state (component w)))
                  (selection_text (content (state (component w)))
                     (textarea (component w))))) = false →
  (∃ e w',
     processAIAction API_KEY generateContent action
       (content (state (component w)))
       (selection_text (content (state (component w))) (textarea (component w)))
       w = (Throw e, w')
     ∧ requests w' = requests w
     ∧ e = if no_key API_KEY then missing_key else Error "No text to process")
  ∧ ∃ w3,
      handleAIAction API_KEY generateContent interference action w = (Ok tt, w3)
      ∧ requests w3 = requests w
      ∧ alerts w3 = alerts w ++ [failure_alert]
      ∧ content (state (component w3))
        = content (state (interference (begin (component w)))).
Proof.
  intros Ha Hb. split.
  - rewrite processAIAction_blank by done.
    destruct (no_key API_KEY); by eexists _, _.
  - pose proof (processAIAction_blank API_KEY generateContent action _ _
                  (with_component w (begin (component w))) Hb) as Hp.
    destruct (no_key API_KEY);
      (eexists; split; [by eapply handleAIAction_failed|done]).
Qed.

Lemma C10_witness :
  is_transform elaborate = true
  ∧ truthy (trim (textToProcess "  " (selection_text "  " (mkTextarea 0 1)))) = false
  ∧ (∃ e w',
       processAIAction (Some "k") (λ _ _, Ok (Some "x")) elaborate "  "
         (selection_text "  " (mkTextarea 0 1)) (w_demo "  " 0 1) = (Throw e, w')
       ∧ requests w' = []
       ∧ e = Error "No text to process")
  ∧ ∃ w3,
      handleAIAction (Some "k") (λ _ _, Ok (Some "x")) (λ c, c) elaborate
        (w_demo "  " 0 1) = (Ok tt, w3)
      ∧ requests w3 = []
      ∧ alerts w3 = [failure_alert]
      ∧ content (state (component w3)) = "  ".
Proof.
  split; [reflexivity|]. split; [reflexivity|].
  apply (C10_blank_text_throws_before_request (Some "k") (λ _ _, Ok (Some "x"))
           (λ c, c) elaborate (w_demo "  " 0 1)); reflexivity.
Defined.

(** ** Further properties *)

Import JsString Js Gemini Editor Debounce StoreFacts.

(** X1. [createNote] puts the new, empty note in front of the collection,
    keeps the other notes as they were, and selects the new note, which
    is the one the editor is then given.  When the identifier drawn is not
    in the collection, distinct identifiers stay distinct. *)
Theorem X1_createNote_prepends_and_selects (st : App.State) (uuid : string)
    (now now' : Z) :
  App.notes (App.createNote st uuid now now')
  = (Note.mk uuid "" "" [] now now' :: App.notes st)
  ∧ App.activeNote (App.createNote st uuid now now')
    = Some (Note.mk uuid "" "" [] now now')
  ∧ (uuid ∉ ids (App.notes st) → NoDup (ids (App.notes st)) →
     NoDup (ids (App.notes (App.createNote st uuid now now')))).
Proof.
  split; [done|]. split; [apply activeNote_head|].
  intros Hf Hnd. cbn. by apply NoDup_cons.
Qed.

Lemma X1_witness :
  ("u2" ∉ ids (App.INITIAL_NOTES 0 0))
  ∧ NoDup (ids (App.INITIAL_NOTES 0 0))
  ∧ NoDup (ids (App.notes
                  (App.createNote (App.mkState (App.INITIAL_NOTES 0 0) (Some "1"))
                     "u2" 5 5))).
Proof.
  assert ("u2" ∉ ids (App.INITIAL_NOTES 0 0)) as Hf by compute_done.
  assert (NoDup (ids (App.INITIAL_NOTES 0 0))) as Hnd by compute_done.
  split; [exact Hf|]. split; [exact Hnd|].
  exact (proj2 (proj2 (X1_createNote_prepends_and_selects
                         (App.mkState (App.INITIAL_NOTES 0 0) (Some "1"))
                         "u2" 5 5)) Hf Hnd).
Defined.

(** X2. [updateNote] replaces every entry carrying the identifier of the
    given note and nothing else: identifiers, their order and the
    selection are kept; when no entry carries that identifier the state is
    unchanged; and when the selected note is the one updated, looking up
    the selection afterwards gives the new version. *)
Theorem X2_updateNote_replaces_in_place (st : App.State) (n : Note.t) :
  ids (App.notes (App.updateNote st n)) = ids (App.notes st)
  ∧ App.activeNoteId (App.updateNote st n) = App.activeNoteId st
  ∧ (∀ m, m ∈ App.notes (App.updateNote st n) →
          m = n ∨ (m ∈ App.notes st ∧ Note.id m ≠ Note.id n))
  ∧ (Note.id n ∉ ids (App.notes st) → App.updateNote st n = st)
  ∧ (App.activeNoteId st = Some (Note.id n) →
     Note.id n ∈ ids (App.notes st) →
     App.activeNote (App.updateNote st n) = Some n).
Proof.
  split; [apply ids_updateNote|]. split; [done|]. split; [|split].
  - intros m (m' & -> & Hm')%list_elem_of_fmap. case_decide; auto.
  - apply updateNote_absent.
  - intros Ha (m & Hid & Hm)%list_elem_of_fmap.
    unfold App.activeNote. cbn [App.updateNote App.activeNoteId App.notes].
    rewrite Ha.
    destruct (list_find _ _) as [[k m']|] eqn:Hf.
    + apply list_find_Some in Hf as (Hk & Hid' & _). cbn.
      apply list_lookup_fmap_Some in Hk as (m0 & -> & _).
      destruct (decide (Note.id m0 = Note.id n)) as [Hd|Hd]; [done|].
      by destruct Hd.
    + apply list_find_None in Hf. rewrite Forall_forall in Hf.
      destruct (Hf n); [|done]. apply list_elem_of_fmap. exists m.
      by rewrite decide_True.
Qed.

Lemma X2_witness :
  let st := App.mkState [Note.mk "2" "B" "" [] 0 0] (Some "2") in
  let n1 := Note.mk "1" "New" "" [] 0 9 in
  let n2 := Note.mk "2" "Bee" "" [] 0 9 in
  (Note.id n1 ∉ ids (App.notes st))
  ∧ App.updateNote st n1 = st
  ∧ App.activeNoteId st = Some (Note.id n2)
  ∧ Note.id n2 ∈ ids (App.notes st)
  ∧ App.activeNote (App.updateNote st n2) = Some n2.
Proof.
  intros st n1 n2.
  assert (Note.id n1 ∉ ids (App.notes st)) as Hf by compute_done.
  assert (Note.id n2 ∈ ids (App.notes st)) as Hin by compute_done.
  split; [exact Hf|].
  split; [exact (proj1 (proj2 (proj2 (proj2
                   (X2_updateNote_replaces_in_place st n1)))) Hf)|].
  split; [reflexivity|]. split; [exact Hin|].
  exact (proj2 (proj2 (proj2 (proj2
           (X2_updateNote_replaces_in_place st n2)))) eq_refl Hin).
Defined.

(** X3. Creating a note under an identifier not in the collection and
    deleting it again gives the collection back, but not the selection:
    the first note of the collection is selected, whichever note was
    selected before. *)
Theorem X3_create_then_delete (st : App.State) (uuid : string) (now now' : Z) :
  uuid ∉ ids (App.notes st) →
  App.deleteNote (App.createNote st uuid now now') uuid
  = App.mkState (App.notes st) (Note.id <$> head (App.notes st)).
Proof.
  intros Hf. unfold App.deleteNote, App.createNote.
  cbn [App.notes App.activeNoteId Note.id].
  rewrite filter_cons_False by (cbn; tauto).
  rewrite filter_id_fresh by done. rewrite decide_True by done.
  by destruct (App.notes st).
Qed.

Lemma X3_witness :
  ("n" ∉ ids [Note.mk "a" "A" "" [] 0 0; Note.mk "b" "B" "" [] 0 0])
  ∧ App.deleteNote
      (App.createNote
         (App.mkState [Note.mk "a" "A" "" [] 0 0; Note.mk "b" "B" "" [] 0 0]
            (Some "b")) "n" 3 3) "n"
    = App.mkState [Note.mk "a" "A" "" [] 0 0; Note.mk "b" "B" "" [] 0 0]
        (Some "a").
Proof.
  assert ("n" ∉ ids [Note.mk "a" "A" "" [] 0 0; Note.mk "b" "B" "" [] 0 0])
    as Hf by compute_done.
  split; [exact Hf|].
  exact (X3_create_then_delete
           (App.mkState [Note.mk "a" "A" "" [] 0 0; Note.mk "b" "B" "" [] 0 0]
              (Some "b")) "n" 3 3 Hf).
Defined.

(** X4. After [deleteNote] the selection never designates the deleted
    identifier; deleting twice is deleting once; deleting an identifier
    that is neither in the collection nor selected changes nothing; and
    distinct identifiers stay distinct. *)
Theorem X4_deleteNote_algebra (st : App.State) (i : string) :
  App.activeNoteId (App.deleteNote st i) ≠ Some i
  ∧ App.deleteNote (App.deleteNote st i) i = App.deleteNote st i
  ∧ (i ∉ ids (App.notes st) → App.activeNoteId st ≠ Some i →
     App.deleteNote st i = st)
  ∧ (NoDup (ids (App.notes st)) →
     NoDup (ids (App.notes (App.deleteNote st i)))).
Proof.
  split; [apply deleteNote_not_selected|]. split; [|split].
  - pose proof (deleteNote_not_selected st i) as Hns.
    unfold App.deleteNote in *. cbn [App.notes App.activeNoteId] in *.
    rewrite filter_id_idemp. by rewrite (decide_False (P := _ = Some i)).
  - intros Hf Ha. destruct st as [notes active]. unfold App.deleteNote.
    cbn [App.notes App.activeNoteId] in *.
    rewrite filter_id_fresh by done. by rewrite decide_False.
  - apply ids_filter_NoDup.
Qed.

Lemma X4_witness :
  ("z" ∉ ids (App.INITIAL_NOTES 0 0))
  ∧ Some "1" ≠ Some "z"
  ∧ NoDup (ids (App.INITIAL_NOTES 0 0))
  ∧ App.deleteNote (App.mkState (App.INITIAL_NOTES 0 0) (Some "1")) "z"
    = App.mkState (App.INITIAL_NOTES 0 0) (Some "1")
  ∧ NoDup (ids (App.notes
                  (App.deleteNote (App.mkState (App.INITIAL_NOTES 0 0) (Some "1"))
                     "z"))).
Proof.
  assert ("z" ∉ ids (App.INITIAL_NOTES 0 0)) as Hf by compute_done.
  assert (Some "1" ≠ Some "z") as Ha by discriminate.
  assert (NoDup (ids (App.INITIAL_NOTES 0 0))) as Hnd by compute_done.
  pose proof (X4_deleteNote_algebra
                (App.mkState (App.INITIAL_NOTES 0 0) (Some "1")) "z")
    as (_ & _ & H3 & H4).
  split; [exact Hf|]. split; [exact Ha|]. split; [exact Hnd|].
  split; [exact (H3 Hf Ha)|exact (H4 Hnd)].
Defined.

Import System SystemFacts.

(** X5.  In a session where notes are selected from the list, the editor is
    open exactly when the collection holds a note, and the note it shows is
    the one [notes.find] returns for the selection: the placeholder is
    seen over an empty collection only. *)
Theorem X5_editor_shows_selected_note (s : System.t) :
  reachable_by listed s →
  (editor s = None ↔ App.notes (app s) = [])
  ∧ (λ ed, note ed.1) <$> editor s = App.activeNote (app s).
Proof.
  intros Hs%reachable_shows_selection. unfold shows_selection in Hs.
  destruct (editor s) as [[st cl]|].
  - destruct Hs as (_ & Hn & _). split; [|done]. split; [done|].
    intros He. apply System.activeNote_elem in Hn. rewrite He in Hn.
    by apply elem_of_nil in Hn.
  - destruct Hs as [Ha Hn]. split; [done|].
    unfold App.activeNote. by rewrite Ha.
Qed.

Lemma X5_witness :
  (editor s_typing = None ↔ App.notes (app s_typing) = [])
  ∧ (λ ed, note ed.1) <$> editor s_typing = App.activeNote (app s_typing).
Proof.
  apply X5_editor_shows_selected_note.
  apply reachable_by_step; [|exact I].
  apply reachable_by_step; [|exists ""; vm_compute; repeat constructor].
  apply reachable_by_step; [|exact I].
  apply (reachable_by_boot _ 0 0). reflexivity.
Defined.

(** X6.  As long as every new note gets an identifier the collection does
    not hold, no two notes of the collection share one, whatever is
    created, deleted, edited, saved or reloaded. *)
Theorem X6_identifiers_distinct (s : System.t) :
  reachable_by fresh s → NoDup (ids (App.notes (app s))).
Proof. by intros [H _]%reachable_ids_distinct. Qed.

Lemma X6_witness : NoDup (ids (App.notes (app s_typing))).
Proof.
  apply X6_identifiers_distinct.
  apply reachable_by_step; [|exact I].
  apply reachable_by_step; [|exact I].
  apply reachable_by_step; [|vm_compute; by intros ?%list_elem_of_singleton].
  apply (reachable_by_boot _ 0 0). reflexivity.
Defined.

(** X7.  A pending save writes back the collection it closed over.  When
    another note is deleted while the open note has unsaved changes, the
    deleted note is gone until the save runs and is in the collection
    again afterwards. *)
Theorem X7_pending_save_restores_deleted_note (s : System.t)
    (st : Editor.State) (cl : Closure) (i : string) (now now' : Z) :
  editor s = Some (st, cl) →
  App.activeNote (app s) = Some (note st) →
  Note.id (note st) ≠ i →
  i ∈ ids (seen_notes cl) →
  dirty (set_note (seen_note cl) st) = true →
  (i ∉ ids (App.notes (app (step s (DeleteNote i)))))
  ∧ i ∈ ids (App.notes (app (step (step s (DeleteNote i)) (Save now now')))).
Proof.
  intros He Hn Hne Hin Hd.
  rewrite (step_DeleteNote_other s st cl i He Hn Hne). split.
  - cbn. intros (m & Hm & [Hid _]%list_elem_of_filter)%list_elem_of_fmap.
    by destruct Hid.
  - cbn [step editor app]. rewrite Hd. cbn [handleSave app].
    by rewrite ids_updateNote.
Qed.

Lemma X7_witness :
  ("b" ∉ ids (App.notes (app (step s_typing (DeleteNote "b")))))
  ∧ "b" ∈ ids (App.notes
                 (app (step (step s_typing (DeleteNote "b")) (Save 2 2)))).
Proof.
  eapply X7_pending_save_restores_deleted_note.
  - reflexivity.
  - reflexivity.
  - by vm_compute.
  - vm_compute. repeat constructor.
  - reflexivity.
Defined.


(** X8.  Selecting another note replaces the buffer by that note's fields
    and leaves the collection alone: what was typed into the note shown
    before and not yet saved is in neither, and the save that was pending
    finds nothing to write. *)
Theorem X8_switching_notes_drops_unsaved_edits (s : System.t)
    (st : Editor.State) (cl : Closure) (n : Note.t) (now now' : Z) :
  editor s = Some (st, cl) →
  App.activeNote (App.mkState (App.notes (app s)) (Some (Note.id n))) = Some n →
  Note.id (note st) ≠ Note.id n →
  let s' := step s (SelectNote (Note.id n)) in
  App.notes (app s') = App.notes (app s)
  ∧ (∃ st' cl', editor s' = Some (st', cl') ∧ note st' = n
       ∧ title st' = Note.title n ∧ content st' = Note.content n
       ∧ tags st' = Note.tags n)
  ∧ step s' (Save now now') = s'.
Proof.
  intros He Hn Hne s'.
  assert (editor s' = Some (sync n st, mkClosure n (App.notes (app s)))) as He'.
  { subst s'. cbn [step editor]. unfold render.
    by rewrite Hn, He, decide_False. }
  split; [done|]. split; [by eexists _, _|].
  cbn [step]. rewrite He'. cbn [seen_note].
  change (set_note n (sync n st)) with (sync n st). by rewrite dirty_sync.
Qed.

Lemma X8_witness :
  let n := Note.mk "b" "" "" [] 1 1 in
  let s' := step s_typing (SelectNote "b") in
  App.notes (app s') = App.notes (app s_typing)
  ∧ (∃ st' cl', editor s' = Some (st', cl') ∧ note st' = n
       ∧ title st' = Note.title n ∧ content st' = Note.content n
       ∧ tags st' = Note.tags n)
  ∧ step s' (Save 2 2) = s'.
Proof.
  intros n. eapply (X8_switching_notes_drops_unsaved_edits s_typing _ _ n).
  - reflexivity.
  - reflexivity.
  - by vm_compute.
Defined.

(** X9.  Loading the page again gives the collection as it was, selects
    its first note whatever was selected, and opens the editor on that
    note as stored, so that what the buffer held beyond the note is gone.
    A collection that was emptied stays empty: the welcome note is there
    on the very first load only. *)
Theorem X9_reload_restores_collection (s : System.t) (now now' : Z) :
  let notes := App.notes (app s) in
  app (step s (Reload now now'))
  = App.mkState notes (Note.id <$> head notes)
  ∧ editor (step s (Reload now now'))
    = (λ n, (mount n, mkClosure n notes)) <$> head notes
  ∧ (notes = [] →
     step s (Reload now now') = System.mk (App.mkState [] None) None).
Proof.
  intros notes. cbn [step]. unfold boot.
  rewrite App.load_persist, App.notes_of_json_of_notes. fold notes.
  cbn [app editor]. unfold render.
  destruct notes as [|n notes']; [done|].
  cbn [head fmap option_fmap option_map]. by rewrite activeNote_head.
Qed.

Lemma X9_witness :
  step (System.mk (App.mkState [] None) None) (Reload 7 7)
  = System.mk (App.mkState [] None) None.
Proof.
  exact (proj2 (proj2 (X9_reload_restores_collection
                         (System.mk (App.mkState [] None) None) 7 7))
           eq_refl).
Defined.

Import JsString Sidebar SidebarView.

(** X10.  On texts of code units below U+0100 typing on narrows the
    list: the notes shown for a query that continues another one are among
    those shown for the shorter query, in the same order.  Beyond that
    range it need not: the note titled ασα is shown for ΑΣΑ and not for
    ΑΣ, whose sigma ends the word.  Whatever the texts, filtering what is
    shown once more by the same query shows the same. *)
Theorem X10_longer_query_narrows (notes : list Note.t) (q r : string)
    (toLowerCase : Utf16.ustring → Utf16.ustring)
    (wnotes : list Utf16.WNote) (wquery : Utf16.ustring) :
  let shown := Utf16.filteredNotes Utf16.toLowerCase in
  let asa := Utf16.mkWNote [49%N] Utf16.asa [] [] 0 0 in
  shown (Utf16.of_note <$> notes) (Utf16.of_string q ++ Utf16.of_string r)
    `sublist_of` shown (Utf16.of_note <$> notes) (Utf16.of_string q)
  ∧ (shown [asa] Utf16.ASA = [asa] ∧ shown [asa] Utf16.AS = []
     ∧ Utf16.ASA = Utf16.AS ++ [913%N])
  ∧ Utf16.filteredNotes toLowerCase
      (Utf16.filteredNotes toLowerCase wnotes wquery) wquery
    = Utf16.filteredNotes toLowerCase wnotes wquery.
Proof.
  intros shown asa. subst shown. split; [|split].
  - rewrite <-Utf16.of_string_app, !Utf16.filteredNotes_of_note.
    apply fmap_sublist. unfold filteredNotes. destruct q as [|c q].
    + rewrite app_nil_l. cbn [truthy negb].
      destruct (negb _); [done|apply sublist_filter].
    + rewrite app_cons. cbn [truthy negb].
      apply filter_sublist_impl. intros note.
      rewrite <-app_cons. rewrite !Is_true_true. apply matches_app.
  - by vm_compute.
  - apply Utf16.filteredNotes_idemp.
Qed.

(** X11.  A row never shows an empty heading or an empty preview line; it
    shows at most two tags, and the tags shown and the number after them
    add up to the tags of the note, the number being there exactly when
    the note has more than two. *)
Theorem X11_row_shape (activeNoteId : option string) (note : Note.t) :
  let r := row activeNoteId note in
  heading r ≠ "" ∧ preview r ≠ ""
  ∧ (List.length (chips r) ≤ 2)%nat
  ∧ (List.length (chips r) + default 0 (more r)
     = List.length (Note.tags note))%nat
  ∧ (more r = None ↔ (List.length (Note.tags note) ≤ 2)%nat).
Proof.
  unfold row. cbn [heading preview chips more].
  split; [by destruct (Note.title note)|].
  split; [by destruct (Note.content note)|].
  rewrite length_fmap, length_take.
  destruct (Nat.ltb_spec 2 (List.length (Note.tags note)));
    cbn [default from_option id].
  - split; [lia|]. split; [lia|]. split; [done|lia].
  - split; [lia|]. split; [lia|]. done.
Qed.

(** X12.  The invitation to create a first note is shown exactly when the
    collection is empty and nothing is searched for; the other message
    exactly when something is searched for and the filter shows no note.
    Otherwise there is one row per shown note, in order and under the
    note's identifier, and with distinct identifiers at most one row is
    drawn as the active one. *)
Theorem X12_listing_cases (notes : list Note.t) (activeNoteId : option string)
    (searchQuery : string) :
  (listing notes activeNoteId searchQuery = Message "Create your first note"
   ↔ notes = [] ∧ searchQuery = "")
  ∧ (listing notes activeNoteId searchQuery = Message "No matching notes found"
     ↔ searchQuery ≠ "" ∧ filteredNotes notes searchQuery = [])
  ∧ (∀ rows, listing notes activeNoteId searchQuery = Rows rows →
       rows ≠ []
       ∧ key <$> rows = Note.id <$> filteredNotes notes searchQuery
       ∧ (NoDup (Note.id <$> notes) →
          (List.length (filter (λ r, active r = true) rows) ≤ 1)%nat)).
Proof.
  unfold listing.
  destruct (filteredNotes notes searchQuery) as [|n shown] eqn:Hf;
    cbn [List.length Nat.eqb].
  - destruct searchQuery as [|c q]; cbn [truthy].
    + cbn in Hf. subst notes. split; [done|]. split; [|done].
      split; [done|]. by intros [? _].
    + split; [split; [done|by intros [_ ?]]|]. by split.
  - split; [split; [done|]|].
    { intros [-> ->]. discriminate Hf. }
    split; [split; [done|by intros [_ ?]]|].
    intros rows [= <-].
    split; [done|]. split; [exact (row_keys activeNoteId (n :: shown))|].
    intros Hnd. apply (active_rows_NoDup activeNoteId (n :: shown)).
    rewrite <-Hf.
    eapply sublist_NoDup; [exact Hnd|]. apply fmap_sublist.
    unfold filteredNotes. destruct (negb _); [done|apply sublist_filter].
Qed.

Lemma X12_witness :
  NoDup (Note.id <$> App.INITIAL_NOTES 0 0)
  ∧ (List.length
       (filter (λ r, active r = true)
          (row (Some "1") <$> App.INITIAL_NOTES 0 0)) ≤ 1)%nat.
Proof.
  assert (NoDup (Note.id <$> App.INITIAL_NOTES 0 0)) as Hnd by compute_done.
  split; [exact Hnd|].
  exact (proj2 (proj2 (proj2 (proj2
           (X12_listing_cases (App.INITIAL_NOTES 0 0) (Some "1") "wel")) _
           eq_refl)) Hnd).
Defined.

Import JsString Js Gemini GeminiFacts.

(** X13.  [generateNoteTitle] never throws.  The title it returns is not
    empty and has no white space at either end: with a credential, a
    content that is not blank and a response whose text is not blank, it
    is that text, trimmed, after one request and nothing logged; in every
    other case it is the default title.  The function sends at most one
    request, none for a blank content, and leaves the component and the
    alerts alone. *)
Theorem X13_generateNoteTitle_total {S : Type} (API_KEY : option string)
    (generateContent : string → Request → Result (option string))
    (content : string) (w : World S) :
  let request := mkRequest MODEL_NAME (title_prompt content) false in
  ∃ t w',
    generateNoteTitle API_KEY generateContent content w = (Ok t, w')
    ∧ t ≠ "" ∧ trim t = t
    ∧ component w' = component w ∧ alerts w' = alerts w
    ∧ (requests w' = requests w ∨ requests w' = requests w ++ [request])
    ∧ (trim content = "" → t = "Untitled Note" ∧ w' = w)
    ∧ (∀ apiKey text,
         API_KEY = Some apiKey → apiKey ≠ "" → trim content ≠ "" →
         generateContent apiKey request = Ok (Some text) → trim text ≠ "" →
         t = trim text
         ∧ requests w' = requests w ++ [request]
         ∧ console w' = console w)
    ∧ (t ≠ "Untitled Note" →
       ∃ apiKey text,
         API_KEY = Some apiKey
         ∧ generateContent apiKey request = Ok (Some text)
         ∧ t = trim text).
Proof.
  intros request. subst request.
  unfold generateNoteTitle. destruct (trim content) as [|c s] eqn:Hc.
  - cbn. exists "Untitled Note", w. by repeat split; auto.
  - cbn [truthy negb]. unfold try_catch, bind.
    destruct (no_key API_KEY) eqn:Hk.
    + rewrite getAIClient_missing by done. cbn.
      eexists _, _. split; [done|]. do 6 (split; [by auto|]).
      split; [|done]. intros k text -> Hne. by destruct k.
    + destruct (getAIClient_present (S := S) API_KEY w Hk) as (k & -> & ->).
      unfold models_generateContent, console_error, ret.
      destruct (generateContent _ _) as [[text|]|e] eqn:Hg; cbn.
      * destruct (trim text) as [|d t] eqn:Ht; cbn [truthy].
        -- eexists _, _. split; [done|]. do 6 (split; [by auto|]).
           split; [|done]. intros k' text' [= <-] _ _ Hg' Hne.
           rewrite Hg' in Hg. injection Hg as ->. by rewrite Ht in Hne.
        -- eexists _, _. split; [done|]. rewrite <-Ht, trim_idemp.
           split; [by rewrite Ht|]. do 5 (split; [by auto|]).
           split.
           ++ intros k' text' [= <-] _ _ Hg' _.
              rewrite Hg' in Hg. by injection Hg as ->.
           ++ intros _. by exists k, text.
      * eexists _, _. split; [done|]. do 6 (split; [by auto|]).
        split; [|done]. intros k' text' [= <-] _ _ Hg' _. by rewrite Hg' in Hg.
      * eexists _, _. split; [done|]. do 6 (split; [by auto|]).
        split; [|done]. intros k' text' [= <-] _ _ Hg' _. by rewrite Hg' in Hg.
Qed.

Lemma X13_witness :
  ∃ t w',
    generateNoteTitle (S := unit) (Some "k") (λ _ _, Ok (Some "  A title "))
      "some text" (mkWorld [] [] [] tt) = (Ok t, w')
    ∧ t = "A title"
    ∧ requests w'
      = [mkRequest MODEL_NAME (title_prompt "some text") false]
    ∧ console w' = [].
Proof.
  destruct (X13_generateNoteTitle_total (S := unit) (Some "k")
              (λ _ _, Ok (Some "  A title ")) "some text" (mkWorld [] [] [] tt))
    as (t & w' & Hg & _ & _ & _ & _ & _ & _ & Htext & _).
  exists t, w'. split; [exact Hg|].
  apply (Htext "k" "  A title "); [reflexivity|discriminate|..].
  - vm_compute. discriminate.
  - reflexivity.
  - vm_compute. discriminate.
Defined.

(** X14.  [generateNoteTags] never throws.  With a credential, a content
    that is not blank and a response whose text is not empty, it returns
    what [JSON.parse] makes of that text as it is, whatever its shape, an
    array of strings or not, and the empty array after logging the error
    when the text does not parse; in every other case it returns the
    empty array.  It sends at most one request, none for a blank content,
    and leaves the component and the alerts alone. *)
Theorem X14_generateNoteTags_total {S : Type} (API_KEY : option string)
    (generateContent : string → Request → Result (option string))
    (content : string) (w : World S) :
  let request := mkRequest MODEL_NAME (tags_prompt content) true in
  ∃ v w',
    generateNoteTags API_KEY generateContent content w = (Ok v, w')
    ∧ component w' = component w ∧ alerts w' = alerts w
    ∧ (requests w' = requests w ∨ requests w' = requests w ++ [request])
    ∧ (trim content = "" → v = JSON.Arr [] ∧ w' = w)
    ∧ (∀ apiKey text,
         API_KEY = Some apiKey → apiKey ≠ "" → trim content ≠ "" →
         generateContent apiKey request = Ok (Some text) → text ≠ "" →
         requests w' = requests w ++ [request]
         ∧ match JSON.parse text with
           | Some parsed => v = parsed ∧ console w' = console w
           | None =>
               v = JSON.Arr []
               ∧ console w'
                 = console w
                   ++ [mkLog "Error generating tags:"
                         (Some (SyntaxError "JSON.parse"))]
           end)
    ∧ (v ≠ JSON.Arr [] →
       ∃ apiKey text,
         API_KEY = Some apiKey
         ∧ generateContent apiKey request = Ok (Some text)
         ∧ JSON.parse text = Some v).
Proof.
  intros request. subst request.
  unfold generateNoteTags. destruct (trim content) as [|c s] eqn:Hc.
  - cbn. exists (JSON.Arr []), w. by repeat split; auto.
  - cbn [truthy negb]. unfold try_catch, bind.
    destruct (no_key API_KEY) eqn:Hk.
    + rewrite getAIClient_missing by done. cbn.
      eexists _, _. split; [done|]. do 4 (split; [by auto|]).
      split; [|done]. intros k text -> Hne. by destruct k.
    + destruct (getAIClient_present (S := S) API_KEY w Hk) as (k & -> & ->).
      unfold models_generateContent, console_error, ret, JSON_parse, throw.
      destruct (generateContent _ _) as [[text|]|e] eqn:Hg; cbn.
      * destruct text as [|d text]; cbn [truthy].
        -- eexists _, _. split; [done|]. do 4 (split; [by auto|]).
           split; [|done]. intros k' text' [= <-] _ _ Hg' Hne.
           rewrite Hg' in Hg. by injection Hg as ->.
        -- destruct (JSON.parse (String d text)) as [parsed|] eqn:Hp.
           ++ eexists _, _. split; [done|]. do 4 (split; [by auto|]). split.
              ** intros k' text' [= <-] _ _ Hg' _.
                 rewrite Hg' in Hg. injection Hg as ->. by rewrite Hp.
              ** intros _. by exists k, (String d text).
           ++ eexists _, _. split; [done|]. do 4 (split; [by auto|]).
              split; [|done]. intros k' text' [= <-] _ _ Hg' _.
              rewrite Hg' in Hg. injection Hg as ->. by rewrite Hp.
      * eexists _, _. split; [done|]. do 4 (split; [by auto|]).
        split; [|done]. intros k' text' [= <-] _ _ Hg' _. by rewrite Hg' in Hg.
      * eexists _, _. split; [done|]. do 4 (split; [by auto|]).
        split; [|done]. intros k' text' [= <-] _ _ Hg' _. by rewrite Hg' in Hg.
Qed.

Lemma X14_witness :
  ∃ v w',
    generateNoteTags (S := unit) (Some "k") (λ _ _, Ok (Some "null"))
      "some text" (mkWorld [] [] [] tt) = (Ok v, w')
    ∧ requests w' = [mkRequest MODEL_NAME (tags_prompt "some text") true]
    ∧ v = JSON.Null ∧ console w' = [].
Proof.
  destruct (X14_generateNoteTags_total (S := unit) (Some "k")
              (λ _ _, Ok (Some "null")) "some text" (mkWorld [] [] [] tt))
    as (v & w' & Hg & _ & _ & _ & _ & Htext & _).
  exists v, w'. split; [exact Hg|].
  apply (Htext "k" "null"); [reflexivity|discriminate|..].
  - vm_compute. discriminate.
  - reflexivity.
  - discriminate.
Defined.

(** X15.  Only the head of the content reaches the model: two contents
    that are not blank and agree on their first 1000 code units get the
    same title, request and log; the same holds for the tags with the
    first 2000. *)
Theorem X15_prompts_read_a_prefix {S : Type} (API_KEY : option string)
    (generateContent : string → Request → Result (option string))
    (content content' : string) (w : World S) :
  trim content ≠ "" → trim content' ≠ "" →
  (take 1000 content = take 1000 content' →
   generateNoteTitle API_KEY generateContent content w
   = generateNoteTitle API_KEY generateContent content' w)
  ∧ (take 2000 content = take 2000 content' →
     generateNoteTags API_KEY generateContent content w
     = generateNoteTags API_KEY generateContent content' w).
Proof.
  intros Hc%truthy_true Hc'%truthy_true.
  unfold generateNoteTitle, generateNoteTags, title_prompt, tags_prompt.
  rewrite Hc, Hc', !substring_0. by split; intros ->.
Qed.

Lemma X15_witness :
  generateNoteTitle (S := unit) (Some "k") (λ _ r, Ok (Some (contents r)))
    (filler 1000 +:+ "one") (mkWorld [] [] [] tt)
  = generateNoteTitle (Some "k") (λ _ r, Ok (Some (contents r)))
      (filler 1000 +:+ "two") (mkWorld [] [] [] tt).
Proof.
  apply (X15_prompts_read_a_prefix (Some "k") (λ _ r, Ok (Some (contents r)))
           (filler 1000 +:+ "one") (filler 1000 +:+ "two")
           (mkWorld [] [] [] tt)); [by vm_compute|by vm_compute|].
  vm_compute. reflexivity.
Defined.

(** X16.  [processAIAction] leaves the component and the alerts alone and
    sends at most one request: exactly one when it returns, carrying the
    prompt of the action over the text to process, the returned text being
    that of the response, or the empty string when the response has none;
    and when it throws, either nothing was sent, or the one request was
    rejected and the rejection is what is thrown, after it was logged.
    Asked for generate_tags or generate_title it throws without sending
    anything.  With a selection the rest of the note plays no part. *)
Theorem X16_processAIAction_outcomes {S : Type} (API_KEY : option string)
    (generateContent : string → Request → Result (option string))
    (action : AIActionType) (content selectedText : string) (w : World S) :
  let run := processAIAction API_KEY generateContent action content selectedText w in
  component run.2 = component w ∧ alerts run.2 = alerts w
  ∧ match run.1 with
    | Ok text =>
        ∃ apiKey prompt,
          API_KEY = Some apiKey
          ∧ action_prompt action (textToProcess content selectedText)
            = Some prompt
          ∧ requests run.2 = requests w ++ [mkRequest MODEL_NAME prompt false]
          ∧ console run.2 = console w
          ∧ (generateContent apiKey (mkRequest MODEL_NAME prompt false)
             = Ok (Some text)
             ∨ generateContent apiKey (mkRequest MODEL_NAME prompt false)
               = Ok None ∧ text = "")
    | Throw e =>
        requests run.2 = requests w
        ∨ ∃ apiKey prompt,
            API_KEY = Some apiKey
            ∧ requests run.2
              = requests w ++ [mkRequest MODEL_NAME prompt false]
            ∧ generateContent apiKey (mkRequest MODEL_NAME prompt false)
              = Throw e
            ∧ console run.2
              = console w
                ++ [mkLog ("Error processing " +:+ action_label action +:+ ":")
                      (Some e)]
    end
  ∧ (Editor.is_transform action = false →
     requests run.2 = requests w ∧ ∃ e, run.1 = Throw e)
  ∧ (selectedText ≠ "" →
     ∀ content',
       processAIAction API_KEY generateContent action content' selectedText w
       = run).
Proof.
  intros run. split; [|split]; [by eapply processAIAction_frame, surjective_pairing..|].
  subst run. unfold processAIAction, bind.
  split; [|split].
  - destruct (no_key API_KEY) eqn:Hk.
    + rewrite getAIClient_missing by done. by left.
    + destruct (getAIClient_present (S := S) API_KEY w Hk) as (k & HK & ->).
      destruct (negb _); [by left|].
      destruct (action_prompt _ _) as [prompt|] eqn:Hp; [|by left].
      unfold try_catch, bind, models_generateContent, console_error, throw, ret.
      destruct (generateContent _ _) as [[text|]|e] eqn:Hg; cbn.
      * exists k, prompt. by repeat split; auto.
      * exists k, prompt. by repeat split; auto.
      * right. by exists k, prompt.
  - intros Ha. destruct (no_key API_KEY) eqn:Hk.
    + rewrite getAIClient_missing by done. split; [done|by eexists].
    + destruct (getAIClient_present (S := S) API_KEY w Hk) as (k & HK & ->).
      destruct (negb _); [split; [done|by eexists]|].
      destruct action; try discriminate Ha; cbn; split; [done|by eexists|done|by eexists].
  - intros Hs%truthy_true content'. unfold textToProcess. by rewrite Hs.
Qed.

Lemma X16_witness :
  requests (processAIAction (S := unit) (Some "k") (λ _ _, Ok (Some "x"))
              generate_title "some text" "" (mkWorld [] [] [] tt)).2 = []
  ∧ ∃ e, (processAIAction (S := unit) (Some "k") (λ _ _, Ok (Some "x"))
            generate_title "some text" "" (mkWorld [] [] [] tt)).1 = Throw e.
Proof.
  exact (proj1 (proj2 (proj2 (proj2
           (X16_processAIAction_outcomes (S := unit) (Some "k")
              (λ _ _, Ok (Some "x")) generate_title "some text" ""
              (mkWorld [] [] [] tt)))))
           eq_refl).
Defined.

Import JsString Js Gemini GeminiFacts Editor HandlerFacts.

(** X17.  Whatever the action and whatever the text service does,
    [handleAIAction] settles without an error of its own, with the busy
    flag cleared; it sends at most one request and shows at most one
    alert.  generate_title never shows one.  generate_tags shows one when
    what came back is [null], where reading [length] throws; it shows none
    and merges when what came back is an array of strings, or a string,
    whose characters become tags. *)
Theorem X17_handleAIAction_settles (API_KEY : option string)
    (generateContent : string → Request → Result (option string))
    (interference : Component → Component)
    (action : AIActionType) (w : World Component) :
  let c := component w in
  let merged (generated : list string) :=
    if (0 <? List.length generated)%nat
    then Array_from_Set (tags (state c) ++ generated)
    else tags (state (interference (begin c))) in
  ∃ w',
    handleAIAction API_KEY generateContent interference action w = (Ok tt, w')
    ∧ isProcessingAI (state (component w')) = false
    ∧ textarea (component w') = textarea (interference (begin c))
    ∧ sent_at_most_one w w'
    ∧ (alerts w' = alerts w ∨ alerts w' = alerts w ++ [failure_alert])
    ∧ (action = generate_title → alerts w' = alerts w)
    ∧ (action = generate_tags →
       ∀ v w2,
         generateNoteTags API_KEY generateContent (content (state c))
           (with_component w (begin c)) = (Ok v, w2) →
         (v = JSON.Null → alerts w' = alerts w ++ [failure_alert])
         ∧ (∀ s, v = JSON.Str s →
              alerts w' = alerts w
              ∧ tags (state (component w')) = merged (chars s))
         ∧ (∀ l generated,
              v = JSON.Arr l → JSON.strings_of l = Some generated →
              alerts w' = alerts w
              ∧ tags (state (component w')) = merged generated)).
Proof.
  intros c merged. subst c merged.
  destruct (is_transform action) eqn:Ha.
  - rewrite handleAIAction_transform by done. cbn zeta.
    pose proof (processAIAction_sent API_KEY generateContent action
                  (content (state (component w)))
                  (selection_text (content (state (component w)))
                     (textarea (component w)))
                  (with_component w (begin (component w)))) as Hs.
    destruct (processAIAction _ _ _ _ _ _) as [[result|e] w2] eqn:Hp;
      apply processAIAction_frame in Hp as [Hc Hal]; cbn in Hc, Hal, Hs;
      (eexists; split; [done|]); cbn; rewrite Hc, Hal;
      (do 3 (split; [done|])); (split; [by auto|]);
      split; intros ->; discriminate Ha.
  - destruct action; try discriminate Ha.
    + rewrite handleAIAction_generate_tags. cbn zeta.
      destruct (generateNoteTags_ok API_KEY generateContent
                  (content (state (component w)))
                  (with_component w (begin (component w))))
        as (v & w2 & Hg & Hs).
      rewrite Hg. pose proof Hg as [Hc Hal]%generateNoteTags_frame.
      cbn in Hc, Hal, Hs.
      destruct (spread v) as [[g|e]|] eqn:Hv; (eexists; split; [done|]); cbn;
        rewrite ?Hc, ?Hal.
      * split; [by destruct g|]. split; [by destruct g|]. split; [done|].
        split; [by left|]. split; [done|].
        intros _ v' w2' [= <- <-]. split; [by intros ->|]. split.
        -- intros s ->. injection Hv as <-. split; [done|]. by destruct (chars s).
        -- intros l g' -> Hl. cbn in Hv. rewrite Hl in Hv. injection Hv as <-.
           split; [done|]. by destruct g'.
      * do 3 (split; [done|]). split; [by right|]. split; [done|].
        intros _ v' w2' [= <- <-]. split; [done|]. split.
        -- by intros s ->.
        -- intros l g' -> Hl. cbn in Hv. by rewrite Hl in Hv.
      * do 3 (split; [done|]). split; [by left|]. split; [done|].
        intros _ v' w2' [= <- <-]. split; [by intros ->|]. split.
        -- by intros s ->.
        -- intros l g' -> Hl. cbn in Hv. by rewrite Hl in Hv.
    + rewrite handleAIAction_generate_title. cbn zeta.
      destruct (generateNoteTitle_ok API_KEY generateContent
                  (content (state (component w)))
                  (with_component w (begin (component w))))
        as (t & w2 & Hg & _ & Hs & _).
      rewrite Hg. apply generateNoteTitle_frame in Hg as [Hc Hal].
      cbn in Hc, Hal, Hs. eexists; split; [done|]. cbn.
      rewrite Hc, Hal. do 3 (split; [done|]). split; [by left|].
      split; [done|]. intros [=].
Qed.

Lemma X17_witness :
  ∃ w',
    handleAIAction (Some "k") (λ _ _, Ok (Some "null")) (λ c, c) generate_tags
      (mkWorld [] [] []
         (mkComponent (mount (Note.mk "1" "T" "text" ["a"] 0 0)) (mkTextarea 0 0)))
    = (Ok tt, w')
    ∧ alerts w' = [failure_alert].
Proof.
  destruct (X17_handleAIAction_settles (Some "k") (λ _ _, Ok (Some "null"))
              (λ c, c) generate_tags
              (mkWorld [] [] []
                 (mkComponent (mount (Note.mk "1" "T" "text" ["a"] 0 0))
                    (mkTextarea 0 0))))
    as (w' & Hh & _ & _ & _ & _ & _ & Htags).
  exists w'. split; [exact Hh|].
  eapply (Htags eq_refl); [|reflexivity]. vm_compute. reflexivity.
Defined.

(** X18.  A span is selected, the call returns a text, and the selection
    is where it was when the call settles: the content becomes the
    content the handler started from with the span replaced by the text,
    nothing before and nothing after the span being touched.  What was
    typed into the content while the call was pending is not in it. *)
Theorem X18_transform_replaces_selected_span (API_KEY : option string)
    (generateContent : string → Request → Result (option string))
    (interference : Component → Component)
    (action : AIActionType) (w w2 : World Component) (result : string) :
  let c := component w in
  let body := content (state c) in
  let ta := textarea c in
  is_transform action = true →
  (selectionStart ta < selectionEnd ta ≤ String.length body)%nat →
  textarea (interference (begin c)) = ta →
  processAIAction API_KEY generateContent action body (selection_text body ta)
    (with_component w (begin c)) = (Ok result, w2) →
  ∃ w',
    handleAIAction API_KEY generateContent interference action w = (Ok tt, w')
    ∧ content (state (component w'))
      = take (selectionStart ta) body +:+ result +:+ drop (selectionEnd ta) body
    ∧ body
      = take (selectionStart ta) body +:+ selection_text body ta
        +:+ drop (selectionEnd ta) body
    ∧ alerts w' = alerts w.
Proof.
  intros c body ta Ha Hsel Hta Hp. subst c body ta.
  eexists. split; [by eapply handleAIAction_succeeded|].
  cbn [component state content on_state set_content set_isProcessingAI alerts].
  destruct (spliced_selection_kept action _ result _ _ Hta Hsel) as [-> Hbody].
  rewrite substring_0 in *. by unfold substring_from in *.
Qed.

Lemma X18_witness :
  ∃ w',
    handleAIAction (Some "k") (λ _ _, Ok (Some "HI")) (λ c, c) fix_grammar
      (mkWorld [] [] []
         (mkComponent (mount (Note.mk "1" "T" "hello world" [] 0 0))
            (mkTextarea 0 5)))
    = (Ok tt, w')
    ∧ content (state (component w'))
      = take 0 "hello world" +:+ "HI" +:+ drop 5 "hello world"
    ∧ "hello world"
      = take 0 "hello world" +:+ selection_text "hello world" (mkTextarea 0 5)
        +:+ drop 5 "hello world"
    ∧ alerts w' = [].
Proof.
  eapply (X18_transform_replaces_selected_span (Some "k")
            (λ _ _, Ok (Some "HI")) (λ c, c) fix_grammar
            (mkWorld [] [] []
               (mkComponent (mount (Note.mk "1" "T" "hello world" [] 0 0))
                  (mkTextarea 0 5)))).
  - reflexivity.
  - cbn. lia.
  - reflexivity.
  - vm_compute. reflexivity.
Defined.

(** X19.  Nothing is selected and the call returns a text: summarize
    appends a headed section to the content found when the call settles,
    so that what was typed meanwhile is kept; fix_grammar and elaborate
    put the text in place of the whole content, whatever was typed
    meanwhile. *)
Theorem X19_transform_without_selection (API_KEY : option string)
    (generateContent : string → Request → Result (option string))
    (interference : Component → Component)
    (action : AIActionType) (w w2 : World Component) (result : string) :
  let c := component w in
  is_transform action = true →
  selectionStart (textarea c) = selectionEnd (textarea c) →
  processAIAction API_KEY generateContent action (content (state c)) ""
    (with_component w (begin c)) = (Ok result, w2) →
  ∃ w',
    handleAIAction API_KEY generateContent interference action w = (Ok tt, w')
    ∧ content (state (component w'))
      = (if decide (action = summarize)
         then content (state (interference (begin c))) +:+ nl +:+ nl
              +:+ "### Summary" +:+ nl +:+ result
         else result)
    ∧ alerts w' = alerts w.
Proof.
  intros c Ha Hsel Hp. subst c.
  assert (selection_text (content (state (component w)))
            (textarea (component w)) = "") as Hs.
  { unfold selection_text. by rewrite decide_False by lia. }
  rewrite <-Hs in Hp. clear Hs.
  eexists. split; [by eapply handleAIAction_succeeded|].
  cbn [component state content on_state set_content set_isProcessingAI alerts].
  split; [|done]. by rewrite spliced_no_selection.
Qed.

Lemma X19_witness :
  ∃ w',
    handleAIAction (Some "k") (λ _ _, Ok (Some "- short"))
      (on_state (set_content "note, and more")) summarize
      (mkWorld [] [] []
         (mkComponent (mount (Note.mk "1" "T" "note" [] 0 0)) (mkTextarea 2 2)))
    = (Ok tt, w')
    ∧ content (state (component w'))
      = "note, and more" +:+ nl +:+ nl +:+ "### Summary" +:+ nl +:+ "- short"
    ∧ alerts w' = [].
Proof.
  eapply (X19_transform_without_selection (Some "k")
            (λ _ _, Ok (Some "- short"))
            (on_state (set_content "note, and more")) summarize
            (mkWorld [] [] []
               (mkComponent (mount (Note.mk "1" "T" "note" [] 0 0))
                  (mkTextarea 2 2)))).
  - reflexivity.
  - reflexivity.
  - vm_compute. reflexivity.
Defined.

(** X20.  generate_title always writes a title, and never an empty one:
    with no credential, or on a blank content, the title in the buffer is
    replaced by the default title, whatever it was.  The content and the
    tags are left as found when the call settles, and no alert is
    shown. *)
Theorem X20_generate_title_overwrites (API_KEY : option string)
    (generateContent : string → Request → Result (option string))
    (interference : Component → Component) (w : World Component) :
  let c := component w in
  ∃ w',
    handleAIAction API_KEY generateContent interference generate_title w
    = (Ok tt, w')
    ∧ title (state (component w')) ≠ ""
    ∧ (no_key API_KEY = true ∨ trim (content (state c)) = "" →
       title (state (component w')) = "Untitled Note")
    ∧ content (state (component w')) = content (state (interference (begin c)))
    ∧ tags (state (component w')) = tags (state (interference (begin c)))
    ∧ alerts w' = alerts w.
Proof.
  intros c. subst c. rewrite handleAIAction_generate_title. cbn zeta.
  destruct (generateNoteTitle_ok API_KEY generateContent
              (content (state (component w)))
              (with_component w (begin (component w))))
    as (t & w2 & Hg & Ht & _ & Hdef).
  rewrite Hg. apply generateNoteTitle_frame in Hg as [Hc Hal].
  cbn in Hc, Hal. eexists. split; [done|]. cbn. by rewrite Hc, Hal.
Qed.

Lemma X20_witness :
  ∃ w',
    handleAIAction None (λ _ _, Ok (Some "x")) (λ c, c) generate_title
      (mkWorld [] [] []
         (mkComponent (mount (Note.mk "1" "My title" "text" [] 0 0))
            (mkTextarea 0 0)))
    = (Ok tt, w')
    ∧ title (state (component w')) = "Untitled Note".
Proof.
  destruct (X20_generate_title_overwrites None (λ _ _, Ok (Some "x")) (λ c, c)
              (mkWorld [] [] []
                 (mkComponent (mount (Note.mk "1" "My title" "text" [] 0 0))
                    (mkTextarea 0 0))))
    as (w' & Hh & _ & Hdef & _).
  exists w'. split; [exact Hh|]. apply Hdef. left. reflexivity.
Defined.

Import Editor Debounce DebounceFacts.

(** X21.  Whatever the sequence of edits and timeouts, what is handed to
    [onUpdate] is a version of the note the editor shows: every saved note
    has its identifier and its creation time. *)
Theorem X21_saves_keep_identity (s : Session) (evs : list Event) :
  ∃ new,
    commits (run s evs) = commits s ++ new
    ∧ Forall (λ n, Note.id n = Note.id (note (st s))
                   ∧ Note.createdAt n = Note.createdAt (note (st s))) new.
Proof.
  destruct (run_commits s evs) as (new & Hc & Hv & _). by exists new.
Qed.

(** X22.  There are never more saves than edits: over any sequence of
    events the number of notes handed to [onUpdate] is at most the number
    of state setter calls, plus one when a timeout was pending at the
    start. *)
Theorem X22_no_more_saves_than_edits (s : Session) (evs : list Event) :
  (List.length (commits (run s evs))
   ≤ List.length (commits s) + edits evs + pending s)%nat.
Proof.
  destruct (run_commits s evs) as (new & -> & _ & Hl).
  rewrite List.length_app. lia.
Qed.

(** X23.  In a session that starts with the buffer in step with the note,
    or with a timeout pending, the buffer differs from the note only
    while a timeout is pending: no edit is left without a save to
    come. *)
Theorem X23_unsaved_edits_have_a_timeout (s : Session) (evs : list Event) :
  (timer s = None → clean (st s)) →
  timer (run s evs) = None → clean (st (run s evs)).
Proof.
  revert s. induction evs as [|ev evs IH]; intros s Hs; [done|].
  cbn [run foldl]. apply IH. by apply step_pending.
Qed.

Lemma X23_witness :
  let s := mkSession (mount (Note.mk "1" "T" "c" ["a"] 0 0)) None [] in
  let evs := [Edit 0 (SetTitle "Tx"); Fire 500; Edit 600 (SetTags ["a"; "b"]);
              Fire 1600; Fire 1700] in
  (timer s = None → clean (st s))
  ∧ timer (run s evs) = None
  ∧ clean (st (run s evs)).
Proof.
  intros s evs.
  assert (timer s = None → clean (st s)) as Hs by (intros _; by vm_compute).
  assert (timer (run s evs) = None) as Ht by reflexivity.
  split; [exact Hs|]. split; [exact Ht|].
  exact (X23_unsaved_edits_have_a_timeout s evs Hs Ht).
Defined.
